(** * caching-proxy: a shallow embedding of the cache key, the disk store,
      the header sanitizer and the forwarding engine

    The development follows the Go sources:
    - [internal/cache/cache.go]      Entry, BuildCacheKey, ShardPath,
                                     singleJoiningSlash, CloneHeaders
    - [internal/cache/diskcache.go]  DiskCache: Get, Set, Delete, Clear
    - [internal/proxy] (proxy.go)    the request handler of Run,
                                     filterHopByHop, copyHeaders,
                                     reqNoStore, resNoStore, containsToken

    Go strings are byte strings; they are modelled by [string] (a list of
    8-bit [ascii] characters).  [http.Header] (a [map[string][]string]) is a
    [gmap string (list string)]; a nil map and an empty map, and a nil slice
    and an empty slice, are not distinguished. *)

From Stdlib Require Import ZArith Lia String Ascii List Bool.
From Stdlib Require Import DecimalString DecimalZ DecimalN DecimalPos DecimalFacts.
From stdpp Require Import gmap strings list fin_maps sorting.

#[local] Set Warnings "-register-all".

Local Open Scope string_scope.
Local Open Scope list_scope.

(** [a +:+ b] is [String.append], Go's [+] on strings. *)

(** ** Byte strings *)

Definition byte_val (c : ascii) : N := N_of_ascii c.

Definition in_range (lo hi : N) (c : ascii) : bool :=
  ((lo <=? byte_val c) && (byte_val c <=? hi))%N.

Definition str_eqb (a b : string) : bool := bool_decide (a = b).

(** [s[0:n]] for [n <= len(s)]. *)
Fixpoint str_take (n : nat) (s : string) : string :=
  match n, s with
  | S n', String c s' => String c (str_take n' s')
  | _, _ => EmptyString
  end.

(** [s[n:]]. *)
Fixpoint str_drop (n : nat) (s : string) : string :=
  match n, s with
  | S n', String _ s' => str_drop n' s'
  | _, _ => s
  end.

Fixpoint str_last (s : string) : option ascii :=
  match s with
  | EmptyString => None
  | String c EmptyString => Some c
  | String _ s' => str_last s'
  end.

Fixpoint str_forallb (p : ascii → bool) (s : string) : bool :=
  match s with
  | EmptyString => true
  | String c s' => p c && str_forallb p s'
  end.

(** [strings.HasPrefix] and [strings.HasSuffix] for the one-byte string slash. *)
Definition has_prefix_slash (s : string) : bool :=
  match s with
  | String c _ => bool_decide (c = "/"%char)
  | EmptyString => false
  end.

Definition has_suffix_slash (s : string) : bool :=
  match str_last s with
  | Some c => bool_decide (c = "/"%char)
  | None => false
  end.

(** [strings.Split(s, sep)] for a one-byte separator: the pieces between the
    separators; the empty string splits into the single empty piece. *)
Fixpoint strings_Split (sep : ascii) (s : string) : list string :=
  match s with
  | EmptyString => [EmptyString]
  | String c s' =>
      if bool_decide (c = sep) then EmptyString :: strings_Split sep s'
      else match strings_Split sep s' with
           | piece :: rest => String c piece :: rest
           | [] => [String c EmptyString]
           end
  end.

(** [strings.Join(elems, sep)]. *)
Fixpoint strings_Join (elems : list string) (sep : string) : string :=
  match elems with
  | [] => EmptyString
  | [e] => e
  | e :: rest => e +:+ sep +:+ strings_Join rest sep
  end.

(** ** Parts of the Go standard library taken as parameters

    The claims do not depend on how these functions compute, so they are
    parameters of the development. *)

(** [net/url.URL]. *)
Record URL := mkURL {
  Scheme : string;
  Opaque : string;
  User : option (string * option string);
  UHost : string;
  Path : string;
  RawPath : string;
  OmitHost : bool;
  ForceQuery : bool;
  RawQuery : string;
  Fragment : string;
  RawFragment : string
}.

Definition URL_with_Path (u : URL) (p : string) : URL :=
  mkURL (Scheme u) (Opaque u) (User u) (UHost u) p (RawPath u) (OmitHost u)
        (ForceQuery u) (RawQuery u) (Fragment u) (RawFragment u).

Definition URL_with_RawQuery (u : URL) (q : string) : URL :=
  mkURL (Scheme u) (Opaque u) (User u) (UHost u) (Path u) (RawPath u)
        (OmitHost u) (ForceQuery u) q (Fragment u) (RawFragment u).

Inductive error := mkError (msg : string).

#[global] Instance error_eq_dec : EqDecision error.
Proof. solve_decision. Defined.

Class GoStdlib := {
  (** [strings.TrimSpace] *)
  strings_TrimSpace : string → string;
  (** [strings.EqualFold] *)
  strings_EqualFold : string → string → bool;
  (** [url.Parse] *)
  url_Parse : string → URL + error;
  (** the [String] method of [url.URL] *)
  URL_String : URL → string;
  (** [hex.EncodeToString(sha256.Sum256(b))] *)
  sha256_hex : string → string
}.

(** ** net/http headers *)

Abbreviation Header := (gmap string (list string)).

(** [textproto.validHeaderFieldByte]: the token characters of RFC 7230. *)
Definition validHeaderFieldByte (c : ascii) : bool :=
  in_range 48 57 c || in_range 65 90 c || in_range 97 122 c ||
  bool_decide (c ∈ ["!"; "#"; "$"; "%"; "&"; "'"; "*"; "+"; "-"; ".";
                    "^"; "_"; "`"; "|"; "~"]%char).

Definition is_lower (c : ascii) : bool := in_range 97 122 c.
Definition is_upper (c : ascii) : bool := in_range 65 90 c.
Definition to_upper (c : ascii) : ascii := ascii_of_N (byte_val c - 32).
Definition to_lower (c : ascii) : ascii := ascii_of_N (byte_val c + 32).

(** The second loop of [textproto.canonicalMIMEHeaderKey]: upper case for the
    first letter and for a letter after a dash, lower case elsewhere. *)
Fixpoint canonical_case (upper : bool) (s : string) : string :=
  match s with
  | EmptyString => EmptyString
  | String c s' =>
      let c' := if upper && is_lower c then to_upper c
                else if negb upper && is_upper c then to_lower c
                else c in
      String c' (canonical_case (bool_decide (c' = "-"%char)) s')
  end.

(** [textproto.CanonicalMIMEHeaderKey]: a key with a byte that is not a token
    character is returned unchanged. *)
Definition CanonicalMIMEHeaderKey (s : string) : string :=
  if str_forallb validHeaderFieldByte s then canonical_case true s else s.

(** [Header.Get]: the first value of the canonical key, or the empty string. *)
Definition Header_Get (h : Header) (key : string) : string :=
  match h !! CanonicalMIMEHeaderKey key with
  | Some (v :: _) => v
  | _ => EmptyString
  end.

Definition Header_Set (h : Header) (key value : string) : Header :=
  <[CanonicalMIMEHeaderKey key := [value]]> h.

Definition Header_Add (h : Header) (key value : string) : Header :=
  <[CanonicalMIMEHeaderKey key :=
      default [] (h !! CanonicalMIMEHeaderKey key) ++ [value]]> h.

Definition Header_Del (h : Header) (key : string) : Header :=
  delete (CanonicalMIMEHeaderKey key) h.

(** ** path/filepath (Unix)

    A path is resolved, as the operating system does in the absence of
    symbolic links, to whether it is rooted and to its list of components.
    [clean_comps] is the loop of [filepath.Clean] on the slash-separated
    pieces of the path: empty pieces and single dots are dropped, a double dot
    removes the component before it, is dropped at the root and is kept at the
    start of a relative path.  [acc] holds the components kept so far, last
    one first. *)

Fixpoint clean_comps (rooted : bool) (acc : list string) (cs : list string)
  : list string :=
  match cs with
  | [] => rev acc
  | c :: cs' =>
      if bool_decide (c = "" ∨ c = ".") then clean_comps rooted acc cs'
      else if bool_decide (c = "..") then
        match acc with
        | top :: acc' =>
            if bool_decide (top = "..") then clean_comps rooted (".." :: acc) cs'
            else clean_comps rooted acc' cs'
        | [] =>
            if rooted then clean_comps rooted [] cs'
            else clean_comps rooted [".."] cs'
        end
      else clean_comps rooted (c :: acc) cs'
  end.

(** A resolved path: rooted or not, and its components. *)
Abbreviation npath := (bool * list string)%type.

Definition path_resolve (p : string) : npath :=
  (has_prefix_slash p, clean_comps (has_prefix_slash p) [] (strings_Split "/" p)).

Definition path_render (np : npath) : string :=
  match np with
  | (true, cs) => "/" +:+ strings_Join cs "/"
  | (false, []) => "."
  | (false, cs) => strings_Join cs "/"
  end.

Definition filepath_Clean (p : string) : string := path_render (path_resolve p).

(** [filepath.Join]: leading empty elements are skipped, the rest is joined
    with slashes and cleaned; the result is empty when every element is. *)
Fixpoint filepath_Join (elem : list string) : string :=
  match elem with
  | [] => ""
  | e :: rest =>
      if bool_decide (e = "") then filepath_Join rest
      else filepath_Clean (strings_Join elem "/")
  end.

(** [filepath.Ext]: the suffix of the last path element that starts at its
    final dot, empty when there is none.  The scan of the source runs from the
    end of the path to the nearest slash. *)
Fixpoint ext_scan (rev_path : list ascii) (seen : list ascii) : string :=
  match rev_path with
  | [] => ""
  | c :: rest =>
      if bool_decide (c = "/"%char) then ""
      else if bool_decide (c = "."%char) then string_of_list_ascii (c :: seen)
      else ext_scan rest (c :: seen)
  end.

Definition filepath_Ext (p : string) : string :=
  ext_scan (rev (list_ascii_of_string p)) [].

(** [filepath.Dir]: the path up to its last slash, cleaned. *)
Fixpoint dir_scan (rev_path : list ascii) : list ascii :=
  match rev_path with
  | [] => []
  | c :: rest => if bool_decide (c = "/"%char) then rev_path else dir_scan rest
  end.

Definition filepath_Dir (p : string) : string :=
  filepath_Clean (string_of_list_ascii (rev (dir_scan (rev (list_ascii_of_string p))))).

(** ** sort.Strings: increasing byte-wise lexicographic order *)

Definition str_le (a b : string) : Prop := String.leb a b = true.

#[global] Instance str_le_dec a b : Decision (str_le a b).
Proof. unfold str_le. apply _. Defined.

Definition sort_Strings (l : list string) : list string := merge_sort str_le l.

(** ** internal/cache/cache.go *)

(** The fields of [http.Request] that the program reads or forwards. *)
Record Request := mkRequest {
  Method : string;
  ReqURL : URL;
  Proto : string;
  ReqHeader : Header;
  ReqBody : string;
  ReqHost : string;
  RemoteAddr : string
}.

(** Entry represents a cached HTTP response. *)
Record Entry := mkEntry {
  Status : Z;
  EHeader : Header;
  Body : string
}.

Inductive result (A : Type) :=
  | Ok (a : A)
  | Fail (e : error).
Arguments Ok {A} a.
Arguments Fail {A} e.

Definition newline : string := String "010"%char EmptyString.

(** singleJoiningSlash mirrors net/http/httputil path join behavior. *)
Definition singleJoiningSlash (a b : string) : string :=
  let aslash := has_suffix_slash a in
  let bs := has_prefix_slash b in
  if aslash && bs then a +:+ str_drop 1 b
  else if negb aslash && negb bs then a +:+ "/" +:+ b
  else a +:+ b.

(** ShardPath returns the file path that stores the key's payload. *)
Definition ShardPath (cacheDir key : string) : string :=
  let parts := [] in
  let parts := if (2 <=? String.length key)%nat
               then parts ++ [str_take 2 key] else parts in
  let parts := if (4 <=? String.length key)%nat
               then parts ++ [str_take 2 (str_drop 2 key)] else parts in
  filepath_Join ([cacheDir] ++ (parts ++ [key])).

(** CloneHeaders returns a deep copy of the headers with the values of each
    name sorted. *)
Definition CloneHeaders (h : Header) : Header := sort_Strings <$> h.

Section CacheKey.
Context `{GoStdlib}.

(** The URL as seen by the origin: the base with the request path joined
    to its path and the request query in place of its query. *)
Definition resolved_URL (base : URL) (r : Request) : URL :=
  let u := base in
  let u := URL_with_Path u (singleJoiningSlash (Path base) (Path (ReqURL r))) in
  URL_with_RawQuery u (RawQuery (ReqURL r)).

(** BuildCacheKey returns a deterministic key for a request based on method,
    full URL, and Accept. *)
Definition BuildCacheKey (originBase : string) (r : Request) : result string :=
  match url_Parse originBase with
  | inr err => Fail err
  | inl base =>
      let u := resolved_URL base r in
      let accept := Header_Get (ReqHeader r) "Accept" in
      let keyMaterial :=
        strings_Join [Method r; URL_String u; accept] newline in
      Ok (sha256_hex keyMaterial)
  end.
End CacheKey.

(** ** internal/proxy: the pure helpers *)

Definition hopHeaders : list string :=
  [ "Connection";
    "Proxy-Connection";
    "Keep-Alive";
    "Proxy-Authenticate";
    "Proxy-Authorization";
    "TE";
    "Trailer";
    "Transfer-Encoding";
    "Upgrade" ].

Section ProxyHelpers.
Context `{GoStdlib}.

(** Remove headers listed in Connection as well as common hop-by-hop
    headers. *)
Definition filterHopByHop (h : Header) : Header :=
  let c := Header_Get h "Connection" in
  let h :=
    if negb (str_eqb c "") then
      foldl (fun h f =>
               let name := strings_TrimSpace f in
               if negb (str_eqb name "") then Header_Del h name else h)
            h (strings_Split "," c)
    else h in
  foldl (fun h hh => Header_Del h hh) h hopHeaders.

Definition containsToken (v token : string) : bool :=
  existsb (fun part => strings_EqualFold (strings_TrimSpace part) token)
          (strings_Split "," v).

Definition reqNoStore (r : Request) : bool :=
  let cc := Header_Get (ReqHeader r) "Cache-Control" in
  containsToken cc "no-store".

(** [resNoStore] reads the header of the origin response. *)
Definition resNoStore (resHeader : Header) : bool :=
  let cc := Header_Get resHeader "Cache-Control" in
  containsToken cc "no-store".

(** The eligibility test at the head of the request handler. *)
Definition cacheEligible (r : Request) : bool :=
  str_eqb (Method r) "GET"
  && str_eqb (Header_Get (ReqHeader r) "Authorization") ""
  && negb (reqNoStore r).

(** The header names that the sanitizer reads out of the Connection value:
    the trimmed, non-empty pieces between its commas. *)
Definition connection_tokens (h : Header) : list string :=
  let c := Header_Get h "Connection" in
  if str_eqb c "" then []
  else filter (fun name => name ≠ "") (strings_TrimSpace <$> strings_Split "," c).
End ProxyHelpers.

(** [copyHeaders] ranges over the source map, whose iteration order Go leaves
    unspecified; [src] lists the entries of the map in the order of the
    iteration. *)
Definition copyHeaders (dst : Header) (src : list (string * list string)) : Header :=
  foldl (fun dst kvv => foldl (fun dst v => Header_Add dst kvv.1 v) dst kvv.2)
        dst src.

(** ** unicode/utf8 and encoding/base64, as encoding/json uses them *)

Definition bytes_of (s : string) : list ascii := list_ascii_of_string s.
Definition str_of (l : list ascii) : string := string_of_list_ascii l.

Definition c_quote : ascii := ascii_of_N 34.
Definition c_bslash : ascii := ascii_of_N 92.

Definition is_cont (c : ascii) : bool := in_range 128 191 c.

(** The length of the well-formed UTF-8 sequence at the head of [s], following
    the table of [utf8.DecodeRune]; [None] where [DecodeRune] answers
    [(RuneError, 1)]. *)
Definition utf8_len (s : list ascii) : option nat :=
  match s with
  | [] => None
  | b0 :: t =>
      if (byte_val b0 <? 128)%N then Some 1%nat
      else if in_range 194 223 b0 then
        match t with
        | b1 :: _ => if is_cont b1 then Some 2%nat else None
        | _ => None
        end
      else if in_range 224 239 b0 then
        match t with
        | b1 :: b2 :: _ =>
            let lo := if (byte_val b0 =? 224)%N then 160%N else 128%N in
            let hi := if (byte_val b0 =? 237)%N then 159%N else 191%N in
            if in_range lo hi b1 && is_cont b2 then Some 3%nat else None
        | _ => None
        end
      else if in_range 240 244 b0 then
        match t with
        | b1 :: b2 :: b3 :: _ =>
            let lo := if (byte_val b0 =? 240)%N then 144%N else 128%N in
            let hi := if (byte_val b0 =? 244)%N then 143%N else 191%N in
            if in_range lo hi b1 && is_cont b2 && is_cont b3
            then Some 4%nat else None
        | _ => None
        end
      else None
  end.

(** [utf8.EncodeRune]; a surrogate or a value past U+10FFFF encodes as
    U+FFFD. *)
Definition utf8_replacement : list ascii :=
  [ascii_of_N 239; ascii_of_N 191; ascii_of_N 189].

Definition utf8_encode (r : N) : list ascii :=
  if (r <=? 127)%N then [ascii_of_N r]
  else if (r <=? 2047)%N then
    [ascii_of_N (192 + r / 64); ascii_of_N (128 + r mod 64)]
  else if ((55296 <=? r) && (r <=? 57343) || (1114111 <? r))%N then
    utf8_replacement
  else if (r <=? 65535)%N then
    [ascii_of_N (224 + r / 4096); ascii_of_N (128 + (r / 64) mod 64);
     ascii_of_N (128 + r mod 64)]
  else
    [ascii_of_N (240 + r / 262144); ascii_of_N (128 + (r / 4096) mod 64);
     ascii_of_N (128 + (r / 64) mod 64); ascii_of_N (128 + r mod 64)].

Definition base64_alphabet : list ascii :=
  bytes_of "ABCDEFGHIJKLMNOPQRSTUVWXYZabcdefghijklmnopqrstuvwxyz0123456789+/".

Definition b64_char (i : N) : ascii := nth (N.to_nat i) base64_alphabet "="%char.

(** The decode map of [base64.StdEncoding]. *)
Definition b64_index (c : ascii) : option N :=
  if in_range 65 90 c then Some (byte_val c - 65)%N
  else if in_range 97 122 c then Some (byte_val c - 71)%N
  else if in_range 48 57 c then Some (byte_val c + 4)%N
  else if bool_decide (c = "+"%char) then Some 62%N
  else if bool_decide (c = "/"%char) then Some 63%N
  else None.

(** [base64.StdEncoding.EncodeToString]. *)
Fixpoint base64_encode (s : list ascii) : list ascii :=
  match s with
  | [] => []
  | [a] =>
      let v := (byte_val a * 65536)%N in
      [b64_char (v / 262144); b64_char ((v / 4096) mod 64); "="%char; "="%char]
  | [a; b] =>
      let v := (byte_val a * 65536 + byte_val b * 256)%N in
      [b64_char (v / 262144); b64_char ((v / 4096) mod 64);
       b64_char ((v / 64) mod 64); "="%char]
  | a :: b :: c :: rest =>
      let v := (byte_val a * 65536 + byte_val b * 256 + byte_val c)%N in
      [b64_char (v / 262144); b64_char ((v / 4096) mod 64);
       b64_char ((v / 64) mod 64); b64_char (v mod 64)] ++ base64_encode rest
  end.

(** One quantum of [base64.StdEncoding.Decode] (not strict: the unused low
    bits of a padded quantum are not checked). *)
Fixpoint b64_quanta (s : list ascii) : option (list ascii) :=
  match s with
  | [] => Some []
  | a :: b :: c :: d :: rest =>
      match b64_index a, b64_index b with
      | Some ia, Some ib =>
          match b64_index c, b64_index d with
          | Some ic, Some id =>
              let v := (ia * 262144 + ib * 4096 + ic * 64 + id)%N in
              match b64_quanta rest with
              | Some out =>
                  Some (ascii_of_N (v / 65536) :: ascii_of_N ((v / 256) mod 256)
                        :: ascii_of_N (v mod 256) :: out)
              | None => None
              end
          | Some ic, None =>
              if bool_decide (d = "="%char) && bool_decide (rest = []) then
                let v := (ia * 262144 + ib * 4096 + ic * 64)%N in
                Some [ascii_of_N (v / 65536); ascii_of_N ((v / 256) mod 256)]
              else None
          | None, _ =>
              if bool_decide (c = "="%char) && bool_decide (d = "="%char)
                 && bool_decide (rest = []) then
                let v := (ia * 262144 + ib * 4096)%N in
                Some [ascii_of_N (v / 65536)]
              else None
          end
      | _, _ => None
      end
  | _ => None
  end.

(** [base64.StdEncoding.Decode]: carriage returns and line feeds are skipped. *)
Definition base64_decode (s : list ascii) : option (list ascii) :=
  b64_quanta (filter (fun c => c ≠ ascii_of_N 10 ∧ c ≠ ascii_of_N 13) s).

(** ** strconv *)

(** [strconv.AppendInt(_, z, 10)]. *)
Definition strconv_FormatInt (z : Z) : string :=
  DecimalString.NilZero.string_of_int (Z.to_int z).

Definition digits_value (digits : string) : option N :=
  if str_eqb digits "" then None
  else N.of_uint <$> DecimalString.NilEmpty.uint_of_string digits.

(** [strconv.ParseInt(s, 10, 64)]. *)
Definition strconv_ParseInt (s : string) : option Z :=
  let '(neg, digits) :=
    match s with
    | String c t =>
        if bool_decide (c = "-"%char) then (true, t)
        else if bool_decide (c = "+"%char) then (false, t)
        else (false, s)
    | EmptyString => (false, s)
    end in
  match digits_value digits with
  | Some n =>
      let z := if neg then (- Z.of_N n)%Z else Z.of_N n in
      if bool_decide (- 2 ^ 63 ≤ z < 2 ^ 63)%Z then Some z else None
  | None => None
  end.

(** [strconv.ParseUint(s, 10, 64)] followed by the overflow check of a
    [uint8]. *)
Definition parse_uint8 (s : string) : option N :=
  match digits_value s with
  | Some n => if (n <=? 255)%N then Some n else None
  | None => None
  end.

(** ** encoding/json

    [json.Marshal] and [json.Unmarshal] for the type [Entry].  The text is a
    list of bytes.  Go's nesting limit of 10000 levels is not modelled. *)

Inductive json :=
  | JNull
  | JBool (b : bool)
  | JNumber (lit : list ascii)
  | JString (s : list ascii)
  | JArray (elems : list json)
  | JObject (members : list (list ascii * json)).

Definition hex_char (i : N) : ascii :=
  nth (N.to_nat i) (bytes_of "0123456789abcdef") "0"%char.

Definition hex_value (c : ascii) : option N :=
  if in_range 48 57 c then Some (byte_val c - 48)%N
  else if in_range 97 102 c then Some (byte_val c - 87)%N
  else if in_range 65 70 c then Some (byte_val c - 55)%N
  else None.

(** [htmlSafeSet]: the ASCII bytes that [json.Marshal] copies as they are. *)
Definition htmlSafe (c : ascii) : bool :=
  (32 <=? byte_val c)%N
  && negb (bool_decide (c ∈ [c_quote; c_bslash; "<"; ">"; "&"]%char)).

Definition is_line_sep (s : list ascii) : option ascii :=
  match s with
  | b0 :: b1 :: b2 :: _ =>
      if (byte_val b0 =? 226)%N && (byte_val b1 =? 128)%N then
        if (byte_val b2 =? 168)%N then Some "8"%char
        else if (byte_val b2 =? 169)%N then Some "9"%char
        else None
      else None
  | _ => None
  end.

(** One turn of the loop of [appendString] with HTML escaping on: the bytes
    written for the head of [c :: t], and what is left of the input. *)
Definition quote_step (c : ascii) (t : list ascii) : list ascii * list ascii :=
  if (byte_val c <? 128)%N then
    if htmlSafe c then ([c], t)
    else if bool_decide (c = c_bslash ∨ c = c_quote) then ([c_bslash; c], t)
    else if (byte_val c =? 8)%N then ([c_bslash; "b"%char], t)
    else if (byte_val c =? 12)%N then ([c_bslash; "f"%char], t)
    else if (byte_val c =? 10)%N then ([c_bslash; "n"%char], t)
    else if (byte_val c =? 13)%N then ([c_bslash; "r"%char], t)
    else if (byte_val c =? 9)%N then ([c_bslash; "t"%char], t)
    else ([c_bslash; "u"%char; "0"%char; "0"%char;
           hex_char (byte_val c / 16); hex_char (byte_val c mod 16)], t)
  else
    match utf8_len (c :: t) with
    | None => (c_bslash :: bytes_of "ufffd", t)
    | Some n =>
        match is_line_sep (c :: t) with
        | Some d => (c_bslash :: bytes_of "u202" ++ [d], drop n (c :: t))
        | None => (take n (c :: t), drop n (c :: t))
        end
    end.

Fixpoint quote_loop (fuel : nat) (s : list ascii) : list ascii :=
  match fuel, s with
  | S fuel', c :: t =>
      let '(out, rest) := quote_step c t in out ++ quote_loop fuel' rest
  | _, _ => []
  end.

Definition json_quote (s : list ascii) : list ascii :=
  c_quote :: quote_loop (length s) s ++ [c_quote].

(** What a string becomes once written and read back: every byte that is not
    part of a well-formed UTF-8 sequence is replaced by U+FFFD. *)
Definition coerce_step (c : ascii) (t : list ascii) : list ascii * list ascii :=
  if (byte_val c <? 128)%N then ([c], t)
  else match utf8_len (c :: t) with
       | None => (utf8_replacement, t)
       | Some n => (take n (c :: t), drop n (c :: t))
       end.

Fixpoint coerce_loop (fuel : nat) (s : list ascii) : list ascii :=
  match fuel, s with
  | S fuel', c :: t =>
      let '(out, rest) := coerce_step c t in out ++ coerce_loop fuel' rest
  | _, _ => []
  end.

Definition coerce_utf8 (s : list ascii) : list ascii := coerce_loop (length s) s.

(** Printing of a value in the compact form of [json.Marshal]. *)
Fixpoint json_render (v : json) : list ascii :=
  match v with
  | JNull => bytes_of "null"
  | JBool true => bytes_of "true"
  | JBool false => bytes_of "false"
  | JNumber lit => lit
  | JString s => json_quote s
  | JArray elems =>
      "["%char ::
      (fix go (l : list json) : list ascii :=
         match l with
         | [] => []
         | [x] => json_render x
         | x :: r => json_render x ++ ","%char :: go r
         end) elems ++ ["]"%char]
  | JObject members =>
      "{"%char ::
      (fix go (l : list (list ascii * json)) : list ascii :=
         match l with
         | [] => []
         | [(k, x)] => json_quote k ++ ":"%char :: json_render x
         | (k, x) :: r => json_quote k ++ ":"%char :: json_render x ++ ","%char :: go r
         end) members ++ ["}"%char]
  end.

(** *** Reading *)

Definition is_ws (c : ascii) : bool :=
  bool_decide (byte_val c ∈ [32; 9; 13; 10]%N).

Fixpoint skip_ws (s : list ascii) : list ascii :=
  match s with
  | c :: t => if is_ws c then skip_ws t else s
  | [] => []
  end.

Definition is_digit (c : ascii) : bool := in_range 48 57 c.

Fixpoint take_digits (s : list ascii) : list ascii * list ascii :=
  match s with
  | c :: t =>
      if is_digit c then let '(ds, r) := take_digits t in (c :: ds, r)
      else ([], s)
  | [] => ([], [])
  end.

(** The number states of the scanner: an optional minus, a zero or a digit
    string without leading zero, an optional fraction, an optional exponent.
    Each part returns its text and what follows it. *)
Definition scan_sign (s : list ascii) : list ascii * list ascii :=
  match s with
  | c :: t => if bool_decide (c = "-"%char) then ([c], t) else ([], s)
  | [] => ([], s)
  end.

Definition scan_int (s : list ascii) : option (list ascii * list ascii) :=
  match s with
  | [] => None
  | c :: t =>
      if is_digit c then
        if bool_decide (c = "0"%char) then Some ([c], t)
        else let '(ds, r) := take_digits t in Some (c :: ds, r)
      else None
  end.

Definition scan_frac (s : list ascii) : option (list ascii * list ascii) :=
  match s with
  | p :: t =>
      if bool_decide (p = "."%char) then
        let '(ds, r) := take_digits t in
        match ds with [] => None | _ => Some (p :: ds, r) end
      else Some ([], s)
  | [] => Some ([], s)
  end.

Definition scan_exp (s : list ascii) : option (list ascii * list ascii) :=
  match s with
  | e :: t =>
      if bool_decide (e = "e"%char ∨ e = "E"%char) then
        let '(sg, t1) :=
          match t with
          | g :: t1 =>
              if bool_decide (g = "+"%char ∨ g = "-"%char)
              then ([g], t1) else ([], t)
          | [] => ([], t)
          end in
        let '(ds, r) := take_digits t1 in
        match ds with [] => None | _ => Some (e :: sg ++ ds, r) end
      else Some ([], s)
  | [] => Some ([], s)
  end.

Definition scan_number (s : list ascii) : option (list ascii * list ascii) :=
  let '(sign, s1) := scan_sign s in
  match scan_int s1 with
  | None => None
  | Some (ip, r) =>
      match scan_frac r with
      | None => None
      | Some (fp, r1) =>
          match scan_exp r1 with
          | None => None
          | Some (ep, r2) => Some (sign ++ ip ++ fp ++ ep, r2)
          end
      end
  end.

(** [getu4]: the value of four hexadecimal digits. *)
Definition getu4 (h1 h2 h3 h4 : ascii) : option N :=
  match hex_value h1, hex_value h2, hex_value h3, hex_value h4 with
  | Some a, Some b, Some c, Some d => Some (((a * 16 + b) * 16 + c) * 16 + d)%N
  | _, _, _, _ => None
  end.

Definition is_surrogate (r : N) : bool := ((55296 <=? r) && (r <? 57344))%N.

(** [utf16.DecodeRune]. *)
Definition utf16_DecodeRune (r1 r2 : N) : option N :=
  if ((55296 <=? r1) && (r1 <? 56320) && (56320 <=? r2) && (r2 <? 57344))%N
  then Some ((r1 - 55296) * 1024 + (r2 - 56320) + 65536)%N
  else None.

Inductive str_step :=
  | StepEnd (rest : list ascii)
  | StepPiece (piece rest : list ascii)
  | StepBad.

(** One turn of the loop of [unquoteBytes], on input that the scanner accepts:
    the closing quote, an escape, an ASCII byte or a UTF-8 sequence.  A
    well-formed sequence is kept as it is (it decodes and encodes to itself);
    any other byte from 128 up becomes U+FFFD. *)
Definition unquote_step (s : list ascii) : str_step :=
  match s with
  | [] => StepBad
  | c :: t =>
      if bool_decide (c = c_quote) then StepEnd t
      else if bool_decide (c = c_bslash) then
        match t with
        | [] => StepBad
        | e :: t1 =>
            if bool_decide (e = c_quote ∨ e = c_bslash ∨ e = "/"%char)
            then StepPiece [e] t1
            else if bool_decide (e = "b"%char) then StepPiece [ascii_of_N 8] t1
            else if bool_decide (e = "f"%char) then StepPiece [ascii_of_N 12] t1
            else if bool_decide (e = "n"%char) then StepPiece [ascii_of_N 10] t1
            else if bool_decide (e = "r"%char) then StepPiece [ascii_of_N 13] t1
            else if bool_decide (e = "t"%char) then StepPiece [ascii_of_N 9] t1
            else if bool_decide (e = "u"%char) then
              match t1 with
              | h1 :: h2 :: h3 :: h4 :: t2 =>
                  match getu4 h1 h2 h3 h4 with
                  | None => StepBad
                  | Some rr =>
                      if is_surrogate rr then
                        match t2 with
                        | b :: u :: g1 :: g2 :: g3 :: g4 :: t3 =>
                            if bool_decide (b = c_bslash) && bool_decide (u = "u"%char)
                            then
                              match getu4 g1 g2 g3 g4 with
                              | Some rr1 =>
                                  match utf16_DecodeRune rr rr1 with
                                  | Some dec => StepPiece (utf8_encode dec) t3
                                  | None => StepPiece utf8_replacement t2
                                  end
                              | None => StepPiece utf8_replacement t2
                              end
                            else StepPiece utf8_replacement t2
                        | _ => StepPiece utf8_replacement t2
                        end
                      else StepPiece (utf8_encode rr) t2
                  end
              | _ => StepBad
              end
            else StepBad
        end
      else if (byte_val c <? 32)%N then StepBad
      else if (byte_val c <? 128)%N then StepPiece [c] t
      else match utf8_len s with
           | Some n => StepPiece (take n s) (drop n s)
           | None => StepPiece utf8_replacement t
           end
  end.

(** The text of a string after its opening quote: the unquoted bytes and the
    input after the closing quote. *)
Fixpoint unquote_loop (fuel : nat) (s : list ascii)
  : option (list ascii * list ascii) :=
  match fuel with
  | O => None
  | S fuel' =>
      match unquote_step s with
      | StepEnd rest => Some ([], rest)
      | StepPiece piece rest =>
          match unquote_loop fuel' rest with
          | Some (d, rest') => Some (piece ++ d, rest')
          | None => None
          end
      | StepBad => None
      end
  end.

Definition parse_string (t : list ascii) : option (list ascii * list ascii) :=
  unquote_loop (S (length t)) t.

Definition expect (word : string) (v : json) (s : list ascii)
  : option (json * list ascii) :=
  if bool_decide (take (String.length word) s = bytes_of word)
  then Some (v, drop (String.length word) s) else None.

Fixpoint parse_value (fuel : nat) (s : list ascii) : option (json * list ascii) :=
  match fuel with
  | O => None
  | S fuel' =>
      match skip_ws s with
      | [] => None
      | c :: t =>
          if bool_decide (c = "{"%char) then
            match skip_ws t with
            | c2 :: t2 =>
                if bool_decide (c2 = "}"%char) then Some (JObject [], t2)
                else match parse_members fuel' t with
                     | Some (ms, r) => Some (JObject ms, r)
                     | None => None
                     end
            | [] => None
            end
          else if bool_decide (c = "["%char) then
            match skip_ws t with
            | c2 :: t2 =>
                if bool_decide (c2 = "]"%char) then Some (JArray [], t2)
                else match parse_elems fuel' t with
                     | Some (vs, r) => Some (JArray vs, r)
                     | None => None
                     end
            | [] => None
            end
          else if bool_decide (c = c_quote) then
            match parse_string t with
            | Some (str, r) => Some (JString str, r)
            | None => None
            end
          else if bool_decide (c = "t"%char) then expect "true" (JBool true) (c :: t)
          else if bool_decide (c = "f"%char) then expect "false" (JBool false) (c :: t)
          else if bool_decide (c = "n"%char) then expect "null" JNull (c :: t)
          else match scan_number (c :: t) with
               | Some (lit, r) => Some (JNumber lit, r)
               | None => None
               end
      end
  end
with parse_elems (fuel : nat) (s : list ascii) : option (list json * list ascii) :=
  match fuel with
  | O => None
  | S fuel' =>
      match parse_value fuel' s with
      | Some (v, r) =>
          match skip_ws r with
          | c :: t =>
              if bool_decide (c = ","%char) then
                match parse_elems fuel' t with
                | Some (vs, r') => Some (v :: vs, r')
                | None => None
                end
              else if bool_decide (c = "]"%char) then Some ([v], t)
              else None
          | [] => None
          end
      | None => None
      end
  end
with parse_members (fuel : nat) (s : list ascii)
  : option (list (list ascii * json) * list ascii) :=
  match fuel with
  | O => None
  | S fuel' =>
      match skip_ws s with
      | c :: t =>
          if bool_decide (c = c_quote) then
            match parse_string t with
            | Some (k, r) =>
                match skip_ws r with
                | c2 :: t2 =>
                    if bool_decide (c2 = ":"%char) then
                      match parse_value fuel' t2 with
                      | Some (v, r2) =>
                          match skip_ws r2 with
                          | c3 :: t3 =>
                              if bool_decide (c3 = ","%char) then
                                match parse_members fuel' t3 with
                                | Some (ms, r3) => Some ((k, v) :: ms, r3)
                                | None => None
                                end
                              else if bool_decide (c3 = "}"%char)
                              then Some ([(k, v)], t3)
                              else None
                          | [] => None
                          end
                      | None => None
                      end
                    else None
                | [] => None
                end
            | None => None
            end
          else None
      | [] => None
      end
  end.

(** The whole input is one value, with white space around it. *)
Definition json_parse (data : list ascii) : option json :=
  match parse_value (S (length data)) data with
  | Some (v, r) => match skip_ws r with [] => Some v | _ => None end
  | None => None
  end.

(** *** Entry to text *)

(** The entries of a map in the order in which [json.Marshal] writes them:
    by increasing key. *)
Definition sorted_entries (h : Header) : list (string * list string) :=
  merge_sort (fun a b => str_le a.1 b.1) (map_to_list h).

Definition json_of_header (h : Header) : json :=
  JObject ((fun kvv : string * list string =>
              (bytes_of kvv.1, JArray ((fun v => JString (bytes_of v)) <$> kvv.2)))
           <$> sorted_entries h).

Definition json_of_entry (e : Entry) : json :=
  JObject [ (bytes_of "Status", JNumber (bytes_of (strconv_FormatInt (Status e))));
            (bytes_of "Header", json_of_header (EHeader e));
            (bytes_of "Body", JString (base64_encode (bytes_of (Body e)))) ].

Definition json_Marshal (e : Entry) : string :=
  str_of (json_render (json_of_entry e)).

(** *** Text to Entry *)

(** [foldName]: ASCII letters in upper case; U+017F and U+212A fold to S and
    K.  Other bytes from 128 up are left as they are: no name that holds one
    folds to the name of a field of [Entry]. *)
Fixpoint fold_name (s : list ascii) : list ascii :=
  match s with
  | [] => []
  | c :: t =>
      if is_lower c then to_upper c :: fold_name t
      else match t with
           | c1 :: t1 =>
               if (byte_val c =? 197)%N && (byte_val c1 =? 191)%N
               then "S"%char :: fold_name t1
               else match t1 with
                    | c2 :: t2 =>
                        if (byte_val c =? 226)%N && (byte_val c1 =? 132)%N
                           && (byte_val c2 =? 170)%N
                        then "K"%char :: fold_name t2
                        else c :: fold_name t
                    | [] => c :: fold_name t
                    end
           | [] => [c]
           end
  end.

(** The field that an object key selects: by its exact name, or else by its
    folded name. *)
Definition field_is (key : list ascii) (name : string) : bool :=
  bool_decide (key = bytes_of name)
  || bool_decide (fold_name key = fold_name (bytes_of name)).

Definition type_error : error := mkError "json: cannot unmarshal value".

(** A JSON value into a [string] element of a slice. *)
Definition decode_string (v : json) : result string :=
  match v with
  | JNull => Ok ""
  | JString s => Ok (str_of s)
  | _ => Fail type_error
  end.

Fixpoint decode_list {A} (f : json → result A) (l : list json) : result (list A) :=
  match l with
  | [] => Ok []
  | x :: r =>
      match f x, decode_list f r with
      | Ok a, Ok rest => Ok (a :: rest)
      | Fail e, _ => Fail e
      | _, Fail e => Fail e
      end
  end.

(** A JSON value into a [[]string]. *)
Definition decode_strings (v : json) : result (list string) :=
  match v with
  | JNull => Ok []
  | JArray l => decode_list decode_string l
  | _ => Fail type_error
  end.

(** The members of a JSON object into a map that already holds [h]: every
    member sets its key. *)
Fixpoint decode_header_members (h : Header) (ms : list (list ascii * json))
  : result Header :=
  match ms with
  | [] => Ok h
  | (k, v) :: r =>
      match decode_strings v with
      | Ok vs => decode_header_members (<[str_of k := vs]> h) r
      | Fail e => Fail e
      end
  end.

Definition decode_byte (v : json) : result ascii :=
  match v with
  | JNull => Ok (ascii_of_N 0)
  | JNumber lit =>
      match parse_uint8 (str_of lit) with
      | Some n => Ok (ascii_of_N n)
      | None => Fail type_error
      end
  | _ => Fail type_error
  end.

Definition with_Status (e : Entry) (z : Z) : Entry := mkEntry z (EHeader e) (Body e).
Definition with_Header (e : Entry) (h : Header) : Entry := mkEntry (Status e) h (Body e).
Definition with_Body (e : Entry) (b : string) : Entry := mkEntry (Status e) (EHeader e) b.

(** One member of the top-level object into the entry. *)
Definition decode_member (e : Entry) (kv : list ascii * json) : result Entry :=
  let '(k, v) := kv in
  if field_is k "Status" then
    match v with
    | JNull => Ok e
    | JNumber lit =>
        match strconv_ParseInt (str_of lit) with
        | Some z => Ok (with_Status e z)
        | None => Fail type_error
        end
    | _ => Fail type_error
    end
  else if field_is k "Header" then
    match v with
    | JNull => Ok (with_Header e ∅)
    | JObject ms =>
        match decode_header_members (EHeader e) ms with
        | Ok h => Ok (with_Header e h)
        | Fail err => Fail err
        end
    | _ => Fail type_error
    end
  else if field_is k "Body" then
    match v with
    | JNull => Ok (with_Body e "")
    | JString s =>
        match base64_decode s with
        | Some b => Ok (with_Body e (str_of b))
        | None => Fail (mkError "illegal base64 data")
        end
    | JArray l =>
        match decode_list decode_byte l with
        | Ok b => Ok (with_Body e (str_of b))
        | Fail err => Fail err
        end
    | _ => Fail type_error
    end
  else Ok e.

Fixpoint decode_members (e : Entry) (ms : list (list ascii * json)) : result Entry :=
  match ms with
  | [] => Ok e
  | kv :: r =>
      match decode_member e kv with
      | Ok e' => decode_members e' r
      | Fail err => Fail err
      end
  end.

Definition zero_Entry : Entry := mkEntry 0 ∅ "".

(** [json.Unmarshal(data, &e)] for a zero [e]. *)
Definition json_Unmarshal (data : string) : result Entry :=
  match json_parse (bytes_of data) with
  | None => Fail (mkError "invalid character")
  | Some JNull => Ok zero_Entry
  | Some (JObject ms) => decode_members zero_Entry ms
  | Some _ => Fail type_error
  end.

(** The entry that a file written by [json.Marshal] yields when it is read
    back: header names and values with their ill-formed bytes replaced. *)
Definition coerce_str (s : string) : string := str_of (coerce_utf8 (bytes_of s)).

Definition coerce_header (h : Header) : Header :=
  foldl (fun m (kvv : string * list string) =>
           <[coerce_str kvv.1 := coerce_str <$> kvv.2]> m)
        ∅ (sorted_entries h).

Definition coerce_entry (e : Entry) : Entry :=
  mkEntry (Status e) (coerce_header (EHeader e)) (Body e).

(** Text made of well-formed UTF-8 sequences only ([utf8.ValidString]). *)
Definition utf8_valid (s : string) : Prop := coerce_str s = s.

Definition header_utf8_valid (h : Header) : Prop :=
  ∀ k vs, h !! k = Some vs → utf8_valid k ∧ Forall utf8_valid vs.

(** ** The file system

    A path names at most one node.  Paths are compared after resolution, so
    two spellings of one path name the same node.  Directories are not
    tracked: every directory exists, [os.MkdirAll] succeeds and changes
    nothing, and a file can be created at any path.  A node is a regular file
    with its content, or a file that the process has no permission to open. *)

Inductive node :=
  | File (data : string)
  | NoPerm.

Abbreviation fsys := (gmap npath node).

Definition err_not_exist : error := mkError "file does not exist".
Definition err_permission : error := mkError "permission denied".

Definition os_IsNotExist (e : error) : bool := bool_decide (e = err_not_exist).

(** [os.Open] followed by [io.ReadAll]. *)
Definition os_ReadFile (fs : fsys) (path : string) : result string :=
  match fs !! path_resolve path with
  | None => Fail err_not_exist
  | Some NoPerm => Fail err_permission
  | Some (File data) => Ok data
  end.

(** [os.WriteFile]: the file is created or truncated, then written. *)
Definition os_WriteFile (fs : fsys) (path : string) (data : string) : result fsys :=
  match fs !! path_resolve path with
  | Some NoPerm => Fail err_permission
  | _ => Ok (<[path_resolve path := File data]> fs)
  end.

(** [os.Rename]: the node at [oldpath] replaces whatever is at [newpath]. *)
Definition os_Rename (fs : fsys) (oldpath newpath : string) : result fsys :=
  match fs !! path_resolve oldpath with
  | None => Fail err_not_exist
  | Some n => Ok (<[path_resolve newpath := n]> (delete (path_resolve oldpath) fs))
  end.

Definition os_Remove_node (fs : fsys) (np : npath) : result fsys :=
  match fs !! np with
  | None => Fail err_not_exist
  | Some _ => Ok (delete np fs)
  end.

Definition os_Remove (fs : fsys) (path : string) : result fsys :=
  os_Remove_node fs (path_resolve path).

(** The node [np] lies below the directory [root]: its components extend
    those of [root] by at least one, and the first further one does not lead
    back out of [root]. *)
Definition leads_down (rest : list string) : Prop :=
  match rest with
  | c :: _ => c ≠ ".."
  | [] => False
  end.

#[global] Instance leads_down_dec rest : Decision (leads_down rest).
Proof. destruct rest; simpl; apply _. Defined.

Definition below (root np : npath) : Prop :=
  root.1 = np.1 ∧ take (length root.2) np.2 = root.2
  ∧ leads_down (drop (length root.2) np.2).

#[global] Instance below_dec root np : Decision (below root np).
Proof. unfold below. apply _. Defined.

(** ** internal/cache/diskcache.go *)

(** DiskCache stores cache entries as JSON files on disk.  [files] is the
    file system that the cache works on; [locks] holds the keys for which a
    mutex has been created. *)
Record DiskCache := mkDiskCache {
  dir : string;
  files : fsys;
  locks : gset string
}.

(** NewDiskCache initializes a disk-backed cache at the given directory. *)
Definition NewDiskCache (fs : fsys) (d : string) : result DiskCache :=
  if str_eqb d "" then Fail (mkError "cache dir is empty")
  else Ok (mkDiskCache d fs ∅).

Definition filePathForKey (c : DiskCache) (key : string) : string :=
  let base := ShardPath (dir c) key in
  base +:+ ".json".

(** [lockFor] creates the mutex of the key on first use. *)
Definition lockFor (c : DiskCache) (key : string) : DiskCache :=
  mkDiskCache (dir c) (files c) (locks c ∪ {[key]}).

Definition with_files (c : DiskCache) (fs : fsys) : DiskCache :=
  mkDiskCache (dir c) fs (locks c).

(** Get retrieves the cached entry for key.  The three results of the source
    are the entry, whether it was found, and the error. *)
Definition Get (c : DiskCache) (key : string) : option Entry * bool * option error :=
  let path := filePathForKey c key in
  match os_ReadFile (files c) path with
  | Fail err =>
      if os_IsNotExist err then (None, false, None)
      else (None, false, Some err)
  | Ok data =>
      match json_Unmarshal data with
      | Fail err => (None, false, Some err)
      | Ok e => (Some e, true, None)
      end
  end.

(** Set writes the entry for key atomically.  [json.Marshal] does not fail on
    an [Entry]. *)
Definition Set_ (c : DiskCache) (key : string) (e : option Entry)
  : DiskCache * option error :=
  match e with
  | None => (c, Some (mkError "nil entry"))
  | Some e =>
      let path := filePathForKey c key in
      let c := lockFor c key in
      let b := json_Marshal e in
      let tmp := path +:+ ".tmp" in
      match os_WriteFile (files c) tmp b with
      | Fail err => (c, Some err)
      | Ok fs1 =>
          match os_Rename fs1 tmp path with
          | Fail err => (with_files c fs1, Some err)
          | Ok fs2 => (with_files c fs2, None)
          end
      end
  end.

(** Delete removes the entry for key. *)
Definition Delete (c : DiskCache) (key : string) : DiskCache * option error :=
  let path := filePathForKey c key in
  let c := lockFor c key in
  match os_Remove (files c) path with
  | Fail err => if negb (os_IsNotExist err) then (c, Some err) else (c, None)
  | Ok fs1 => (with_files c fs1, None)
  end.

(** The files that [filepath.Walk] hands to the callback of [Clear], with the
    path of each: the nodes below the cache directory.  Removing one does not
    affect another, so the order of the walk is left out. *)
Definition walk_files (fs : fsys) (root : string) : list (npath * node) :=
  filter (fun '(np, _) => below (path_resolve root) np) (map_to_list fs).

(** One call of the callback of [Clear] on a file. *)
Definition clear_visit (st : fsys * Z) (np : npath) : fsys * Z :=
  let '(fs, count) := st in
  if str_eqb (filepath_Ext (path_render np)) ".json" then
    match os_Remove_node fs np with
    | Ok fs' => (fs', count + 1)%Z
    | Fail _ => (fs, count)
    end
  else (fs, count).

(** Clear deletes all cached entries under the cache directory and returns
    the number of files removed. *)
Definition Clear (c : DiskCache) : DiskCache * Z * option error :=
  let '(fs, count) :=
    foldl clear_visit (files c, 0%Z) ((walk_files (files c) (dir c)).*1) in
  (with_files c fs, count, None).

(** ** Concurrent calls of Set

    Calls of [Set] that run at the same time are threads over a shared state.
    A thread moves by the steps of the body of [Set]; the scheduler picks the
    thread that moves next.  To follow a file that is written while it may be
    renamed, the file system has inodes here: a path names an inode, an open
    file writes to its inode.  [os.WriteFile] is the call that creates or
    truncates the file, followed by writes of one or more bytes each. *)

Record shared := mkShared {
  names : gmap npath nat;
  inodes : gmap nat node;
  held : gset string;
  created : gset string
}.

Inductive pc :=
  | PStart
  | PLock
  | PMarshal
  | PCreate (b : string)
  | PWrite (b : string) (fd : nat) (off : nat)
  | PRename
  | PUnlock (err : option error)
  | PDone (err : option error).

Record thread := mkThread {
  t_key : string;
  t_entry : Entry;
  t_pc : pc
}.

(** The content of a file after [chunk] is written at offset [off]; a gap
    past the old end is filled with zero bytes. *)
Definition write_at (old : string) (off : nat) (chunk : string) : string :=
  str_of (take off (bytes_of old ++ replicate (off - String.length old) (ascii_of_N 0))
          ++ bytes_of chunk
          ++ drop (off + String.length chunk) (bytes_of old)).

Definition chunk_of (b : string) (off n : nat) : string :=
  str_of (take (S n) (drop off (bytes_of b))).

(** What the store shows at a path. *)
Definition file_at (sh : shared) (path : string) : option node :=
  match names sh !! path_resolve path with
  | Some i => inodes sh !! i
  | None => None
  end.

Section ConcurrentSet.
Variable c0 : DiskCache.

Definition with_pc (t : thread) (p : pc) : thread :=
  mkThread (t_key t) (t_entry t) p.

(** One step of a thread; [n] is the scheduler's choice of how many bytes
    beyond the first the next write carries.  [None]: the thread cannot
    move, because it waits for its mutex or has returned. *)
Definition thread_step (sh : shared) (t : thread) (n : nat)
  : option (shared * thread) :=
  let path := filePathForKey c0 (t_key t) in
  let tmp := path +:+ ".tmp" in
  match t_pc t with
  | PStart =>
      (* os.MkdirAll, then c.lockFor(key) *)
      Some (mkShared (names sh) (inodes sh) (held sh) (created sh ∪ {[t_key t]}),
            with_pc t PLock)
  | PLock =>
      (* mu.Lock() *)
      if bool_decide (t_key t ∈ held sh) then None
      else Some (mkShared (names sh) (inodes sh) (held sh ∪ {[t_key t]}) (created sh),
                 with_pc t PMarshal)
  | PMarshal =>
      Some (sh, with_pc t (PCreate (json_Marshal (t_entry t))))
  | PCreate b =>
      match names sh !! path_resolve tmp with
      | Some i =>
          match inodes sh !! i with
          | Some NoPerm => Some (sh, with_pc t (PUnlock (Some err_permission)))
          | _ =>
              Some (mkShared (names sh) (<[i := File ""]> (inodes sh))
                             (held sh) (created sh),
                    with_pc t (PWrite b i 0))
          end
      | None =>
          let i := fresh (dom (inodes sh)) in
          Some (mkShared (<[path_resolve tmp := i]> (names sh))
                         (<[i := File ""]> (inodes sh)) (held sh) (created sh),
                with_pc t (PWrite b i 0))
      end
  | PWrite b fd off =>
      if (String.length b <=? off)%nat then Some (sh, with_pc t PRename)
      else
        let chunk := chunk_of b off n in
        let old := match inodes sh !! fd with
                   | Some (File d) => d
                   | _ => ""
                   end in
        Some (mkShared (names sh) (<[fd := File (write_at old off chunk)]> (inodes sh))
                       (held sh) (created sh),
              with_pc t (PWrite b fd (off + String.length chunk)))
  | PRename =>
      match names sh !! path_resolve tmp with
      | None => Some (sh, with_pc t (PUnlock (Some err_not_exist)))
      | Some i =>
          Some (mkShared (<[path_resolve path := i]> (delete (path_resolve tmp) (names sh)))
                         (inodes sh) (held sh) (created sh),
                with_pc t (PUnlock None))
      end
  | PUnlock err =>
      (* the deferred mu.Unlock() *)
      Some (mkShared (names sh) (inodes sh) (held sh ∖ {[t_key t]}) (created sh),
            with_pc t (PDone err))
  | PDone _ => None
  end.

Record cstate := mkCState {
  sh : shared;
  pool : list thread
}.

(** The scheduler lets thread [i] move. *)
Definition pool_step (s : cstate) (i n : nat) : option cstate :=
  match pool s !! i with
  | Some t =>
      match thread_step (sh s) t n with
      | Some (sh', t') => Some (mkCState sh' (<[i := t']> (pool s)))
      | None => None
      end
  | None => None
  end.

Inductive reachable (s0 : cstate) : cstate → Prop :=
  | reach_refl : reachable s0 s0
  | reach_step s i n s' :
      reachable s0 s → pool_step s i n = Some s' → reachable s0 s'.

Definition is_done (t : thread) : Prop :=
  match t_pc t with PDone _ => True | _ => False end.

Definition returned_nil (t : thread) : Prop := t_pc t = PDone None.

(** The calls [Set(key, e)] for the entries [es], all about to start. *)
Definition set_calls (key : string) (es : list Entry) : list thread :=
  (fun e => mkThread key e PStart) <$> es.

(** A schedule run from a state: the list of the scheduler's choices. *)
Fixpoint run_schedule (s : cstate) (sched : list (nat * nat)) : option cstate :=
  match sched with
  | [] => Some s
  | (i, n) :: rest =>
      match pool_step s i n with
      | Some s' => run_schedule s' rest
      | None => None
      end
  end.
End ConcurrentSet.

(** The shared state that shows the file system [fs], with no mutex held. *)
Definition shared_of_fsys (fs : fsys) : shared :=
  let l := map_to_list fs in
  mkShared (list_to_map (zip (l.*1) (seq 0 (length l))))
           (list_to_map (zip (seq 0 (length l)) (l.*2)))
           ∅ ∅.

(** The file system that a shared state shows. *)
Definition fsys_of_shared (s : shared) : fsys :=
  omap (fun i => inodes s !! i) (names s).

(** ** internal/proxy: the request handler *)

(** The interface [cache.Cache], over the state of its implementation. *)
Class Cache (St : Type) := {
  cache_Get : St → string → option Entry * bool * option error;
  cache_Set : St → string → option Entry → St * option error;
  cache_Delete : St → string → St * option error;
  cache_Clear : St → St * Z * option error
}.

#[global] Instance DiskCache_Cache : Cache DiskCache :=
  {| cache_Get := Get; cache_Set := Set_; cache_Delete := Delete;
     cache_Clear := Clear |}.

(** What the Go runtime and [httputil] leave open: the order in which a
    [range] visits a header map, and the director that
    [httputil.NewSingleHostReverseProxy] installs for a target. *)
Class GoRuntime := {
  map_range : Header → list (string * list string);
  map_range_perm : ∀ h, map_range h ≡ₚ map_to_list h;
  SingleHost_Director : URL → Request → Request
}.

(** The body of the origin response as the proxy reads it: all of it, or a
    part of it before the read fails. *)
Inductive body_read :=
  | BodyOk (data : string)
  | BodyErr (partial : string).

(** The response of the origin as [httputil.ReverseProxy] hands it to
    [ModifyResponse]. *)
Record OriginResponse := mkOriginResponse {
  StatusCode : Z;
  ResHeader : Header;
  ResBody : body_read
}.

(** The result of [transport.RoundTrip]. *)
Inductive round_trip :=
  | RTErr (e : error)
  | RTRes (res : OriginResponse).

(** What the handler writes to its [http.ResponseWriter]. *)
Record ClientResponse := mkClientResponse {
  CStatus : Z;
  CHeader : Header;
  CBody : string
}.

Inductive event :=
  | EvGet (key : string)
  | EvSet (key : string) (e : Entry)
  | EvOrigin (outreq : Request).

Record Outcome (St : Type) := mkOutcome {
  response : ClientResponse;
  store : option St;
  events : list event;
  (** the tag at the end of the debug log line *)
  log_tag : string
}.
Arguments mkOutcome {St}.
Arguments response {St}.
Arguments store {St}.
Arguments events {St}.
Arguments log_tag {St}.

(** [http.Error(w, http.StatusText(http.StatusBadGateway), http.StatusBadGateway)]. *)
Definition bad_gateway : ClientResponse :=
  mkClientResponse 502
    (Header_Set (Header_Set ∅ "Content-Type" "text/plain; charset=utf-8")
                "X-Content-Type-Options" "nosniff")
    ("Bad Gateway" +:+ newline).

Definition with_ReqHeader (r : Request) (h : Header) : Request :=
  mkRequest (Method r) (ReqURL r) (Proto r) h (ReqBody r) (ReqHost r) (RemoteAddr r).

Definition with_ReqHost (r : Request) (host : string) : Request :=
  mkRequest (Method r) (ReqURL r) (Proto r) (ReqHeader r) (ReqBody r) host (RemoteAddr r).

Section Handler.
Context `{GoStdlib} `{GoRuntime} {St : Type} `{Cache St}.
Variable originBase : string.
Variable target : URL.
(** The origin: what a round trip answers to the request sent. *)
Variable origin : Request → round_trip.

(** The director of [newReverseProxy]. *)
Definition director (req : Request) : Request :=
  let req := SingleHost_Director target req in
  let req := with_ReqHeader req (filterHopByHop (ReqHeader req)) in
  with_ReqHost req (UHost target).

(** [ServeHTTP] of the reverse proxy: the request is sent on; a transport
    error or an error of [ModifyResponse] goes to the error handler; the
    modified response is copied to the client. *)
Definition ServeHTTP
    (modifyResponse : OriginResponse → option St
                      → result OriginResponse * option St * list event)
    (c : option St) (r : Request)
  : ClientResponse * option St * list event :=
  let outreq := director r in
  match origin outreq with
  | RTErr _ => (bad_gateway, c, [EvOrigin outreq])
  | RTRes res =>
      match modifyResponse res c with
      | (Fail _, c', evs) => (bad_gateway, c', EvOrigin outreq :: evs)
      | (Ok res', c', evs) =>
          (mkClientResponse
             (StatusCode res')
             (copyHeaders ∅ (map_range (ResHeader res')))
             (match ResBody res' with BodyOk d => d | BodyErr d => d end),
           c', EvOrigin outreq :: evs)
      end
  end.

(** [ModifyResponse] of [newReverseProxy]. *)
Definition base_modifyResponse (res : OriginResponse) (c : option St)
  : result OriginResponse * option St * list event :=
  (Ok (mkOriginResponse (StatusCode res) (filterHopByHop (ResHeader res))
                        (ResBody res)), c, []).

(** The entry that the miss path builds from the response. *)
Definition miss_entry (status : Z) (h : Header) (b : string) : Entry :=
  mkEntry status (CloneHeaders h) b.

(** [rp.ModifyResponse] of the miss path, for the cache [st] and [key]. *)
Definition miss_modifyResponse (st : St) (key : string)
    (res : OriginResponse) (c : option St)
  : result OriginResponse * option St * list event :=
  let h := filterHopByHop (ResHeader res) in
  let h := Header_Set h "X-Cache" "MISS" in
  if resNoStore h then
    (Ok (mkOriginResponse (StatusCode res) h (ResBody res)), c, [])
  else
    match ResBody res with
    | BodyErr _ => (Fail (mkError "read error"), c, [])
    | BodyOk b =>
        let h := Header_Set h "Content-Length"
                   (strconv_FormatInt (Z.of_nat (String.length b))) in
        let entry := miss_entry (StatusCode res) h b in
        let '(st', _) := cache_Set st key (Some entry) in
        (Ok (mkOriginResponse (StatusCode res) h (BodyOk b)),
         Some st', [EvSet key entry])
    end.

(** The handler that [Run] registers for every path but the health check. *)
Definition handler (c : option St) (r : Request) : Outcome St :=
  let base :=
    let '(resp, c', evs) := ServeHTTP base_modifyResponse c r in
    mkOutcome resp c' evs "" in
  match c with
  | Some st =>
      if cacheEligible r then
        match BuildCacheKey originBase r with
        | Ok key =>
            match cache_Get st key with
            | (Some ent, true, _) =>
                (* cache HIT *)
                let h := copyHeaders ∅ (map_range (EHeader ent)) in
                let h := Header_Set h "X-Cache" "HIT" in
                let h := filterHopByHop h in
                mkOutcome (mkClientResponse (Status ent) h (Body ent))
                          c [EvGet key] "HIT"
            | _ =>
                (* cache MISS: a per-request proxy captures and stores *)
                let '(resp, c', evs) :=
                  ServeHTTP (miss_modifyResponse st key) c r in
                mkOutcome resp c' (EvGet key :: evs) "MISS"
            end
        | Fail _ => base
        end
      else base
  | None => base
  end.

(** [Run] serves with [handler] once the origin parses. *)
Definition Run_handler : result (option St → Request → Outcome St) :=
  match url_Parse originBase with
  | inr err => Fail (mkError "invalid origin")
  | inl _ => Ok handler
  end.
End Handler.

(** The keys of a header map are in canonical form, as they are in every
    header that [net/http] reads from the wire. *)
Definition canonical_keys (h : Header) : Prop :=
  ∀ k, is_Some (h !! k) → CanonicalMIMEHeaderKey k = k.

(** A stand-in for the parameters, for running the definitions on examples:
    [TrimSpace] and [EqualFold] as they are on ASCII text, the URL of the
    origin read as a bare path, and the identity in place of the digest. *)
Fixpoint trim_left (s : string) : string :=
  match s with
  | String c s' =>
      if bool_decide (byte_val c ∈ [9; 10; 11; 12; 13; 32]%N) then trim_left s' else s
  | EmptyString => s
  end.

Definition str_rev (s : string) : string := str_of (rev (bytes_of s)).

Definition ascii_TrimSpace (s : string) : string :=
  str_rev (trim_left (str_rev (trim_left s))).

Definition ascii_lower (s : string) : string :=
  str_of ((fun c => if is_upper c then to_lower c else c) <$> bytes_of s).

Definition ascii_EqualFold (a b : string) : bool :=
  str_eqb (ascii_lower a) (ascii_lower b).

Definition plain_URL (p : string) : URL :=
  mkURL "" "" None "" p "" false false "" "" "".

#[global] Instance example_stdlib : GoStdlib :=
  {| strings_TrimSpace := ascii_TrimSpace;
     strings_EqualFold := ascii_EqualFold;
     url_Parse := fun s => inl (plain_URL s);
     URL_String := fun u =>
       if str_eqb (RawQuery u) "" then Path u else Path u +:+ "?" +:+ RawQuery u;
     sha256_hex := fun s => s |}.

#[global] Instance example_runtime : GoRuntime :=
  {| map_range := map_to_list;
     map_range_perm := fun h => reflexivity (map_to_list h);
     SingleHost_Director := fun _ r => r |}.

(** ** Notions used in the statements and proofs *)

(** One turn of the loop of [clean_comps]. *)
Definition clean_step (rooted : bool) (acc : list string) (c : string) : list string :=
  if bool_decide (c = "" ∨ c = ".") then acc
  else if bool_decide (c = "..") then
    match acc with
    | top :: acc' => if bool_decide (top = "..") then ".." :: acc else acc'
    | [] => if rooted then [] else [".."]
    end
  else c :: acc.

Definition no_slash (s : string) : Prop := "/"%char ∉ bytes_of s.

(** A proper name of a file or directory. *)
Definition plain_comp (c : string) : Prop :=
  c ≠ "" ∧ c ≠ "." ∧ c ≠ ".." ∧ no_slash c.

(** The components of a resolved path: double dots, none of them in a rooted
    path, then proper names. *)
Definition normal_comps (rooted : bool) (cs : list string) : Prop :=
  ∃ n names, cs = replicate n ".." ++ names
             ∧ (rooted = true → n = 0%nat) ∧ Forall plain_comp names.

(** A key of at least four bytes without slash or dot, as the hexadecimal
    digests of [BuildCacheKey] are. *)
Definition plain_key (key : string) : Prop :=
  (4 ≤ String.length key)%nat
  ∧ ("/"%char ∉ bytes_of key) ∧ ("."%char ∉ bytes_of key).

#[global] Instance plain_key_dec key : Decision (plain_key key).
Proof. unfold plain_key. apply _. Defined.

(** The files that [Clear] takes for entries: below the cache directory and
    with the extension of the entry files. *)
Definition is_entry_file (root : string) (np : npath) : Prop :=
  below (path_resolve root) np ∧ filepath_Ext (path_render np) = ".json".

#[global] Instance is_entry_file_dec root np : Decision (is_entry_file root np).
Proof. unfold is_entry_file. apply _. Defined.

(** The value that the reader returns for the text of a value: its strings
    and keys coerced to well-formed UTF-8. *)
Fixpoint json_coerce (v : json) : json :=
  match v with
  | JString s => JString (coerce_utf8 s)
  | JArray elems => JArray (map json_coerce elems)
  | JObject members =>
      JObject (map (fun kv : list ascii * json =>
                      (coerce_utf8 kv.1, json_coerce kv.2)) members)
  | _ => v
  end.

(** A bound on the fuel that reading the text of a value takes. *)
Fixpoint json_size (v : json) : nat :=
  match v with
  | JArray elems => S (list_sum (map (fun x => S (json_size x)) elems))
  | JObject members => S (list_sum (map (fun kv : list ascii * json => S (json_size kv.2)) members))
  | _ => 1
  end.

(** The first byte of what follows a number does not continue the number. *)
Definition ends_number (rest : list ascii) : Prop :=
  match rest with
  | c :: _ => is_digit c = false ∧ c ≠ "."%char ∧ c ≠ "e"%char ∧ c ≠ "E"%char
  | [] => True
  end.

(** Number literals of the integer form that [strconv.AppendInt] writes. *)
Definition int_literal (lit : list ascii) : Prop :=
  ∃ z : Z, lit = bytes_of (strconv_FormatInt z).

Fixpoint json_ints (v : json) : Prop :=
  match v with
  | JNumber lit => int_literal lit
  | JArray elems => (fix go (l : list json) : Prop :=
                       match l with [] => True | x :: r => json_ints x ∧ go r end) elems
  | JObject members =>
      (fix go (l : list (list ascii * json)) : Prop :=
         match l with [] => True | kv :: r => json_ints kv.2 ∧ go r end) members
  | _ => True
  end.

(** A decimal numeral starts with a digit other than zero. *)
Definition nonzero_head (d : Decimal.uint) : Prop :=
  match d with
  | Decimal.Nil | Decimal.D0 _ => False
  | _ => True
  end.

(** The text between the brackets of an array and between the braces of an
    object, as [json_render] writes it. *)
Definition render_elems (l : list json) : list ascii :=
  (fix go (l : list json) : list ascii :=
     match l with
     | [] => []
     | [x] => json_render x
     | x :: r => json_render x ++ ","%char :: go r
     end) l.

Definition render_members (l : list (list ascii * json)) : list ascii :=
  (fix go (l : list (list ascii * json)) : list ascii :=
     match l with
     | [] => []
     | [(k, x)] => json_quote k ++ ":"%char :: json_render x
     | (k, x) :: r => json_quote k ++ ":"%char :: json_render x ++ ","%char :: go r
     end) l.

Definition is_number (v : json) : Prop :=
  match v with JNumber _ => True | _ => False end.

(** Reading the text of [v], followed by any text, gives [v] coerced and the
    text that follows. *)
Definition parse_ok (v : json) : Prop :=
  ∀ fuel rest, (json_size v ≤ fuel)%nat → (is_number v → ends_number rest) →
  parse_value fuel (json_render v ++ rest) = Some (json_coerce v, rest).

(** *** Invariants of concurrent calls of Set *)

(** The thread holds the mutex of its key. *)
Definition in_cs (p : pc) : Prop :=
  match p with
  | PMarshal | PCreate _ | PWrite _ _ _ | PRename | PUnlock _ => True
  | PStart | PLock | PDone _ => False
  end.

#[global] Instance in_cs_dec p : Decision (in_cs p).
Proof. destruct p; simpl; apply _. Defined.

(** The thread has renamed its temporary file over the final path. *)
Definition renamed (p : pc) : Prop := p = PUnlock None ∨ p = PDone None.

Section SetInvariant.
Variable c0 : DiskCache.
Variable key : string.

Let rp : npath := path_resolve (filePathForKey c0 key).
Let rt : npath := path_resolve (filePathForKey c0 key +:+ ".tmp").

(** What the program counter of a thread says about the shared state. *)
Definition pc_ok (s : shared) (t : thread) : Prop :=
  match t_pc t with
  | PCreate b => b = json_Marshal (t_entry t)
  | PWrite b fd off =>
      b = json_Marshal (t_entry t) ∧ names s !! rt = Some fd
      ∧ (off ≤ String.length b)%nat
      ∧ inodes s !! fd = Some (File (str_of (take off (bytes_of b))))
  | PRename =>
      ∃ fd, names s !! rt = Some fd
            ∧ inodes s !! fd = Some (File (json_Marshal (t_entry t)))
  | PUnlock err | PDone err => err = None
  | PStart | PLock | PMarshal => True
  end.

(** The temporary file can be written, is not a second name of the final
    file, and the final file, when it is there, has its inode. *)
Definition fs_ok (s : shared) : Prop :=
  (∀ fd, names s !! rt = Some fd →
         inodes s !! fd ≠ Some NoPerm ∧ names s !! rp ≠ Some fd)
  ∧ (∀ j, names s !! rp = Some j → is_Some (inodes s !! j)).

Record set_inv (es : list Entry) (s : cstate) : Prop := mkSetInv {
  inv_entries : t_entry <$> pool s = es;
  inv_keys : Forall (fun t => t_key t = key) (pool s);
  inv_held : key ∈ held (sh s) ↔ ∃ i t, pool s !! i = Some t ∧ in_cs (t_pc t);
  inv_mutex : ∀ i j ti tj, pool s !! i = Some ti → pool s !! j = Some tj →
                           in_cs (t_pc ti) → in_cs (t_pc tj) → i = j;
  inv_fs : fs_ok (sh s);
  inv_pc : ∀ i t, pool s !! i = Some t → pc_ok (sh s) t;
  inv_renamed :
    (∃ i t, pool s !! i = Some t ∧ renamed (t_pc t)) →
    ∃ i t, pool s !! i = Some t ∧ renamed (t_pc t)
           ∧ file_at (sh s) (filePathForKey c0 key)
             = Some (File (json_Marshal (t_entry t)))
}.
End SetInvariant.

(** Every locked mutex is held by a thread of its key. *)
Definition held_by_thread (s : cstate) : Prop :=
  ∀ k, k ∈ held (sh s) → ∃ i t, pool s !! i = Some t ∧ t_key t = k ∧ in_cs (t_pc t).

(** The order of the steps of [Set]: what the program counter of a thread may
    be after one step. *)
Definition pc_next (p p' : pc) : Prop :=
  match p with
  | PStart => p' = PLock
  | PLock => p' = PMarshal
  | PMarshal => ∃ b, p' = PCreate b
  | PCreate b => (∃ fd, p' = PWrite b fd 0) ∨ (∃ err, p' = PUnlock (Some err))
  | PWrite b fd off => (∃ off', p' = PWrite b fd off' ∧ (off < off')%nat) ∨ p' = PRename
  | PRename => ∃ err, p' = PUnlock err
  | PUnlock err => p' = PDone err
  | PDone _ => False
  end.

(** A bound on the number of steps that a thread has left. *)
Definition steps_left (t : thread) : nat :=
  match t_pc t with
  | PStart => 7 + String.length (json_Marshal (t_entry t))
  | PLock => 6 + String.length (json_Marshal (t_entry t))
  | PMarshal => 5 + String.length (json_Marshal (t_entry t))
  | PCreate b => 4 + String.length b
  | PWrite b _ off => 3 + (String.length b - off)
  | PRename => 2
  | PUnlock _ => 1
  | PDone _ => 0
  end.

Definition pool_steps_left (s : cstate) : nat := list_sum (steps_left <$> pool s).

(** *** Notions of the request handler *)

(** A header of the name is present. *)
Definition has_header (h : Header) (name : string) : Prop :=
  is_Some (h !! CanonicalMIMEHeaderKey name).

(** The values that [copyHeaders] gives a name in an empty destination: the
    values of the name in the source, when there are any. *)
Definition copied (o : option (list string)) : option (list string) :=
  match o with
  | Some (v :: vv) => Some (v :: vv)
  | _ => None
  end.

(** The name is one of those that the sanitizer removes from the header: a
    hop-by-hop name or a name listed in the Connection value. *)
Definition hop_by_hop `{GoStdlib} (h : Header) (k : string) : Prop :=
  k ∈ CanonicalMIMEHeaderKey <$> (hopHeaders ++ connection_tokens h).

(** The header of the origin response after the sanitizer and the tag of the
    miss path. *)
Definition miss_header `{GoStdlib} (resHeader : Header) : Header :=
  Header_Set (filterHopByHop resHeader) "X-Cache" "MISS".

(** [Cache.Get] does not give an entry: the handler takes the miss path. *)
Definition not_hit (g : option Entry * bool * option error) : Prop :=
  match g with
  | (Some _, true, _) => False
  | _ => True
  end.

(** [hex.EncodeToString], put in place of the digest in the examples. *)
Definition hex_digit (n : N) : ascii :=
  ascii_of_N (if (n <? 10)%N then 48 + n else 87 + n).

Definition hex_EncodeToString (s : string) : string :=
  str_of (flat_map (fun c => [hex_digit (byte_val c / 16); hex_digit (byte_val c mod 16)])
                   (bytes_of s)).

Definition hex_stdlib : GoStdlib :=
  {| strings_TrimSpace := ascii_TrimSpace;
     strings_EqualFold := ascii_EqualFold;
     url_Parse := fun s => inl (plain_URL s);
     URL_String := fun u =>
       if str_eqb (RawQuery u) "" then Path u else Path u +:+ "?" +:+ RawQuery u;
     sha256_hex := hex_EncodeToString |}.

(** The header that the miss path stores and relays when it keeps the
    response: sanitized, tagged, and with the length of the buffered body. *)
Definition kept_header `{GoStdlib} (resHeader : Header) (b : string) : Header :=
  Header_Set (miss_header resHeader) "Content-Length"
             (strconv_FormatInt (Z.of_nat (String.length b))).

(** The bytes of the body that reach the client. *)
Definition body_bytes (b : body_read) : string :=
  match b with BodyOk d => d | BodyErr d => d end.

#[global] Instance hop_by_hop_dec `{GoStdlib} h k : Decision (hop_by_hop h k).
Proof. unfold hop_by_hop. apply _. Defined.

#[global] Typeclasses Opaque hop_by_hop.

(** *** Notions of the concurrent runs *)

(** The mutex of a key is locked exactly when a call for the key is between
    [Lock] and [Unlock], and there is at most one such call for a key. *)
Definition mutex_inv (s : cstate) : Prop :=
  (∀ k, k ∈ held (sh s)
        ↔ ∃ i t, pool s !! i = Some t ∧ t_key t = k ∧ in_cs (t_pc t))
  ∧ (∀ i j ti tj, pool s !! i = Some ti → pool s !! j = Some tj →
                  t_key ti = t_key tj → in_cs (t_pc ti) → in_cs (t_pc tj) → i = j).

(** The calls of [Set] for the pairs of a key and an entry, all about to
    start. *)
Definition set_calls_of (kes : list (string * Entry)) : list thread :=
  (fun ke : string * Entry => mkThread ke.1 ke.2 PStart) <$> kes.

(** The file of the key is as it was at the start ([n0]), or holds the whole
    text of the entry of one of the calls. *)
Definition final_whole (c0 : DiskCache) (key : string) (es : list Entry)
    (n0 : option node) (s : shared) : Prop :=
  file_at s (filePathForKey c0 key) = n0
  ∨ ∃ e, e ∈ es ∧ file_at s (filePathForKey c0 key) = Some (File (json_Marshal e)).

(** Every name has its inode, and no inode has two names (no hard links). *)
Definition wf_shared (s : shared) : Prop :=
  (∀ p i, names s !! p = Some i → is_Some (inodes s !! i))
  ∧ (∀ p q i, names s !! p = Some i → names s !! q = Some i → p = q).

(** The first [off] bytes of a text. *)
Definition written (b : string) (off : nat) : string :=
  str_of (take off (bytes_of b)).

(** A call of [Set] that runs alone, on the files [F0]: the files that the
    shared state shows when the call is at [p]. *)
Definition alone_at (c0 : DiskCache) (key : string) (e : Entry) (F0 : fsys)
    (s : shared) (p : pc) : Prop :=
  let rp := path_resolve (filePathForKey c0 key) in
  let rt := path_resolve (filePathForKey c0 key +:+ ".tmp") in
  let b := json_Marshal e in
  match p with
  | PStart | PLock | PMarshal => fsys_of_shared s = F0
  | PCreate b' => b' = b ∧ fsys_of_shared s = F0
  | PWrite b' fd off =>
      b' = b ∧ names s !! rt = Some fd ∧ (off ≤ String.length b)%nat
      ∧ F0 !! rt ≠ Some NoPerm
      ∧ fsys_of_shared s = <[rt := File (written b off)]> F0
  | PRename =>
      F0 !! rt ≠ Some NoPerm ∧ fsys_of_shared s = <[rt := File b]> F0
  | PUnlock err | PDone err =>
      (err = None ∧ F0 !! rt ≠ Some NoPerm
       ∧ fsys_of_shared s = <[rp := File b]> (delete rt F0))
      ∨ (err = Some err_permission ∧ F0 !! rt = Some NoPerm
         ∧ fsys_of_shared s = F0)
  end.

Definition alone_inv (c0 : DiskCache) (key : string) (e : Entry) (F0 : fsys)
    (s : cstate) : Prop :=
  wf_shared (sh s)
  ∧ ∃ p, pool s = [mkThread key e p] ∧ alone_at c0 key e F0 (sh s) p.

(** * Properties *)

(** * Part II: properties *)

(** ** Strings *)

Lemma str_eqb_true a b : str_eqb a b = true ↔ a = b.
Proof. unfold str_eqb. apply bool_decide_eq_true. Qed.

Lemma str_eqb_false a b : str_eqb a b = false ↔ a ≠ b.
Proof. unfold str_eqb. apply bool_decide_eq_false. Qed.

Lemma str_of_bytes_of s : str_of (bytes_of s) = s.
Proof. apply string_of_list_ascii_of_string. Qed.

Lemma bytes_of_str_of l : bytes_of (str_of l) = l.
Proof. apply list_ascii_of_string_of_list_ascii. Qed.

Lemma bytes_of_inj a b : bytes_of a = bytes_of b → a = b.
Proof. intros E. rewrite <- (str_of_bytes_of a), <- (str_of_bytes_of b). by rewrite E. Qed.

Lemma bytes_of_app a b : bytes_of (a +:+ b) = bytes_of a ++ bytes_of b.
Proof. induction a as [|c a IH]; simpl; [done|]. by rewrite IH. Qed.

Lemma str_app_cons x a b : String x a +:+ b = String x (a +:+ b).
Proof. reflexivity. Qed.

Lemma str_app_assoc a b c : (a +:+ b) +:+ c = a +:+ (b +:+ c).
Proof. induction a as [|x a IH]; [done|]. by rewrite !str_app_cons, IH. Qed.

Lemma str_app_nil_r a : a +:+ "" = a.
Proof. induction a as [|x a IH]; [done|]. by rewrite str_app_cons, IH. Qed.

Lemma str_app_length a b :
  String.length (a +:+ b) = (String.length a + String.length b)%nat.
Proof. induction a as [|x a IH]; [done|]. rewrite str_app_cons. simpl. by rewrite IH. Qed.

Lemma bytes_of_length s : length (bytes_of s) = String.length s.
Proof. induction s as [|c s IH]; simpl; [done|]. by rewrite IH. Qed.

Lemma str_of_app a b : str_of (a ++ b) = str_of a +:+ str_of b.
Proof. induction a as [|c a IH]; simpl; [done|]. by rewrite IH. Qed.

(** ** The header sanitizer *)

Lemma Header_Del_fold_lookup (l : list string) (h : Header) (k : string) :
  foldl (fun h hh => Header_Del h hh) h l !! k =
  if bool_decide (k ∈ CanonicalMIMEHeaderKey <$> l) then None else h !! k.
Proof.
  revert h. induction l as [|x l IH]; intros h.
  - case_bool_decide as H1; [|done]. by apply elem_of_nil in H1.
  - rewrite fmap_cons. cbn [foldl]. rewrite IH. unfold Header_Del.
    destruct (decide (k = CanonicalMIMEHeaderKey x)) as [->|Hne].
    + rewrite (bool_decide_eq_true_2 (_ ∈ _ :: _)); [|apply elem_of_cons; by left].
      rewrite lookup_delete_eq. by case_bool_decide.
    + rewrite lookup_delete_ne by done.
      case_bool_decide as H1; case_bool_decide as H2; try done.
      * exfalso. apply H2. apply elem_of_cons. by right.
      * exfalso. apply elem_of_cons in H2 as [?|?]; done.
Qed.

Section Sanitizer.
Context `{GoStdlib}.

Lemma connection_loop_filter (l : list string) (h : Header) :
  foldl (fun h f =>
           let name := strings_TrimSpace f in
           if negb (str_eqb name "") then Header_Del h name else h) h l
  = foldl (fun h hh => Header_Del h hh) h
          (filter (fun name => name ≠ "") (strings_TrimSpace <$> l)).
Proof.
  revert h. induction l as [|x l IH]; intros h; simpl; [done|].
  rewrite IH. rewrite filter_cons. unfold str_eqb.
  case_bool_decide as E; simpl.
  - rewrite decide_False by (intros ?; done). done.
  - rewrite decide_True by done. done.
Qed.

Lemma filterHopByHop_fold (h : Header) :
  filterHopByHop h =
  foldl (fun h hh => Header_Del h hh) h (connection_tokens h ++ hopHeaders).
Proof.
  unfold filterHopByHop, connection_tokens. rewrite foldl_app.
  destruct (str_eqb (Header_Get h "Connection") "") eqn:E; simpl; [done|].
  by rewrite connection_loop_filter.
Qed.

Lemma filterHopByHop_lookup (h : Header) (k : string) :
  filterHopByHop h !! k =
  if bool_decide (k ∈ CanonicalMIMEHeaderKey <$> (hopHeaders ++ connection_tokens h))
  then None else h !! k.
Proof.
  rewrite filterHopByHop_fold, Header_Del_fold_lookup.
  assert (k ∈ CanonicalMIMEHeaderKey <$> (connection_tokens h ++ hopHeaders)
          ↔ k ∈ CanonicalMIMEHeaderKey <$> (hopHeaders ++ connection_tokens h)) as Hiff.
  { rewrite !fmap_app, !elem_of_app. tauto. }
  case_bool_decide as H1; case_bool_decide as H2; tauto.
Qed.



End Sanitizer.

(** ** The cache key *)

Section CacheKeyProps.
Context `{GoStdlib}.

(** The key depends on the request through its method, the URL resolved
    against the origin, and the Accept value only. *)
Lemma BuildCacheKey_factors (originBase : string) (r : Request) :
  BuildCacheKey originBase r =
  match url_Parse originBase with
  | inr err => Fail err
  | inl base =>
      Ok (sha256_hex (Method r +:+ newline +:+
                      URL_String (resolved_URL base r) +:+ newline +:+
                      Header_Get (ReqHeader r) "Accept"))
  end.
Proof. unfold BuildCacheKey. by destruct (url_Parse originBase). Qed.

Lemma resolved_URL_components (base : URL) (r1 r2 : Request) :
  Path (ReqURL r1) = Path (ReqURL r2) →
  RawQuery (ReqURL r1) = RawQuery (ReqURL r2) →
  resolved_URL base r1 = resolved_URL base r2.
Proof. unfold resolved_URL. by intros -> ->. Qed.

(** C5.  The cache key is a function of the request method, the URL
    resolved against the origin (the base path joined with the request
    path, and the request query as it is) and the Accept value: two
    requests that agree on these three have the same key, whatever their
    other headers, body, host, protocol or remote address are. *)
Theorem BuildCacheKey_deterministic (originBase : string) (r1 r2 : Request) :
  Method r1 = Method r2 →
  Path (ReqURL r1) = Path (ReqURL r2) →
  RawQuery (ReqURL r1) = RawQuery (ReqURL r2) →
  Header_Get (ReqHeader r1) "Accept" = Header_Get (ReqHeader r2) "Accept" →
  BuildCacheKey originBase r1 = BuildCacheKey originBase r2
  ∧ (∀ base, url_Parse originBase = inl base →
       BuildCacheKey originBase r1 =
       Ok (sha256_hex
             (strings_Join
                [Method r1;
                 URL_String
                   (URL_with_RawQuery
                      (URL_with_Path base
                         (singleJoiningSlash (Path base) (Path (ReqURL r1))))
                      (RawQuery (ReqURL r1)));
                 Header_Get (ReqHeader r1) "Accept"] newline))).
Proof.
  intros Hm Hp Hq Ha. split.
  - rewrite !BuildCacheKey_factors.
    destruct (url_Parse originBase) as [base|err]; [|done].
    by rewrite Hm, Ha, (resolved_URL_components base r1 r2 Hp Hq).
  - intros base Hb. unfold BuildCacheKey. by rewrite Hb.
Qed.
End CacheKeyProps.

Lemma BuildCacheKey_deterministic_witness :
  let r1 := mkRequest "GET" (plain_URL "/items") "HTTP/1.1"
              (<["Accept" := ["text/html"]]> (<["Cookie" := ["a=1"]]> ∅))
              "" "proxy" "10.0.0.1:5000" in
  let r2 := mkRequest "GET" (mkURL "http" "" None "h" "/items" "/items" false false "" "frag" "")
              "HTTP/2.0"
              (<["Accept" := ["text/html"; "*/*"]]> (<["Accept-Language" := ["fr"]]> ∅))
              "body" "other" "10.0.0.2:6000" in
  BuildCacheKey "/api" r1 = BuildCacheKey "/api" r2.
Proof.
  intros r1 r2.
  apply (BuildCacheKey_deterministic "/api" r1 r2); reflexivity.
Defined.

(** ** Paths *)

Lemma Split_nonempty sep s : strings_Split sep s ≠ [].
Proof.
  destruct s as [|c s]; simpl; [done|].
  case_bool_decide; [done|]. by destruct (strings_Split sep s).
Qed.

Lemma Split_sep_app sep a b :
  strings_Split sep (a +:+ String sep b) = strings_Split sep a ++ strings_Split sep b.
Proof.
  induction a as [|c a IH]; simpl.
  - by rewrite bool_decide_eq_true_2.
  - case_bool_decide; [by rewrite IH|].
    rewrite IH. pose proof (Split_nonempty sep a).
    by destruct (strings_Split sep a).
Qed.

Lemma Split_no_sep sep s : sep ∉ bytes_of s → strings_Split sep s = [s].
Proof.
  induction s as [|c s IH]; simpl; [done|]. intros Hn.
  rewrite bool_decide_eq_false_2.
  - rewrite IH; [done|]. intros ?. apply Hn. by right.
  - intros ->. apply Hn. by left.
Qed.

Lemma Split_app_no_sep sep a b :
  sep ∉ bytes_of b →
  ∃ I l, strings_Split sep a = I ++ [l] ∧ strings_Split sep (a +:+ b) = I ++ [l +:+ b].
Proof.
  intros Hb. induction a as [|c a (I & l & E1 & E2)]; simpl.
  - exists [], "". split; [done|]. simpl. by apply Split_no_sep.
  - case_bool_decide.
    + exists ("" :: I), l. by rewrite E1, E2.
    + rewrite E1, E2. destruct I as [|i I]; simpl.
      * by exists [], (String c l).
      * by exists (String c i :: I), l.
Qed.

Lemma Split_sep_free sep s x : x ∈ strings_Split sep s → sep ∉ bytes_of x.
Proof.
  revert x. induction s as [|c s IH]; simpl; intros x.
  - intros ->%list_elem_of_singleton. simpl. apply not_elem_of_nil.
  - case_bool_decide as E.
    + intros [->|Hx]%elem_of_cons; [apply not_elem_of_nil|by apply IH].
    + pose proof (Split_nonempty sep s) as Hne.
      destruct (strings_Split sep s) as [|p r]; [done|].
      intros [->|Hx]%elem_of_cons.
      * simpl. intros [->|Hin]%elem_of_cons; [done|].
        revert Hin. apply IH. by left.
      * apply IH. by right.
Qed.

Lemma Split_Join sep (cs : list string) :
  cs ≠ [] → Forall (fun c => sep ∉ bytes_of c) cs →
  strings_Split sep (strings_Join cs (String sep "")) = cs.
Proof.
  induction cs as [|c cs IH]; [done|]. intros _ Hall.
  apply Forall_cons in Hall as [Hc Hall].
  destruct cs as [|c' cs].
  - simpl. by apply Split_no_sep.
  - change (strings_Join (c :: c' :: cs) (String sep ""))
      with (c +:+ String sep "" +:+ strings_Join (c' :: cs) (String sep "")).
    change (String sep "" +:+ ?x) with (String sep x).
    rewrite Split_sep_app, (Split_no_sep _ c Hc), IH; done.
Qed.

Lemma clean_comps_foldl rooted acc cs :
  clean_comps rooted acc cs = rev (foldl (clean_step rooted) acc cs).
Proof.
  revert acc. induction cs as [|c cs IH]; intros acc; simpl; [done|].
  unfold clean_step at 2.
  repeat case_bool_decide; try apply IH.
  destruct acc as [|top acc']; [destruct rooted; apply IH|].
  case_bool_decide; apply IH.
Qed.

Lemma plain_comp_step rooted acc c :
  c ≠ "" → c ≠ "." → c ≠ ".." → clean_step rooted acc c = c :: acc.
Proof.
  intros H1 H2 H3. unfold clean_step.
  rewrite bool_decide_eq_false_2 by (intros [?|?]; done).
  by rewrite bool_decide_eq_false_2.
Qed.

Lemma plain_comps_push rooted acc names :
  Forall plain_comp names →
  foldl (clean_step rooted) acc names = rev names ++ acc.
Proof.
  revert acc. induction names as [|c names IH]; intros acc Hall; simpl; [done|].
  apply Forall_cons in Hall as [(H1 & H2 & H3 & _) Hall].
  rewrite plain_comp_step, IH by done. by rewrite <- app_assoc.
Qed.

Lemma dotdots_push n :
  foldl (clean_step false) [] (replicate n "..") = replicate n "..".
Proof.
  assert (∀ m acc, acc = replicate m ".." →
            foldl (clean_step false) acc (replicate n "..") = replicate (n + m) "..") as Hgen.
  { induction n as [|n IH]; intros m acc ->; [done|].
    cbn [replicate foldl]. rewrite (IH (S m)).
    - replace (n + S m)%nat with (S n + m)%nat by lia. done.
    - destruct m; [done|]. by unfold clean_step; simpl. }
  rewrite (Hgen 0%nat []) by done. f_equal. lia.
Qed.

(** The components that [clean_comps] returns are normal. *)
Lemma clean_step_normal rooted acc c :
  no_slash c → normal_comps rooted (rev acc) →
  normal_comps rooted (rev (clean_step rooted acc c)).
Proof.
  intros Hc (n & names & E & Hr & Hall). unfold clean_step.
  case_bool_decide as E1; [by exists n, names|].
  case_bool_decide as E2.
  - destruct acc as [|top acc'].
    + destruct rooted; [by exists n, names|].
      exists 1%nat, []. by repeat split.
    + simpl in E. destruct names as [|x names _] using rev_ind.
      * rewrite app_nil_r in E.
        assert (top = "..") as ->.
        { assert (top ∈ replicate n "..") as Hin.
          { rewrite <- E. apply elem_of_app. right. by left. }
          by apply elem_of_replicate in Hin as [? _]. }
        rewrite bool_decide_eq_true_2 by done.
        exists (S n), []. repeat split.
        -- change (rev (".." :: ".." :: acc')) with (rev (".." :: acc') ++ [".."]).
           simpl rev at 1. rewrite E, app_nil_r.
           change [".."] with (replicate 1 ".."). rewrite <- replicate_add.
           f_equal. lia.
        -- intros Hrt. specialize (Hr Hrt). subst n. by destruct (rev acc').
        -- done.
      * rewrite app_assoc in E. apply app_inj_tail in E as [E ->].
        apply Forall_app in Hall as [Hall Hx].
        apply (proj1 (Forall_singleton _ _)) in Hx.
        rewrite bool_decide_eq_false_2 by apply Hx.
        by exists n, names.
  - exists n, (names ++ [c]).
    simpl. rewrite E, app_assoc. repeat split; [done|].
    apply Forall_app. split; [done|]. apply Forall_singleton.
    repeat split; try done; intros ->; apply E1; auto.
Qed.

Lemma foldl_clean_step_normal rooted cs acc :
  Forall no_slash cs → normal_comps rooted (rev acc) →
  normal_comps rooted (rev (foldl (clean_step rooted) acc cs)).
Proof.
  revert acc. induction cs as [|c cs IH]; intros acc Hall Hacc; simpl; [done|].
  apply Forall_cons in Hall as [Hc Hall].
  apply IH; [done|]. by apply clean_step_normal.
Qed.

Lemma Split_slash_no_slash p : Forall no_slash (strings_Split "/" p).
Proof. apply Forall_forall. intros x Hx. by apply Split_sep_free in Hx. Qed.

Lemma path_resolve_normal p :
  normal_comps (path_resolve p).1 (path_resolve p).2.
Proof.
  unfold path_resolve. simpl. rewrite clean_comps_foldl.
  apply foldl_clean_step_normal; [apply Split_slash_no_slash|].
  exists 0%nat, []. by repeat split.
Qed.

Lemma normal_comps_clean rooted cs :
  normal_comps rooted cs → clean_comps rooted [] cs = cs.
Proof.
  intros (n & names & -> & Hr & Hall).
  rewrite clean_comps_foldl, foldl_app.
  destruct rooted.
  - rewrite (Hr eq_refl). simpl. rewrite plain_comps_push by done.
    by rewrite app_nil_r, rev_involutive.
  - rewrite dotdots_push, plain_comps_push by done.
    rewrite rev_app_distr, rev_involutive. f_equal.
    clear. induction n as [|n IH]; simpl; [done|]. rewrite IH.
    clear. induction n as [|n IH]; simpl; [done|]. by rewrite IH.
Qed.

Lemma normal_comps_no_slash rooted cs :
  normal_comps rooted cs → Forall (fun c => "/"%char ∉ bytes_of c) cs.
Proof.
  intros (n & names & -> & _ & Hall). apply Forall_app. split.
  - apply Forall_forall. intros x [-> _]%elem_of_replicate. compute_done.
  - eapply Forall_impl; [exact Hall|]. by intros x (_ & _ & _ & ?).
Qed.

Lemma has_prefix_slash_Join c cs :
  c ≠ "" → has_prefix_slash (strings_Join (c :: cs) "/") = has_prefix_slash c.
Proof. destruct c; [done|]. intros _. by destruct cs. Qed.

Lemma normal_head_not_slash cs c rest :
  normal_comps false cs → cs = c :: rest → c ≠ "" ∧ has_prefix_slash c = false.
Proof.
  intros (n & names & -> & _ & Hall) E.
  destruct n as [|n]; simpl in E.
  - subst names. apply Forall_cons in Hall as [(H1 & _ & _ & Hs) _].
    split; [done|]. destruct c as [|a c]; [done|]. simpl.
    apply bool_decide_eq_false_2. intros ->. apply Hs. by left.
  - by injection E as <- _.
Qed.

(** Resolving the rendering of a resolved path gives the path back:
    [filepath.Clean] is idempotent. *)
Lemma path_resolve_render rooted cs :
  normal_comps rooted cs → path_resolve (path_render (rooted, cs)) = (rooted, cs).
Proof.
  intros Hn. pose proof (normal_comps_no_slash _ _ Hn) as Hs.
  unfold path_resolve, path_render. destruct rooted.
  - change (has_prefix_slash ("/" +:+ strings_Join cs "/")) with true.
    f_equal. change ("/" +:+ ?x) with ("" +:+ String "/" x).
    rewrite Split_sep_app. change (strings_Split "/" "") with [""].
    destruct cs as [|c cs'].
    + done.
    + rewrite Split_Join by done. simpl app.
      change (clean_comps true [] ("" :: ?l)) with (clean_comps true [] l).
      by apply normal_comps_clean.
  - destruct cs as [|c cs'] eqn:Ecs; [done|].
    destruct (normal_head_not_slash _ _ _ Hn eq_refl) as [Hc Hp].
    rewrite has_prefix_slash_Join, Hp by done. f_equal.
    rewrite Split_Join by done. by apply normal_comps_clean.
Qed.

Lemma path_render_suffix rooted cs l suf :
  path_render (rooted, cs ++ [l]) +:+ suf = path_render (rooted, cs ++ [l +:+ suf]).
Proof.
  assert (∀ cs, strings_Join (cs ++ [l]) "/" +:+ suf = strings_Join (cs ++ [l +:+ suf]) "/") as HJ.
  { clear cs. induction cs as [|c cs IH]; [done|].
    destruct cs as [|c' cs].
    - simpl. by rewrite !str_app_assoc.
    - change (strings_Join ((c :: c' :: cs) ++ [?x]) "/")
        with (c +:+ "/" +:+ strings_Join ((c' :: cs) ++ [x]) "/").
      rewrite <- IH. by rewrite !str_app_assoc. }
  unfold path_render. destruct rooted.
  - rewrite <- HJ. by rewrite !str_app_assoc.
  - destruct cs as [|c cs]; [done|].
    change ((c :: cs) ++ [?x]) with (c :: (cs ++ [x])).
    destruct (cs ++ [l]) eqn:E1; [by destruct cs|].
    destruct (cs ++ [l +:+ suf]) eqn:E2; [by destruct cs|].
    rewrite <- E1, <- E2.
    change (c :: (cs ++ [?x])) with ((c :: cs) ++ [x]). apply HJ.
Qed.

Lemma has_prefix_slash_app a b :
  a ≠ "" → has_prefix_slash (a +:+ b) = has_prefix_slash a.
Proof. by destruct a. Qed.

Lemma path_resolve_Join d names :
  d ≠ "" → Forall plain_comp names →
  path_resolve (strings_Join (d :: names) "/")
  = ((path_resolve d).1, (path_resolve d).2 ++ names).
Proof.
  intros Hd Hall. destruct names as [|n ns].
  - simpl strings_Join. rewrite app_nil_r. by destruct (path_resolve d).
  - change (strings_Join (d :: n :: ns) "/")
      with (d +:+ String "/" (strings_Join (n :: ns) "/")).
    unfold path_resolve. simpl fst. simpl snd.
    rewrite has_prefix_slash_app by done. f_equal.
    rewrite Split_sep_app, Split_Join; [|done|].
    + rewrite !clean_comps_foldl, foldl_app, plain_comps_push by done.
      by rewrite rev_app_distr, rev_involutive.
    + eapply Forall_impl; [exact Hall|]. by intros x (_ & _ & _ & ?).
Qed.

Lemma normal_comps_app_plain rooted cs names :
  normal_comps rooted cs → Forall plain_comp names →
  normal_comps rooted (cs ++ names).
Proof.
  intros (n & ns & -> & Hr & Hall) Hnames.
  exists n, (ns ++ names). rewrite app_assoc. repeat split; [done|].
  by apply Forall_app.
Qed.

Lemma bytes_of_str_take n s x : x ∈ bytes_of (str_take n s) → x ∈ bytes_of s.
Proof.
  revert s. induction n as [|n IH]; intros [|c s]; simpl; try by intros ?%elem_of_nil.
  intros [->|Hx]%elem_of_cons; [by left|]. right. by apply IH.
Qed.

Lemma bytes_of_str_drop n s x : x ∈ bytes_of (str_drop n s) → x ∈ bytes_of s.
Proof.
  revert s. induction n as [|n IH]; intros [|c s]; simpl; try done.
  intros Hx. right. by apply IH.
Qed.

Lemma str_take_length n s :
  (n ≤ String.length s)%nat → String.length (str_take n s) = n.
Proof.
  revert s. induction n as [|n IH]; intros [|c s]; simpl; try done; try lia.
  intros Hn. rewrite IH; lia.
Qed.

Lemma str_drop_length n s : String.length (str_drop n s) = (String.length s - n)%nat.
Proof. revert s. induction n as [|n IH]; intros [|c s]; simpl; try done. Qed.

Lemma plain_of_chars c :
  c ≠ "" → "/"%char ∉ bytes_of c → "."%char ∉ bytes_of c → plain_comp c.
Proof.
  intros H1 H2 H3. repeat split; try done.
  - intros ->. apply H3. by left.
  - intros ->. apply H3. by left.
Qed.

Lemma plain_key_comps key :
  plain_key key →
  Forall plain_comp [str_take 2 key; str_take 2 (str_drop 2 key); key].
Proof.
  intros (Hlen & Hs & Hd).
  repeat apply Forall_cons_2; [| | |done]; apply plain_of_chars.
  - intros E. pose proof (str_take_length 2 key ltac:(lia)) as HL.
    by rewrite E in HL.
  - intros ?%bytes_of_str_take. done.
  - intros ?%bytes_of_str_take. done.
  - intros E. pose proof (str_take_length 2 (str_drop 2 key)) as HL.
    rewrite str_drop_length in HL. rewrite E in HL. simpl in HL. lia.
  - intros ?%bytes_of_str_take%bytes_of_str_drop. done.
  - intros ?%bytes_of_str_take%bytes_of_str_drop. done.
  - intros ->. simpl in Hlen. lia.
  - done.
  - done.
Qed.

Lemma ShardPath_plain d key :
  d ≠ "" → plain_key key →
  ShardPath d key =
  path_render ((path_resolve d).1,
               (path_resolve d).2 ++ [str_take 2 key; str_take 2 (str_drop 2 key); key]).
Proof.
  intros Hd Hk. pose proof (plain_key_comps key Hk) as Hc.
  destruct Hk as (Hlen & _). unfold ShardPath.
  rewrite (proj2 (Nat.leb_le 2 _)) by lia.
  rewrite (proj2 (Nat.leb_le 4 _)) by lia.
  simpl app. unfold filepath_Join.
  rewrite bool_decide_eq_false_2 by done.
  unfold filepath_Clean. by rewrite path_resolve_Join.
Qed.

(** The file of a plain key lies three levels below the cache directory:
    two shard directories and the key with its extension. *)
Lemma filePathForKey_resolve c key :
  dir c ≠ "" → plain_key key →
  path_resolve (filePathForKey c key)
  = ((path_resolve (dir c)).1,
     (path_resolve (dir c)).2
       ++ [str_take 2 key; str_take 2 (str_drop 2 key); key +:+ ".json"]).
Proof.
  intros Hd Hk. unfold filePathForKey. rewrite ShardPath_plain by done.
  pose proof (plain_key_comps key Hk) as Hc.
  set (r := (path_resolve (dir c)).1). set (cs := (path_resolve (dir c)).2).
  change [str_take 2 key; str_take 2 (str_drop 2 key); key]
    with ([str_take 2 key; str_take 2 (str_drop 2 key)] ++ [key]).
  rewrite app_assoc, path_render_suffix, <- app_assoc.
  apply path_resolve_render.
  apply normal_comps_app_plain; [apply path_resolve_normal|].
  apply Forall_cons in Hc as [H1 Hc]. apply Forall_cons in Hc as [H2 Hc].
  apply (proj1 (Forall_singleton _ _)) in Hc.
  repeat apply Forall_cons_2; [done|done| |done].
  destruct Hc as (Hne & _ & _ & Hs). destruct Hk as (Hlen & _ & Hdot).
  repeat split.
  - by destruct key.
  - destruct key as [|a [|b key]]; try done.
  - destruct key as [|a [|b [|b' key]]]; try done.
  - unfold no_slash. rewrite bytes_of_app. intros [?|Hin]%elem_of_app; [done|].
    revert Hin. compute_done.
Qed.

Lemma str_app_ne_self a b : b ≠ "" → a +:+ b ≠ a.
Proof.
  intros Hb E. apply (f_equal String.length) in E.
  rewrite str_app_length in E. destruct b; [done|]. simpl in E. lia.
Qed.

(** The temporary file of [Set] is not the file of the entry. *)
Lemma tmp_path_distinct (x : string) :
  path_resolve ((x +:+ ".json") +:+ ".tmp") ≠ path_resolve (x +:+ ".json").
Proof.
  destruct (Split_app_no_sep "/" x ".json") as (I & l & E1 & E2); [compute_done|].
  destruct (Split_app_no_sep "/" (x +:+ ".json") ".tmp") as (I' & l' & E3 & E4);
    [compute_done|].
  rewrite E2 in E3. apply app_inj_tail in E3 as [<- <-].
  unfold path_resolve. rewrite E4, E2.
  rewrite !clean_comps_foldl, !foldl_app. simpl foldl.
  assert (∀ s : string, (5 ≤ String.length s)%nat → s ≠ "" ∧ s ≠ "." ∧ s ≠ "..") as Hlong.
  { intros s Hs. repeat split; intros ->; simpl in Hs; lia. }
  assert (has_prefix_slash ((x +:+ ".json") +:+ ".tmp") = has_prefix_slash (x +:+ ".json")) as ->.
  { apply has_prefix_slash_app. by destruct x. }
  destruct (Hlong (l +:+ ".json")) as (A1 & A2 & A3).
  { rewrite str_app_length. simpl. lia. }
  destruct (Hlong ((l +:+ ".json") +:+ ".tmp")) as (B1 & B2 & B3).
  { rewrite !str_app_length. simpl. lia. }
  rewrite !plain_comp_step by done. simpl rev.
  intros [= E]. apply app_inj_tail in E as [_ E].
  by apply str_app_ne_self in E.
Qed.

Lemma filepath_Ext_json (s : string) : filepath_Ext (s +:+ ".json") = ".json".
Proof.
  unfold filepath_Ext. rewrite bytes_of_app, rev_app_distr. reflexivity.
Qed.

(** The temporary file of [Set] is in the directory of the final file. *)
Lemma filepath_Dir_tmp (p : string) : filepath_Dir (p +:+ ".tmp") = filepath_Dir p.
Proof.
  unfold filepath_Dir. rewrite bytes_of_app, rev_app_distr. reflexivity.
Qed.

(** ** Clear *)





Lemma Get_absent (c : DiskCache) (key : string) :
  files c !! path_resolve (filePathForKey c key) = None →
  Get c key = (None, false, None).
Proof. intros E. unfold Get, os_ReadFile. by rewrite E. Qed.

Lemma entry_file_is_entry_file c key :
  dir c ≠ "" → plain_key key →
  is_entry_file (dir c) (path_resolve (filePathForKey c key)).
Proof.
  intros Hd Hk. pose proof (filePathForKey_resolve c key Hd Hk) as E.
  split.
  - rewrite E. split; [done|]. simpl.
    rewrite take_app_length, drop_app_length. split; [done|].
    simpl. intros E2. destruct Hk as (_ & _ & Hdot). apply Hdot.
    destruct key as [|a [|b key]]; simpl in *; try done.
    injection E2 as -> _. by left.
  - rewrite <- (filepath_Ext_json (ShardPath (dir c) key)).
    f_equal. change (ShardPath (dir c) key +:+ ".json") with (filePathForKey c key).
    rewrite E. unfold filePathForKey. rewrite ShardPath_plain by done.
    change [str_take 2 key; str_take 2 (str_drop 2 key); key]
      with ([str_take 2 key; str_take 2 (str_drop 2 key)] ++ [key]).
    by rewrite app_assoc, path_render_suffix, <- app_assoc.
Qed.

Lemma str_app_inj_r a b suf : a +:+ suf = b +:+ suf → a = b.
Proof.
  intros E. apply bytes_of_inj. apply (f_equal bytes_of) in E.
  rewrite !bytes_of_app in E. by apply app_inv_tail in E.
Qed.

Lemma filePathForKey_inj c k1 k2 :
  dir c ≠ "" → plain_key k1 → plain_key k2 →
  path_resolve (filePathForKey c k1) = path_resolve (filePathForKey c k2) → k1 = k2.
Proof.
  intros Hd H1 H2. rewrite !filePathForKey_resolve by done.
  intros [= E]. apply app_inv_head in E. injection E as _ _ E.
  by apply str_app_inj_r in E.
Qed.





(** ** JSON: strings *)

Lemma byte_val_inj a b : byte_val a = byte_val b → a = b.
Proof.
  unfold byte_val. intros E.
  rewrite <- (ascii_N_embedding a), <- (ascii_N_embedding b). by rewrite E.
Qed.

Lemma byte_val_lt c : (byte_val c < 256)%N.
Proof. apply N_ascii_bounded. Qed.

Lemma ascii_of_byte_val c : ascii_of_N (byte_val c) = c.
Proof. apply ascii_N_embedding. Qed.

Lemma utf8_len_bounds s n : utf8_len s = Some n → (1 ≤ n ≤ length s)%nat.
Proof.
  unfold utf8_len. destruct s as [|b0 t]; [done|].
  repeat (case_match; try done); intros [= <-]; simpl; lia.
Qed.

(** The length of the sequence at the head of [s] depends on its first [n]
    bytes only. *)
Lemma utf8_len_prefix s n X : utf8_len s = Some n → utf8_len (take n s ++ X) = Some n.
Proof.
  unfold utf8_len. destruct s as [|b0 t]; [done|].
  destruct (byte_val b0 <? 128)%N eqn:E0.
  { intros [= <-]. simpl. by rewrite E0. }
  destruct (in_range 194 223 b0) eqn:E1.
  { destruct t as [|b1 t]; [done|]. destruct (is_cont b1) eqn:C1; [|done].
    intros [= <-]. simpl. by rewrite E0, E1, C1. }
  destruct (in_range 224 239 b0) eqn:E2.
  { destruct t as [|b1 [|b2 t]]; try done.
    match goal with |- context [if ?b then Some 3%nat else None] => destruct b eqn:C end; [|done].
    intros [= <-]. simpl. by rewrite E0, E1, E2, C. }
  destruct (in_range 240 244 b0) eqn:E3; [|done].
  destruct t as [|b1 [|b2 [|b3 t]]]; try done.
  match goal with |- context [if ?b then Some 4%nat else None] => destruct b eqn:C end; [|done].
  intros [= <-]. simpl. by rewrite E0, E1, E2, E3, C.
Qed.

(** A byte below 128 is written so that it is read back as itself. *)
Lemma quote_step_ascii c t X :
  (byte_val c <? 128)%N = true →
  unquote_step ((quote_step c t).1 ++ X) = StepPiece [c] X
  ∧ (quote_step c t).2 = t ∧ (quote_step c t).1 ≠ [] ∧ coerce_step c t = ([c], t).
Proof.
  destruct c as [[] [] [] [] [] [] [] []]; intros Hc;
    try discriminate Hc; clear Hc; vm_compute; done.
Qed.

Lemma high_byte_plain c :
  (byte_val c <? 128)%N = false →
  bool_decide (c = c_quote) = false ∧ bool_decide (c = c_bslash) = false
  ∧ (byte_val c <? 32)%N = false.
Proof.
  intros Hc. apply N.ltb_ge in Hc. repeat split.
  - apply bool_decide_eq_false_2. intros ->. vm_compute in Hc. by apply Hc.
  - apply bool_decide_eq_false_2. intros ->. vm_compute in Hc. by apply Hc.
  - apply N.ltb_ge. lia.
Qed.

Lemma unquote_step_high c t :
  (byte_val c <? 128)%N = false →
  unquote_step (c :: t) =
  match utf8_len (c :: t) with
  | Some n => StepPiece (take n (c :: t)) (drop n (c :: t))
  | None => StepPiece utf8_replacement t
  end.
Proof.
  intros Hc. destruct (high_byte_plain c Hc) as (H1 & H2 & H3).
  unfold unquote_step. by rewrite H1, H2, H3, Hc.
Qed.

Lemma is_line_sep_spec s d :
  is_line_sep s = Some d →
  ∃ t, (s = ascii_of_N 226 :: ascii_of_N 128 :: ascii_of_N 168 :: t ∧ d = "8"%char)
       ∨ (s = ascii_of_N 226 :: ascii_of_N 128 :: ascii_of_N 169 :: t ∧ d = "9"%char).
Proof.
  unfold is_line_sep. destruct s as [|b0 [|b1 [|b2 t]]]; try done.
  destruct (byte_val b0 =? 226)%N eqn:E0; [|done].
  destruct (byte_val b1 =? 128)%N eqn:E1; [|done]. simpl.
  apply N.eqb_eq in E0, E1.
  assert (b0 = ascii_of_N 226) as -> by (by apply byte_val_inj).
  assert (b1 = ascii_of_N 128) as -> by (by apply byte_val_inj).
  destruct (byte_val b2 =? 168)%N eqn:E2.
  { apply N.eqb_eq in E2. assert (b2 = ascii_of_N 168) as -> by (by apply byte_val_inj).
    intros [= <-]. exists t. by left. }
  destruct (byte_val b2 =? 169)%N eqn:E3; [|done].
  apply N.eqb_eq in E3. assert (b2 = ascii_of_N 169) as -> by (by apply byte_val_inj).
  intros [= <-]. exists t. by right.
Qed.

(** What [quote_step] writes for the head of the input is read back by
    [unquote_step] as the coerced head. *)
Lemma quote_unquote_step c t X :
  ∃ out piece r,
    quote_step c t = (out, r) ∧ coerce_step c t = (piece, r)
    ∧ (length r ≤ length t)%nat ∧ out ≠ []
    ∧ unquote_step (out ++ X) = StepPiece piece X.
Proof.
  destruct (byte_val c <? 128)%N eqn:Hc.
  - destruct (quote_step_ascii c t X Hc) as (H1 & H2 & H3 & H4).
    destruct (quote_step c t) as [out r] eqn:E. simpl in *. subst r.
    exists out, [c], t. by repeat split.
  - unfold quote_step, coerce_step. rewrite Hc.
    destruct (utf8_len (c :: t)) as [n|] eqn:El.
    + pose proof (utf8_len_bounds _ _ El) as [Hn1 Hn2].
      destruct (is_line_sep (c :: t)) as [d|] eqn:Es.
      * apply is_line_sep_spec in Es as (t' & [[E ->]|[E ->]]);
          injection E as -> ->; vm_compute in El; injection El as <-;
          eexists _, _, _; (split; [reflexivity|]); (split; [reflexivity|]);
          (split; [rewrite length_drop; simpl length; lia|]); (split; [done|]);
          reflexivity.
      * exists (take n (c :: t)), (take n (c :: t)), (drop n (c :: t)).
        repeat split.
        -- rewrite length_drop. simpl. lia.
        -- destruct n; [lia|done].
        -- destruct n as [|n]; [lia|]. rewrite firstn_cons, <- app_comm_cons.
           rewrite unquote_step_high by done.
           rewrite app_comm_cons, <- firstn_cons.
           rewrite (utf8_len_prefix _ _ X El).
           rewrite take_app_length' by (rewrite length_take; lia).
           by rewrite drop_app_length' by (rewrite length_take; lia).
    + eexists _, _, t. split; [reflexivity|]. split; [reflexivity|].
      split; [done|]. split; [done|]. reflexivity.
Qed.

Lemma quote_unquote_loop fuel s :
  (length s ≤ fuel)%nat → ∀ F rest,
  (length (quote_loop fuel s) < F)%nat →
  unquote_loop F (quote_loop fuel s ++ c_quote :: rest) = Some (coerce_loop fuel s, rest).
Proof.
  revert s. induction fuel as [|fuel IH]; intros s Hs F rest HF.
  - destruct s; [|simpl in Hs; lia]. destruct F; [simpl in HF; lia|]. reflexivity.
  - destruct s as [|c t].
    + destruct F; [simpl in HF; lia|]. reflexivity.
    + cbn [quote_loop coerce_loop] in *.
      destruct (quote_unquote_step c t (quote_loop fuel (quote_step c t).2 ++ c_quote :: rest))
        as (out & piece & r & E1 & E2 & Hr & Hout & Hstep).
      rewrite E1, E2 in *. simpl in Hstep.
      rewrite length_app in HF.
      destruct F as [|F]; [lia|]. cbn [unquote_loop].
      rewrite <- app_assoc, Hstep.
      rewrite IH; [done| simpl in Hs; lia|].
      destruct out; [done|]. simpl in HF. lia.
Qed.

(** A string literal is read back as the coerced string. *)
Lemma parse_string_quote s rest :
  parse_string (quote_loop (length s) s ++ c_quote :: rest) = Some (coerce_utf8 s, rest).
Proof.
  unfold parse_string, coerce_utf8. apply quote_unquote_loop; [done|].
  rewrite length_app. simpl. lia.
Qed.

(** ** JSON: numbers *)

Lemma uint_digits (u : Decimal.uint) :
  Forall (fun c => is_digit c = true) (bytes_of (NilEmpty.string_of_uint u)).
Proof. induction u; simpl; constructor; done. Qed.

Lemma take_digits_app ds rest :
  Forall (fun c => is_digit c = true) ds →
  match rest with c :: _ => is_digit c = false | [] => True end →
  take_digits (ds ++ rest) = (ds, rest).
Proof.
  intros Hds Hrest. induction Hds as [|c ds Hc _ IH]; simpl.
  - destruct rest as [|c r]; [done|]. simpl. by rewrite Hrest.
  - by rewrite Hc, IH.
Qed.

Lemma nzhead_head d : Decimal.nzhead d = Decimal.Nil ∨ nonzero_head (Decimal.nzhead d).
Proof. induction d; simpl; auto. Qed.

Lemma to_uint_head (n : N) :
  N.to_uint n = Decimal.D0 Decimal.Nil ∨ nonzero_head (N.to_uint n).
Proof.
  rewrite <- (DecimalN.Unsigned.of_to n) at 1 2.
  rewrite DecimalN.Unsigned.to_of. unfold Decimal.unorm.
  destruct (nzhead_head (N.to_uint n)) as [->|H]; [by left|].
  right. by destruct (Decimal.nzhead (N.to_uint n)).
Qed.

Lemma FormatInt_shape (z : Z) :
  strconv_FormatInt z =
  (if bool_decide (z < 0)%Z then "-" else "")
    +:+ NilEmpty.string_of_uint (N.to_uint (Z.abs_N z)).
Proof.
  unfold strconv_FormatInt. destruct z as [|p|p]; simpl; try done.
  - pose proof (DecimalPos.Unsigned.to_uint_nonnil p). by destruct (Pos.to_uint p).
  - pose proof (DecimalPos.Unsigned.to_uint_nonnil p). by destruct (Pos.to_uint p).
Qed.

Lemma scan_frac_none r : ends_number r → scan_frac r = Some ([], r).
Proof.
  destruct r as [|p t]; [done|]. intros (_ & Hp & _).
  unfold scan_frac. by rewrite bool_decide_eq_false_2.
Qed.

Lemma scan_exp_none r : ends_number r → scan_exp r = Some ([], r).
Proof.
  destruct r as [|e t]; [done|]. intros (_ & _ & H1 & H2).
  unfold scan_exp. rewrite bool_decide_eq_false_2; [done|]. intros [?|?]; done.
Qed.

Lemma scan_int_uint (n : N) rest :
  ends_number rest →
  scan_int (bytes_of (NilEmpty.string_of_uint (N.to_uint n)) ++ rest)
  = Some (bytes_of (NilEmpty.string_of_uint (N.to_uint n)), rest)
  ∧ ∃ c t, bytes_of (NilEmpty.string_of_uint (N.to_uint n)) = c :: t ∧ is_digit c = true.
Proof.
  intros Hrest.
  assert (match rest with c :: _ => is_digit c = false | [] => True end) as Hd.
  { destruct rest; [done|]. apply Hrest. }
  destruct (to_uint_head n) as [E|Hnz].
  - rewrite E. split; [done|]. by eexists _, _.
  - pose proof (uint_digits (N.to_uint n)) as Hall.
    destruct (N.to_uint n) as [|u|u|u|u|u|u|u|u|u|u]; try done;
      simpl bytes_of in *; apply Forall_cons in Hall as [_ Hall];
      (split; [|by eexists _, _]);
      unfold scan_int; cbn [app]; rewrite (take_digits_app _ _ Hall Hd); done.
Qed.

(** The text of an integer is scanned as one number. *)
Lemma scan_number_FormatInt (z : Z) rest :
  ends_number rest →
  scan_number (bytes_of (strconv_FormatInt z) ++ rest)
  = Some (bytes_of (strconv_FormatInt z), rest).
Proof.
  intros Hrest. rewrite FormatInt_shape, bytes_of_app.
  destruct (scan_int_uint (Z.abs_N z) rest Hrest) as (Hint & c & t & Ect & Hc).
  unfold scan_number. case_bool_decide.
  - cbn [bytes_of list_ascii_of_string app scan_sign].
    rewrite bool_decide_eq_true_2 by done.
    rewrite Hint, scan_frac_none, scan_exp_none by done. by rewrite !app_nil_r.
  - cbn [bytes_of list_ascii_of_string app]. rewrite Ect in *.
    cbn [app scan_sign]. rewrite bool_decide_eq_false_2.
    + rewrite <- app_comm_cons in Hint. rewrite Hint, scan_frac_none, scan_exp_none by done.
      by rewrite !app_nil_r.
    + intros ->. done.
Qed.

(** The text of an integer starts with a minus or a digit. *)
Lemma FormatInt_head (z : Z) :
  ∃ c t, bytes_of (strconv_FormatInt z) = c :: t ∧ (c = "-"%char ∨ is_digit c = true).
Proof.
  rewrite FormatInt_shape, bytes_of_app.
  destruct (scan_int_uint (Z.abs_N z) [] I) as (_ & c & t & Ect & Hc).
  case_bool_decide.
  - eexists _, _. split; [reflexivity|]. by left.
  - exists c, t. split; [by rewrite Ect|]. by right.
Qed.

Lemma ParseInt_FormatInt (z : Z) :
  (- 2 ^ 63 ≤ z < 2 ^ 63)%Z → strconv_ParseInt (strconv_FormatInt z) = Some z.
Proof.
  intros Hz. rewrite FormatInt_shape.
  destruct (scan_int_uint (Z.abs_N z) [] I) as (_ & c & t & Ect & Hc).
  assert (digits_value (NilEmpty.string_of_uint (N.to_uint (Z.abs_N z))) = Some (Z.abs_N z)) as Hdv.
  { unfold digits_value. rewrite NilEmpty.usu. simpl.
    rewrite DecimalN.Unsigned.of_to.
    rewrite (proj2 (str_eqb_false _ _)); [done|].
    intros E. rewrite E in Ect. done. }
  unfold strconv_ParseInt. case_bool_decide as Hneg.
  - change ("-" +:+ ?x) with (String "-" x). cbn match.
    rewrite bool_decide_eq_true_2 by done. rewrite Hdv.
    rewrite bool_decide_eq_true_2 by lia. f_equal. lia.
  - change ("" +:+ ?x) with x.
    destruct (NilEmpty.string_of_uint (N.to_uint (Z.abs_N z))) as [|c0 s0] eqn:ES; [done|].
    simpl in Ect. injection Ect as -> _.
    rewrite bool_decide_eq_false_2 by (intros ->; done).
    rewrite bool_decide_eq_false_2 by (intros ->; done).
    rewrite Hdv. rewrite bool_decide_eq_true_2 by lia. f_equal. lia.
Qed.

(** ** JSON: base64 *)

Lemma b64_index_char (i : N) :
  (i < 64)%N →
  b64_index (b64_char i) = Some i
  ∧ (byte_val (b64_char i) <? 128)%N = true
  ∧ b64_char i ≠ ascii_of_N 10 ∧ b64_char i ≠ ascii_of_N 13.
Proof.
  intros Hi. rewrite <- (N2Nat.id i). assert (N.to_nat i < 64)%nat as Hn by lia.
  generalize dependent (N.to_nat i). clear. intros n Hn.
  do 64 (destruct n as [|n]; [vm_compute; done|]). lia.
Qed.

Lemma b64_arith (A B C : N) :
  (A < 256)%N → (B < 256)%N → (C < 256)%N →
  let v := (A * 65536 + B * 256 + C)%N in
  (v / 262144 < 64)%N ∧ ((v / 4096) mod 64 < 64)%N
  ∧ ((v / 64) mod 64 < 64)%N ∧ (v mod 64 < 64)%N
  ∧ (v / 262144 * 262144 + (v / 4096) mod 64 * 4096 + (v / 64) mod 64 * 64 + v mod 64 = v)%N
  ∧ (v / 65536 = A)%N ∧ ((v / 256) mod 256 = B)%N ∧ (v mod 256 = C)%N.
Proof.
  intros HA HB HC v. subst v.
  repeat split; zify; Z.to_euclidean_division_equations; lia.
Qed.

Lemma b64_arith1 (A : N) :
  (A < 256)%N →
  let v := (A * 65536)%N in
  (v / 262144 < 64)%N ∧ ((v / 4096) mod 64 < 64)%N
  ∧ ((v / 262144 * 262144 + (v / 4096) mod 64 * 4096) / 65536 = A)%N.
Proof.
  intros HA v. subst v.
  repeat split; zify; Z.to_euclidean_division_equations; lia.
Qed.

Lemma b64_arith2 (A B : N) :
  (A < 256)%N → (B < 256)%N →
  let v := (A * 65536 + B * 256)%N in
  let w := (v / 262144 * 262144 + (v / 4096) mod 64 * 4096 + (v / 64) mod 64 * 64)%N in
  (v / 262144 < 64)%N ∧ ((v / 4096) mod 64 < 64)%N ∧ ((v / 64) mod 64 < 64)%N
  ∧ (w / 65536 = A)%N ∧ ((w / 256) mod 256 = B)%N.
Proof.
  intros HA HB v w. subst v w.
  repeat split; zify; Z.to_euclidean_division_equations; lia.
Qed.

Lemma b64_index_pad : b64_index "="%char = None.
Proof. reflexivity. Qed.

Lemma b64_quanta_encode (s : list ascii) : b64_quanta (base64_encode s) = Some s.
Proof.
  assert (∀ n s, (length s ≤ n)%nat → b64_quanta (base64_encode s) = Some s) as Hgen;
    [|by apply (Hgen (length s))].
  clear s. induction n as [|n IH]; intros s Hs.
  { destruct s; [done|simpl in Hs; lia]. }
  destruct s as [|a [|b [|c rest]]].
  - done.
  - destruct (b64_arith1 (byte_val a) (byte_val_lt a)) as (H1 & H2 & H3).
    cbn [base64_encode b64_quanta].
    rewrite (proj1 (b64_index_char _ H1)), (proj1 (b64_index_char _ H2)).
    rewrite b64_index_pad. simpl. by rewrite H3, ascii_of_byte_val.
  - destruct (b64_arith2 (byte_val a) (byte_val b) (byte_val_lt a) (byte_val_lt b))
      as (H1 & H2 & H3 & H4 & H5).
    cbn [base64_encode b64_quanta].
    rewrite (proj1 (b64_index_char _ H1)), (proj1 (b64_index_char _ H2)),
      (proj1 (b64_index_char _ H3)).
    rewrite b64_index_pad. simpl. by rewrite H4, H5, !ascii_of_byte_val.
  - destruct (b64_arith (byte_val a) (byte_val b) (byte_val c)
                (byte_val_lt a) (byte_val_lt b) (byte_val_lt c))
      as (H1 & H2 & H3 & H4 & H5 & H6 & H7 & H8).
    cbn [base64_encode app b64_quanta].
    rewrite (proj1 (b64_index_char _ H1)), (proj1 (b64_index_char _ H2)),
      (proj1 (b64_index_char _ H3)), (proj1 (b64_index_char _ H4)).
    rewrite IH by (simpl in Hs; lia).
    by rewrite H5, H6, H7, H8, !ascii_of_byte_val.
Qed.

Lemma base64_encode_chars (s : list ascii) :
  Forall (fun c => (byte_val c <? 128)%N = true ∧ c ≠ ascii_of_N 10 ∧ c ≠ ascii_of_N 13)
         (base64_encode s).
Proof.
  assert (∀ n s, (length s ≤ n)%nat →
            Forall (fun c => (byte_val c <? 128)%N = true ∧ c ≠ ascii_of_N 10 ∧ c ≠ ascii_of_N 13)
                   (base64_encode s)) as Hgen; [|by apply (Hgen (length s))].
  clear s. induction n as [|n IH]; intros s Hs.
  { destruct s; [constructor|simpl in Hs; lia]. }
  assert (∀ i, (i < 64)%N →
            (byte_val (b64_char i) <? 128)%N = true
            ∧ b64_char i ≠ ascii_of_N 10 ∧ b64_char i ≠ ascii_of_N 13) as Hch.
  { intros i Hi. by destruct (b64_index_char i Hi) as (_ & ? & ? & ?). }
  destruct s as [|a [|b [|c rest]]].
  - constructor.
  - destruct (b64_arith1 (byte_val a) (byte_val_lt a)) as (H1 & H2 & H3).
    cbn [base64_encode]. repeat constructor; try apply Hch; done.
  - destruct (b64_arith2 (byte_val a) (byte_val b) (byte_val_lt a) (byte_val_lt b))
      as (H1 & H2 & H3 & H4 & H5).
    cbn [base64_encode]. repeat constructor; try apply Hch; done.
  - destruct (b64_arith (byte_val a) (byte_val b) (byte_val c)
                (byte_val_lt a) (byte_val_lt b) (byte_val_lt c))
      as (H1 & H2 & H3 & H4 & H5 & H6 & H7 & H8).
    cbn [base64_encode app]. repeat apply Forall_cons_2; try (apply Hch; done).
    apply IH. simpl in Hs. lia.
Qed.

Lemma filter_all {A} (P : A → Prop) `{∀ x, Decision (P x)} (l : list A) :
  Forall P l → filter P l = l.
Proof.
  induction 1 as [|x l Hx _ IH]; [done|]. by rewrite filter_cons_True, IH.
Qed.

(** Decoding the base64 text of a byte string gives the byte string. *)
Lemma base64_decode_encode (s : list ascii) : base64_decode (base64_encode s) = Some s.
Proof.
  unfold base64_decode.
  rewrite filter_all; [apply b64_quanta_encode|].
  eapply Forall_impl; [apply base64_encode_chars|]. by intros c (_ & ? & ?).
Qed.

(** Text of bytes below 128 is well-formed UTF-8. *)
Lemma coerce_utf8_ascii (l : list ascii) :
  Forall (fun c => (byte_val c <? 128)%N = true) l → coerce_utf8 l = l.
Proof.
  unfold coerce_utf8. induction 1 as [|c l Hc _ IH]; [done|].
  cbn [length coerce_loop]. unfold coerce_step. rewrite Hc. simpl. by rewrite IH.
Qed.

Lemma coerce_utf8_base64 (s : list ascii) :
  coerce_utf8 (base64_encode s) = base64_encode s.
Proof.
  apply coerce_utf8_ascii. eapply Forall_impl; [apply base64_encode_chars|].
  by intros c (? & _).
Qed.

(** ** JSON: values *)

Lemma json_nested_ind (P : json → Prop) :
  P JNull → (∀ b, P (JBool b)) → (∀ lit, P (JNumber lit)) → (∀ s, P (JString s)) →
  (∀ l, Forall P l → P (JArray l)) →
  (∀ m, Forall (fun kv : list ascii * json => P kv.2) m → P (JObject m)) →
  ∀ v, P v.
Proof.
  intros H1 H2 H3 H4 H5 H6. fix IH 1. intros [|b|lit|s|l|m].
  - exact H1.
  - apply H2.
  - apply H3.
  - apply H4.
  - apply H5.
    exact ((fix go (l : list json) : Forall P l :=
              match l with
              | [] => Forall_nil_2 P
              | x :: r => Forall_cons_2 P x r (IH x) (go r)
              end) l).
  - apply H6.
    exact ((fix go (m : list (list ascii * json))
              : Forall (fun kv : list ascii * json => P kv.2) m :=
              match m with
              | [] => Forall_nil_2 _
              | kv :: r => Forall_cons_2 _ kv r (IH kv.2) (go r)
              end) m).
Qed.

Lemma json_render_array l :
  json_render (JArray l) = "["%char :: render_elems l ++ ["]"%char].
Proof. reflexivity. Qed.

Lemma json_render_object m :
  json_render (JObject m) = "{"%char :: render_members m ++ ["}"%char].
Proof. reflexivity. Qed.

Lemma render_elems_cons x y r :
  render_elems (x :: y :: r) = json_render x ++ ","%char :: render_elems (y :: r).
Proof. reflexivity. Qed.

Lemma render_members_cons k x kv r :
  render_members ((k, x) :: kv :: r)
  = json_quote k ++ ":"%char :: json_render x ++ ","%char :: render_members (kv :: r).
Proof. reflexivity. Qed.

Lemma json_ints_array l : json_ints (JArray l) ↔ Forall json_ints l.
Proof.
  induction l as [|x l IH]; simpl.
  - split; [constructor|done].
  - rewrite Forall_cons. simpl in IH. by rewrite <- IH.
Qed.

Lemma json_ints_object m :
  json_ints (JObject m) ↔ Forall (fun kv : list ascii * json => json_ints kv.2) m.
Proof.
  induction m as [|x m IH]; simpl.
  - split; [constructor|done].
  - rewrite Forall_cons. simpl in IH. by rewrite <- IH.
Qed.

Lemma number_head_dispatch c :
  c = "-"%char ∨ is_digit c = true →
  is_ws c = false ∧ c ≠ "{"%char ∧ c ≠ "["%char ∧ c ≠ c_quote
  ∧ c ≠ "t"%char ∧ c ≠ "f"%char ∧ c ≠ "n"%char ∧ c ≠ "]"%char ∧ c ≠ "}"%char.
Proof.
  destruct c as [[] [] [] [] [] [] [] []]; intros [H|H];
    try discriminate H; repeat split; done.
Qed.

(** The text of a value starts with a byte that is neither white space nor a
    closing bracket. *)
Lemma json_render_head v :
  json_ints v →
  ∃ c t, json_render v = c :: t ∧ is_ws c = false ∧ c ≠ "]"%char ∧ c ≠ "}"%char.
Proof.
  destruct v as [|[]|lit|s|l|m]; intros Hi;
    try (eexists _, _; split; [reflexivity|]; repeat split; done).
  destruct Hi as [z ->]. destruct (FormatInt_head z) as (c & t & E & Hc).
  exists c, t. split; [done|].
  by destruct (number_head_dispatch c Hc) as (? & _ & _ & _ & _ & _ & _ & ? & ?).
Qed.

Lemma ends_number_sep c rest :
  c = ","%char ∨ c = "]"%char ∨ c = "}"%char → ends_number (c :: rest).
Proof. intros [-> | [-> | ->]]; repeat split; done. Qed.

Lemma parse_elems_render (l : list json) :
  Forall (fun x => json_ints x ∧ parse_ok x) l → l ≠ [] →
  ∀ fuel rest, (list_sum (map (fun x => S (json_size x)) l) ≤ fuel)%nat →
  parse_elems fuel (render_elems l ++ "]"%char :: rest) = Some (map json_coerce l, rest).
Proof.
  induction 1 as [|x l [Hi Hx] Hl IH]; [done|]. intros _ fuel rest Hf.
  destruct fuel as [|fuel]; [simpl in Hf; lia|].
  simpl in Hf. cbn [parse_elems].
  destruct l as [|y r].
  - change (render_elems [x]) with (json_render x).
    rewrite Hx; [|lia|intros _; apply ends_number_sep; auto].
    cbn [skip_ws is_ws]. simpl. done.
  - rewrite render_elems_cons, <- app_assoc, <- app_comm_cons.
    rewrite Hx; [|lia|intros _; apply ends_number_sep; auto].
    cbn [skip_ws]. change (is_ws ","%char) with false. cbn match.
    rewrite bool_decide_eq_true_2 by done.
    rewrite IH; [done|done|]. simpl in *. lia.
Qed.

Lemma parse_members_render (m : list (list ascii * json)) :
  Forall (fun kv : list ascii * json => json_ints kv.2 ∧ parse_ok kv.2) m → m ≠ [] →
  ∀ fuel rest,
  (list_sum (map (fun kv : list ascii * json => S (json_size kv.2)) m) ≤ fuel)%nat →
  parse_members fuel (render_members m ++ "}"%char :: rest)
  = Some (map (fun kv : list ascii * json => (coerce_utf8 kv.1, json_coerce kv.2)) m, rest).
Proof.
  induction 1 as [|[k x] m [Hi Hx] Hm IH]; [done|]. intros _ fuel rest Hf.
  destruct fuel as [|fuel]; [simpl in Hf; lia|].
  simpl in Hf. cbn [parse_members]. simpl in Hi, Hx.
  assert (∀ X, skip_ws (json_quote k ++ X) = json_quote k ++ X) as Hsk by done.
  destruct m as [|kv r].
  - change (render_members [(k, x)]) with (json_quote k ++ ":"%char :: json_render x).
    rewrite <- app_assoc, Hsk. unfold json_quote at 1. cbn [app].
    rewrite bool_decide_eq_true_2 by done.
    rewrite <- app_assoc. cbn [app]. rewrite parse_string_quote.
    cbn [skip_ws]. change (is_ws ":"%char) with false. cbn match.
    rewrite bool_decide_eq_true_2 by done.
    rewrite Hx; [|lia|intros _; apply ends_number_sep; auto].
    simpl. done.
  - rewrite render_members_cons, <- app_assoc, Hsk. unfold json_quote at 1. cbn [app].
    rewrite bool_decide_eq_true_2 by done.
    rewrite <- !app_assoc. cbn [app]. rewrite parse_string_quote.
    cbn [skip_ws]. change (is_ws ":"%char) with false. cbn match.
    rewrite bool_decide_eq_true_2 by done.
    rewrite Hx; [|lia|intros _; apply ends_number_sep; auto].
    cbn [skip_ws]. change (is_ws ","%char) with false. cbn match.
    rewrite bool_decide_eq_true_2 by done.
    rewrite IH; [done|done|]. simpl in *. lia.
Qed.

Lemma expect_word (word : string) (v : json) rest :
  expect word v (bytes_of word ++ rest) = Some (v, rest).
Proof.
  unfold expect. rewrite <- bytes_of_length.
  rewrite take_app_length, drop_app_length. by rewrite bool_decide_eq_true_2.
Qed.

(** Reading what [json_render] writes gives the value back, coerced. *)
Lemma parse_value_render (v : json) : json_ints v → parse_ok v.
Proof.
  induction v as [|b|lit|s|l IH|m IH] using json_nested_ind;
    intros Hi fuel rest Hf Hrest; (destruct fuel as [|fuel]; [simpl in Hf; lia|]).
  - apply (expect_word "null" JNull rest).
  - destruct b; [apply (expect_word "true")|apply (expect_word "false")].
  - destruct Hi as [z ->]. destruct (FormatInt_head z) as (c & t & E & Hc).
    destruct (number_head_dispatch c Hc) as (W & N1 & N2 & N3 & N4 & N5 & N6 & _).
    pose proof (scan_number_FormatInt z rest (Hrest I)) as Hscan.
    cbn [json_render json_coerce]. rewrite E in *. cbn [parse_value app skip_ws].
    rewrite W. rewrite !bool_decide_eq_false_2 by done.
    rewrite <- app_comm_cons in Hscan. by rewrite Hscan.
  - cbn [json_render json_coerce]. unfold json_quote. cbn [parse_value app skip_ws].
    change (is_ws c_quote) with false. cbn match.
    rewrite !bool_decide_eq_false_2 by done. rewrite bool_decide_eq_true_2 by done.
    rewrite <- app_assoc. cbn [app]. by rewrite parse_string_quote.
  - apply json_ints_array in Hi.
    rewrite json_render_array. cbn [json_coerce parse_value app skip_ws].
    change (is_ws "["%char) with false. cbn match.
    rewrite bool_decide_eq_false_2 by done. rewrite bool_decide_eq_true_2 by done.
    rewrite <- app_assoc. cbn [app].
    destruct l as [|x r]; [done|].
    assert (Forall (fun x => json_ints x ∧ parse_ok x) (x :: r)) as Hall.
    { apply Forall_forall. intros y Hy. split.
      - by apply (proj1 (Forall_forall _ _) Hi).
      - apply (proj1 (Forall_forall _ _) IH); [done|].
        by apply (proj1 (Forall_forall _ _) Hi). }
    destruct (json_render_head x) as (c & t & E & W & N1 & N2).
    { by apply Forall_cons in Hi as [? _]. }
    assert (∃ t', render_elems (x :: r) ++ "]"%char :: rest = c :: t') as [t' Et].
    { destruct r as [|y r].
      - change (render_elems [x]) with (json_render x). rewrite E. by eexists.
      - rewrite render_elems_cons, E. by eexists. }
    rewrite Et. cbn [skip_ws]. rewrite W. rewrite bool_decide_eq_false_2 by done.
    rewrite <- Et. rewrite (parse_elems_render _ Hall); [done|done|].
    simpl in Hf. simpl. lia.
  - apply json_ints_object in Hi.
    rewrite json_render_object. cbn [json_coerce parse_value app skip_ws].
    change (is_ws "{"%char) with false. cbn match.
    rewrite bool_decide_eq_true_2 by done.
    rewrite <- app_assoc. cbn [app].
    destruct m as [|[k x] r]; [done|].
    assert (Forall (fun kv : list ascii * json => json_ints kv.2 ∧ parse_ok kv.2)
                   ((k, x) :: r)) as Hall.
    { apply Forall_forall. intros y Hy. split.
      - by apply (proj1 (Forall_forall _ _) Hi).
      - apply (proj1 (Forall_forall _ _) IH); [done|].
        by apply (proj1 (Forall_forall _ _) Hi). }
    assert (∃ t', render_members ((k, x) :: r) ++ "}"%char :: rest = c_quote :: t')
      as [t' Et].
    { destruct r as [|y r].
      - change (render_members [(k, x)]) with (json_quote k ++ ":"%char :: json_render x).
        unfold json_quote. by eexists.
      - rewrite render_members_cons. unfold json_quote. by eexists. }
    rewrite Et. cbn [skip_ws]. change (is_ws c_quote) with false. cbn match.
    rewrite bool_decide_eq_false_2 by done.
    rewrite <- Et. rewrite (parse_members_render _ Hall); [done|done|].
    simpl in Hf. simpl. lia.
Qed.

Lemma list_sum_map_cons {A} (f : A → nat) x l :
  list_sum (map f (x :: l)) = (f x + list_sum (map f l))%nat.
Proof. reflexivity. Qed.

Lemma json_size_le (v : json) : json_ints v → (json_size v ≤ length (json_render v))%nat.
Proof.
  induction v as [|b|lit|s|l IH|m IH] using json_nested_ind; intros Hi.
  - simpl. lia.
  - destruct b; simpl; lia.
  - destruct Hi as [z ->]. destruct (FormatInt_head z) as (c & t & E & _).
    simpl. rewrite E. simpl. lia.
  - simpl. lia.
  - apply json_ints_array in Hi. rewrite json_render_array.
    cbn [json_size length]. rewrite length_app. cbn [length].
    enough (list_sum (map (fun x => S (json_size x)) l) ≤ S (length (render_elems l)))%nat by lia.
    induction l as [|x r IHr]; [simpl; lia|].
    apply Forall_cons in IH as [IHx IHl]. apply Forall_cons in Hi as [Hx Hr].
    specialize (IHx Hx). specialize (IHr IHl Hr).
    destruct r as [|y r].
    + change (render_elems [x]) with (json_render x). simpl. lia.
    + rewrite render_elems_cons, length_app. cbn [length].
      rewrite list_sum_map_cons. lia.
  - apply json_ints_object in Hi. rewrite json_render_object.
    cbn [json_size length]. rewrite length_app. cbn [length].
    enough (list_sum (map (fun kv : list ascii * json => S (json_size kv.2)) m)
            ≤ S (length (render_members m)))%nat by lia.
    induction m as [|[k x] r IHr]; [simpl; lia|].
    apply Forall_cons in IH as [IHx IHl]. apply Forall_cons in Hi as [Hx Hr].
    specialize (IHx Hx). specialize (IHr IHl Hr). simpl in IHx.
    destruct r as [|y r].
    + change (render_members [(k, x)]) with (json_quote k ++ ":"%char :: json_render x).
      rewrite length_app. simpl. lia.
    + rewrite render_members_cons, !length_app. cbn [length]. rewrite length_app.
      cbn [length]. rewrite list_sum_map_cons. cbn [snd]. lia.
Qed.

(** The reading of the text of a value. *)
Lemma json_parse_render (v : json) :
  json_ints v → json_parse (json_render v) = Some (json_coerce v).
Proof.
  intros Hi. unfold json_parse.
  rewrite <- (app_nil_r (json_render v)) at 2.
  rewrite (parse_value_render v Hi); [done| |done].
  pose proof (json_size_le v Hi). lia.
Qed.

(** ** JSON: entries *)

Lemma json_ints_header (h : Header) : json_ints (json_of_header h).
Proof.
  unfold json_of_header. apply json_ints_object.
  apply Forall_forall. intros kv [[k vs] [-> _]]%list_elem_of_fmap.
  simpl. apply json_ints_array. apply Forall_forall.
  by intros x [v [-> _]]%list_elem_of_fmap.
Qed.

Lemma json_ints_entry (e : Entry) : json_ints (json_of_entry e).
Proof.
  unfold json_of_entry. apply json_ints_object.
  repeat apply Forall_cons_2; simpl; try done.
  - by exists (Status e).
  - apply json_ints_header.
Qed.

Lemma decode_strings_coerced (vs : list string) :
  decode_strings (json_coerce (JArray ((fun v => JString (bytes_of v)) <$> vs)))
  = Ok (coerce_str <$> vs).
Proof.
  cbn [json_coerce decode_strings].
  induction vs as [|v vs IH]; [done|].
  cbn [fmap list_fmap map decode_list decode_string json_coerce] in *.
  by rewrite IH.
Qed.

Lemma decode_header_coerced (l : list (string * list string)) (h0 : Header) :
  decode_header_members h0
    (map (fun kv : list ascii * json => (coerce_utf8 kv.1, json_coerce kv.2))
         ((fun kvv : string * list string =>
             (bytes_of kvv.1, JArray ((fun v => JString (bytes_of v)) <$> kvv.2))) <$> l))
  = Ok (foldl (fun m (kvv : string * list string) =>
                 <[coerce_str kvv.1 := coerce_str <$> kvv.2]> m) h0 l).
Proof.
  revert h0. induction l as [|[k vs] l IH]; intros h0; [done|].
  cbn [fmap list_fmap map decode_header_members fst snd foldl].
  rewrite decode_strings_coerced. apply IH.
Qed.

(** Reading the text of an entry gives the entry with its header coerced. *)
Lemma json_Unmarshal_Marshal (e : Entry) :
  (- 2 ^ 63 ≤ Status e < 2 ^ 63)%Z →
  json_Unmarshal (json_Marshal e) = Ok (coerce_entry e).
Proof.
  intros Hz. unfold json_Unmarshal, json_Marshal.
  rewrite bytes_of_str_of, (json_parse_render _ (json_ints_entry e)).
  unfold json_of_entry. cbn [json_coerce map fst snd].
  cbn [decode_members].
  assert (decode_member zero_Entry
            (coerce_utf8 (bytes_of "Status"), JNumber (bytes_of (strconv_FormatInt (Status e))))
          = Ok (with_Status zero_Entry (Status e))) as ->.
  { unfold decode_member.
    change (field_is (coerce_utf8 (bytes_of "Status")) "Status") with true. cbn match.
    by rewrite str_of_bytes_of, ParseInt_FormatInt. }
  assert (∀ e1, decode_member e1
            (coerce_utf8 (bytes_of "Header"), json_coerce (json_of_header (EHeader e)))
          = Ok (with_Header e1 (foldl (fun m (kvv : string * list string) =>
                   <[coerce_str kvv.1 := coerce_str <$> kvv.2]> m)
                   (EHeader e1) (sorted_entries (EHeader e))))) as ->.
  { intros e1. unfold decode_member.
    change (field_is (coerce_utf8 (bytes_of "Header")) "Status") with false.
    change (field_is (coerce_utf8 (bytes_of "Header")) "Header") with true. cbn match.
    unfold json_of_header. cbn [json_coerce]. by rewrite decode_header_coerced. }
  assert (∀ e1, decode_member e1
            (coerce_utf8 (bytes_of "Body"),
             JString (coerce_utf8 (base64_encode (bytes_of (Body e)))))
          = Ok (with_Body e1 (Body e))) as ->.
  { intros e1. unfold decode_member.
    change (field_is (coerce_utf8 (bytes_of "Body")) "Status") with false.
    change (field_is (coerce_utf8 (bytes_of "Body")) "Header") with false.
    change (field_is (coerce_utf8 (bytes_of "Body")) "Body") with true. cbn match.
    by rewrite coerce_utf8_base64, base64_decode_encode, str_of_bytes_of. }
  done.
Qed.

Lemma foldl_insert_foldr (l : list (string * list string)) (m0 : Header) :
  foldl (fun m (kv : string * list string) => <[kv.1 := kv.2]> m) m0 l
  = foldr (fun kv m => <[kv.1 := kv.2]> m) m0 (rev l).
Proof.
  revert m0. induction l as [|kv l IH]; intros m0; [done|].
  simpl. by rewrite IH, foldr_app.
Qed.

Lemma sorted_entries_perm (h : Header) : sorted_entries h ≡ₚ map_to_list h.
Proof. apply merge_sort_Permutation. Qed.

Lemma coerce_values_valid (vs : list string) :
  Forall utf8_valid vs → coerce_str <$> vs = vs.
Proof.
  induction 1 as [|v vs Hv _ IH]; [reflexivity|].
  rewrite fmap_cons, IH. f_equal. exact Hv.
Qed.

(** A header of well-formed text is not changed by the coercion. *)
Lemma coerce_header_valid (h : Header) : header_utf8_valid h → coerce_header h = h.
Proof.
  intros Hv. unfold coerce_header.
  assert (∀ l (m0 : Header), Forall (fun kv : string * list string =>
                            utf8_valid kv.1 ∧ Forall utf8_valid kv.2) l →
            foldl (fun m (kvv : string * list string) =>
                     <[coerce_str kvv.1 := coerce_str <$> kvv.2]> m) m0 l
            = foldl (fun m (kv : string * list string) => <[kv.1 := kv.2]> m) m0 l) as Hsame.
  { induction l as [|[k vs] l IH]; intros m0 Hall; [done|].
    apply Forall_cons in Hall as [[Hk Hvs] Hall]. cbn [foldl fst snd].
    rewrite Hk, (coerce_values_valid vs Hvs). by apply IH. }
  rewrite Hsame.
  - rewrite foldl_insert_foldr.
    change (foldr (fun kv m => <[kv.1 := kv.2]> m) ∅ (rev (sorted_entries h)))
      with (list_to_map (M := Header) (rev (sorted_entries h))).
    rewrite <- (list_to_map_to_list h) at 2.
    apply list_to_map_proper.
    + apply (NoDup_Permutation_proper _ _ ((fmap_Permutation fst _ _)
               (Permutation_trans (Permutation_sym (Permutation_rev _))
                                  (sorted_entries_perm h)))).
      apply NoDup_fst_map_to_list.
    + exact (Permutation_trans (Permutation_sym (Permutation_rev _))
                               (sorted_entries_perm h)).
  - apply Forall_forall. intros [k vs] Hin.
    apply (elem_of_Permutation_proper _ _ _ (sorted_entries_perm h)) in Hin.
    apply elem_of_map_to_list in Hin. by apply Hv.
Qed.

Lemma coerce_entry_valid (e : Entry) :
  header_utf8_valid (EHeader e) → coerce_entry e = e.
Proof.
  intros Hv. unfold coerce_entry. rewrite coerce_header_valid by done. by destruct e.
Qed.

(** ** Get and Set *)

(** What a call of [Set] with an entry does to the store, when the temporary
    file can be written. *)
Lemma Set_spec (c : DiskCache) (key : string) (e : Entry) :
  files c !! path_resolve (filePathForKey c key +:+ ".tmp") ≠ Some NoPerm →
  Set_ c key (Some e) =
  (mkDiskCache (dir c)
     (<[path_resolve (filePathForKey c key) := File (json_Marshal e)]>
        (delete (path_resolve (filePathForKey c key +:+ ".tmp")) (files c)))
     (locks c ∪ {[key]}), None).
Proof.
  intros Htmp. unfold Set_, lockFor, with_files. cbn [files dir locks].
  change (filePathForKey (mkDiskCache (dir c) (files c) (locks c ∪ {[key]})) key)
    with (filePathForKey c key).
  unfold os_WriteFile.
  destruct (files c !! path_resolve (filePathForKey c key +:+ ".tmp")) as [[d|]|] eqn:E;
    try done; unfold os_Rename; rewrite lookup_insert_eq; by rewrite delete_insert_eq.
Qed.

Lemma Get_file (c : DiskCache) (key data : string) :
  files c !! path_resolve (filePathForKey c key) = Some (File data) →
  Get c key = match json_Unmarshal data with
              | Ok e => (Some e, true, None)
              | Fail err => (None, false, Some err)
              end.
Proof. intros E. unfold Get, os_ReadFile. by rewrite E. Qed.

(** C2 (amended).  Storing an entry under a key and then getting the key
    returns an entry with the same status code and body, and with the header
    that [json.Marshal] writes: the same header when its names and values are
    well-formed UTF-8; otherwise every byte that is not part of a well-formed
    sequence is replaced by U+FFFD.  The status code is a Go [int]; the store
    succeeds when the temporary file can be written. *)
Theorem Set_then_Get (c : DiskCache) (key : string) (e : Entry) :
  (- 2 ^ 63 ≤ Status e < 2 ^ 63)%Z →
  files c !! path_resolve (filePathForKey c key +:+ ".tmp") ≠ Some NoPerm →
  ∃ c', Set_ c key (Some e) = (c', None)
    ∧ Get c' key = (Some (coerce_entry e), true, None)
    ∧ Status (coerce_entry e) = Status e
    ∧ Body (coerce_entry e) = Body e
    ∧ EHeader (coerce_entry e) = coerce_header (EHeader e)
    ∧ (header_utf8_valid (EHeader e) → coerce_entry e = e).
Proof.
  intros Hz Htmp. eexists. split; [by apply Set_spec|].
  split; [|split; [done|split; [done|split; [done|apply coerce_entry_valid]]]].
  rewrite (Get_file _ _ (json_Marshal e)).
  - by rewrite json_Unmarshal_Marshal.
  - cbn [files]. apply lookup_insert_eq.
Qed.

Lemma Set_then_Get_witness :
  let c := mkDiskCache "/var/cache" ∅ ∅ in
  let e := mkEntry 200 (<["Content-Type" := ["text/plain"]]> ∅) "hello" in
  ∃ c', Set_ c "0a1b2c" (Some e) = (c', None)
    ∧ Get c' "0a1b2c" = (Some (coerce_entry e), true, None)
    ∧ coerce_entry e = e.
Proof.
  intros c e.
  destruct (Set_then_Get c "0a1b2c" e) as (c' & H1 & H2 & _ & _ & _ & H3).
  - simpl. lia.
  - vm_compute. discriminate.
  - exists c'. split; [exact H1|]. split; [exact H2|].
    vm_compute. reflexivity.
Defined.

(** C2 as stated fails: a header value that is not well-formed UTF-8 comes
    back changed. *)
Lemma Set_then_Get_counterexample :
  let c := mkDiskCache "/var/cache" ∅ ∅ in
  let e := mkEntry 200 (<["X-Name" := [String (ascii_of_N 255) ""]]> ∅) "" in
  ∃ c' e', Set_ c "0a1b2c" (Some e) = (c', None)
    ∧ Get c' "0a1b2c" = (Some e', true, None)
    ∧ EHeader e' !! "X-Name"
      = Some [String (ascii_of_N 239) (String (ascii_of_N 191) (String (ascii_of_N 189) ""))]
    ∧ EHeader e' ≠ EHeader e.
Proof.
  intros c e. eexists _, _.
  split; [vm_compute; reflexivity|]. split; [vm_compute; reflexivity|].
  split; [vm_compute; reflexivity|].
  intros H. apply (f_equal (fun h : Header => h !! "X-Name")) in H.
  vm_compute in H. discriminate H.
Qed.

(** C6.  [Get] returns the entry when the file of the key holds text that
    [json.Unmarshal] accepts; absent, without error, when there is no file;
    an error, and never absent, when the file exists and cannot be opened, or
    holds text that [json.Unmarshal] rejects. *)
Theorem Get_outcomes (c : DiskCache) (key : string) :
  let np := path_resolve (filePathForKey c key) in
  (∀ data e, files c !! np = Some (File data) → json_Unmarshal data = Ok e →
             Get c key = (Some e, true, None))
  ∧ (files c !! np = None → Get c key = (None, false, None))
  ∧ (files c !! np = Some NoPerm → Get c key = (None, false, Some err_permission))
  ∧ (∀ data err, files c !! np = Some (File data) → json_Unmarshal data = Fail err →
                 Get c key = (None, false, Some err))
  ∧ (is_Some (files c !! np) → Get c key ≠ (None, false, None)).
Proof.
  intros np. repeat split.
  - intros data e Hf Hu. by rewrite (Get_file _ _ data Hf), Hu.
  - apply Get_absent.
  - intros Hf. unfold Get, os_ReadFile. fold np. by rewrite Hf.
  - intros data err Hf Hu. by rewrite (Get_file _ _ data Hf), Hu.
  - intros [[data|] Hf].
    + rewrite (Get_file _ _ data Hf). by destruct (json_Unmarshal data).
    + unfold Get, os_ReadFile. fold np. by rewrite Hf.
Qed.

Lemma Get_outcomes_witness :
  let e := mkEntry 200 (<["Content-Type" := ["text/plain"]]> ∅) "hello" in
  let c := mkDiskCache "/var/cache"
             (<[(true, ["var"; "cache"; "0a"; "1b"; "0a1b2c.json"]) := File (json_Marshal e)]>
             (<[(true, ["var"; "cache"; "77"; "aa"; "77aa00.json"]) := NoPerm]>
             (<[(true, ["var"; "cache"; "be"; "ef"; "beef01.json"]) := File "{Status:"]> ∅)))
             ∅ in
  Get c "0a1b2c" = (Some e, true, None)
  ∧ Get c "c0ffee" = (None, false, None)
  ∧ Get c "77aa00" = (None, false, Some err_permission)
  ∧ Get c "beef01" = (None, false, Some (mkError "invalid character")).
Proof.
  intros e c. split; [|split; [|split]].
  - apply (proj1 (Get_outcomes c "0a1b2c") (json_Marshal e) e); vm_compute; reflexivity.
  - apply (proj1 (proj2 (Get_outcomes c "c0ffee"))); vm_compute; reflexivity.
  - apply (proj1 (proj2 (proj2 (Get_outcomes c "77aa00")))); vm_compute; reflexivity.
  - apply (proj1 (proj2 (proj2 (proj2 (Get_outcomes c "beef01")))) "{Status:");
      vm_compute; reflexivity.
Defined.

(** ** Concurrent calls of Set *)

Lemma thread_step_same c0 s t n s' t' :
  thread_step c0 s t n = Some (s', t') →
  t_key t' = t_key t ∧ t_entry t' = t_entry t.
Proof.
  unfold thread_step. intros Hstep.
  repeat (case_match; simplify_eq); done.
Qed.

Lemma pool_step_inv c0 s i n s' :
  pool_step c0 s i n = Some s' →
  ∃ t sh' t', pool s !! i = Some t ∧ thread_step c0 (sh s) t n = Some (sh', t')
              ∧ s' = mkCState sh' (<[i := t']> (pool s)).
Proof.
  unfold pool_step. intros Hstep.
  destruct (pool s !! i) as [t|] eqn:Et; [|done].
  destruct (thread_step c0 (sh s) t n) as [[sh' t']|] eqn:Es; [|done].
  injection Hstep as <-. eauto 10.
Qed.

Lemma pool_update_lookup (pool : list thread) i t t' j tj :
  pool !! i = Some t → <[i := t']> pool !! j = Some tj →
  (j = i ∧ tj = t') ∨ (j ≠ i ∧ pool !! j = Some tj).
Proof.
  intros Hi Hj. destruct (decide (j = i)) as [->|Hne].
  - left. split; [done|].
    rewrite list_lookup_insert_eq in Hj by (by eapply lookup_lt_Some). congruence.
  - right. split; [done|]. by rewrite list_lookup_insert_ne in Hj.
Qed.

Lemma pool_update_lookup_eq (pool : list thread) i t t' :
  pool !! i = Some t → <[i := t']> pool !! i = Some t'.
Proof. intros Hi. apply list_lookup_insert_eq. by eapply lookup_lt_Some. Qed.

(** The steps of a thread follow the order of the body of [Set]: create the
    mutex, lock, marshal, create and write the temporary file, rename,
    unlock. *)
Lemma thread_step_order c0 s t n s' t' :
  thread_step c0 s t n = Some (s', t') → pc_next (t_pc t) (t_pc t').
Proof.
  unfold thread_step, pc_next. intros Hstep.
  destruct (t_pc t) as [| | |b|b fd off| |err|err] eqn:Epc.
  - by simplify_eq.
  - case_bool_decide; by simplify_eq.
  - simplify_eq. by eexists.
  - repeat (case_match; simplify_eq); simpl; eauto.
  - case_match; simplify_eq; simpl; [by right|]. left. eexists. split; [done|].
    unfold chunk_of. rewrite <- bytes_of_length, bytes_of_str_of.
    rewrite length_take, length_drop, bytes_of_length.
    match goal with H : (_ <=? _)%nat = false |- _ => apply Nat.leb_gt in H end. lia.
  - case_match; simplify_eq; simpl; eauto.
  - by simplify_eq.
  - done.
Qed.

Lemma held_by_thread_step c0 s i n s' :
  held_by_thread s → pool_step c0 s i n = Some s' → held_by_thread s'.
Proof.
  intros Hinv (t & sh' & t' & Hi & Hstep & ->)%pool_step_inv k Hk. cbn [sh pool] in *.
  destruct (thread_step_same _ _ _ _ _ _ Hstep) as [Hkey _].
  pose proof (thread_step_order _ _ _ _ _ _ Hstep) as Hord.
  assert (∀ j tj, pool s !! j = Some tj → t_key tj = k → in_cs (t_pc tj) →
            (j = i → in_cs (t_pc t')) →
            ∃ j' tj', <[i := t']> (pool s) !! j' = Some tj' ∧ t_key tj' = k
                      ∧ in_cs (t_pc tj')) as Hkeep.
  { intros j tj Hj Hkj Hcs Hsame. destruct (decide (j = i)) as [->|Hne].
    - exists i, t'. rewrite (pool_update_lookup_eq _ _ _ _ Hi).
      split; [done|]. split; [|by apply Hsame]. rewrite Hkey. congruence.
    - exists j, tj. by rewrite list_lookup_insert_ne. }
  unfold thread_step in Hstep.
  destruct (t_pc t) as [| | |b|b fd off| |err|err] eqn:Epc.
  - simplify_eq. cbn [held] in Hk.
    destruct (Hinv k Hk) as (j & tj & Hj & Hkj & Hcs).
    apply (Hkeep j tj); try done. intros ->. rewrite Hi in Hj. simplify_eq.
    by rewrite Epc in Hcs.
  - case_bool_decide as Hheld; simplify_eq. cbn [held] in Hk.
    apply elem_of_union in Hk as [Hk|Hk%elem_of_singleton].
    + destruct (Hinv k Hk) as (j & tj & Hj & Hkj & Hcs).
      apply (Hkeep j tj); try done.
    + subst k. exists i, (with_pc t PMarshal).
      by rewrite (pool_update_lookup_eq _ _ _ _ Hi).
  - simplify_eq. destruct (Hinv k Hk) as (j & tj & Hj & Hkj & Hcs).
    apply (Hkeep j tj); done.
  - assert (held sh' = held (sh s) ∧ in_cs (t_pc t')) as [Hh Hcs'].
    { repeat (case_match; simplify_eq); done. }
    rewrite Hh in Hk. destruct (Hinv k Hk) as (j & tj & Hj & Hkj & Hcs).
    apply (Hkeep j tj); done.
  - assert (held sh' = held (sh s) ∧ in_cs (t_pc t')) as [Hh Hcs'].
    { repeat (case_match; simplify_eq); done. }
    rewrite Hh in Hk. destruct (Hinv k Hk) as (j & tj & Hj & Hkj & Hcs).
    apply (Hkeep j tj); done.
  - assert (held sh' = held (sh s) ∧ in_cs (t_pc t')) as [Hh Hcs'].
    { repeat (case_match; simplify_eq); done. }
    rewrite Hh in Hk. destruct (Hinv k Hk) as (j & tj & Hj & Hkj & Hcs).
    apply (Hkeep j tj); done.
  - simplify_eq. cbn [held] in Hk.
    apply elem_of_difference in Hk as [Hk Hne].
    destruct (Hinv k Hk) as (j & tj & Hj & Hkj & Hcs).
    apply (Hkeep j tj); try done. intros ->. rewrite Hi in Hj. simplify_eq.
    exfalso. apply Hne. by apply elem_of_singleton.
  - done.
Qed.

Lemma held_by_thread_reachable c0 s0 s :
  held_by_thread s0 → reachable c0 s0 s → held_by_thread s.
Proof.
  intros H0. induction 1 as [|s i n s' _ IH Hstep]; [done|].
  by eapply held_by_thread_step.
Qed.

(** A call that has not returned can take its next step unless another call
    for the same key holds the mutex: calls for different keys do not block
    each other. *)
Lemma Set_not_blocked c0 s0 s i t n :
  held (sh s0) = ∅ → reachable c0 s0 s →
  pool s !! i = Some t → ¬ is_done t →
  (∀ j tj, pool s !! j = Some tj → j ≠ i → t_key tj ≠ t_key t) →
  is_Some (thread_step c0 (sh s) t n).
Proof.
  intros H0 Hreach Hi Hnd Hkeys.
  assert (held_by_thread s) as Hinv.
  { eapply held_by_thread_reachable; [|done]. intros k Hk. rewrite H0 in Hk. set_solver. }
  unfold thread_step, is_done in *.
  destruct (t_pc t) as [| | |b|b fd off| |err|err] eqn:Epc; try done.
  - case_bool_decide as Hheld; [|done].
    destruct (Hinv _ Hheld) as (j & tj & Hj & Hkj & Hcs).
    destruct (decide (j = i)) as [->|Hne].
    + rewrite Hi in Hj. simplify_eq. by rewrite Epc in Hcs.
    + by destruct (Hkeys j tj Hj Hne).
  - repeat case_match; done.
  - repeat case_match; done.
  - repeat case_match; done.
Qed.

Lemma write_at_append (b : string) (off n : nat) :
  (off ≤ String.length b)%nat →
  write_at (str_of (take off (bytes_of b))) off (chunk_of b off n)
  = str_of (take (off + String.length (chunk_of b off n)) (bytes_of b)).
Proof.
  intros Hoff. unfold write_at, chunk_of.
  rewrite <- !bytes_of_length, !bytes_of_str_of.
  assert (length (take off (bytes_of b)) = off) as Hlen.
  { rewrite length_take, bytes_of_length. lia. }
  rewrite Hlen, Nat.sub_diag. cbn [replicate]. rewrite app_nil_r.
  rewrite (take_ge (take off (bytes_of b)) off) by lia.
  rewrite (drop_ge (take off (bytes_of b))) by lia.
  rewrite app_nil_r, take_take_drop. f_equal.
  rewrite length_take, length_drop.
  destruct (decide (S n ≤ length (bytes_of b) - off)%nat).
  - f_equal. lia.
  - rewrite !take_ge; [done|lia|lia].
Qed.

Lemma chunk_of_length (b : string) (off n : nat) :
  String.length (chunk_of b off n) = (S n `min` (String.length b - off))%nat.
Proof.
  unfold chunk_of. rewrite <- (bytes_of_length (str_of _)), bytes_of_str_of.
  by rewrite length_take, length_drop, bytes_of_length.
Qed.

Section SameKey.
Variable c0 : DiskCache.
Variable key : string.
Variable es : list Entry.

Let path : string := filePathForKey c0 key.
Let rp : npath := path_resolve path.
Let rt : npath := path_resolve (path +:+ ".tmp").

Lemma rt_ne_rp : rt ≠ rp.
Proof. apply tmp_path_distinct. Qed.

Lemma pc_ok_out s s' t : ¬ in_cs (t_pc t) → pc_ok c0 key s t → pc_ok c0 key s' t.
Proof. unfold pc_ok. by destruct (t_pc t). Qed.

Lemma pc_ok_same_fs s s' t :
  names s' = names s → inodes s' = inodes s → pc_ok c0 key s t → pc_ok c0 key s' t.
Proof. unfold pc_ok. intros -> ->. done. Qed.

Lemma entries_update (pl : list thread) i t t' :
  pl !! i = Some t → t_entry t' = t_entry t →
  t_entry <$> <[i := t']> pl = t_entry <$> pl.
Proof.
  intros Hi He. rewrite list_fmap_insert, He.
  apply list_insert_id. by rewrite list_lookup_fmap, Hi.
Qed.

Lemma keys_update (pl : list thread) i t' :
  Forall (fun t => t_key t = key) pl → t_key t' = key →
  Forall (fun t => t_key t = key) (<[i := t']> pl).
Proof. intros Hall Hk. by apply Forall_insert. Qed.

(** A step that neither enters nor leaves the critical section keeps the
    mutual exclusion. *)
Lemma cs_stable s i t t' s' :
  set_inv c0 key es s → pool s !! i = Some t →
  held s' = held (sh s) → (in_cs (t_pc t') ↔ in_cs (t_pc t)) →
  (key ∈ held s' ↔ ∃ j tj, <[i := t']> (pool s) !! j = Some tj ∧ in_cs (t_pc tj))
  ∧ (∀ j1 j2 t1 t2, <[i := t']> (pool s) !! j1 = Some t1 →
                    <[i := t']> (pool s) !! j2 = Some t2 →
                    in_cs (t_pc t1) → in_cs (t_pc t2) → j1 = j2).
Proof.
  intros Hinv Hi Hh Hcs. split.
  - rewrite Hh, (inv_held _ _ _ _ Hinv). split.
    + intros (j & tj & Hj & Hc). destruct (decide (j = i)) as [->|Hne].
      * exists i, t'. rewrite (pool_update_lookup_eq _ _ _ _ Hi).
        split; [done|]. apply Hcs. by simplify_eq.
      * exists j, tj. by rewrite list_lookup_insert_ne.
    + intros (j & tj & Hj & Hc).
      destruct (pool_update_lookup _ _ _ _ _ _ Hi Hj) as [[-> ->]|[Hne Hj']].
      * exists i, t. split; [done|]. by apply Hcs.
      * by exists j, tj.
  - intros j1 j2 t1 t2 H1 H2 C1 C2.
    destruct (pool_update_lookup _ _ _ _ _ _ Hi H1) as [[-> ->]|[Hn1 H1']];
      destruct (pool_update_lookup _ _ _ _ _ _ Hi H2) as [[-> ->]|[Hn2 H2']].
    + done.
    + apply (inv_mutex _ _ _ _ Hinv i j2 t t2); try done. by apply Hcs.
    + apply (inv_mutex _ _ _ _ Hinv j1 i t1 t); try done. by apply Hcs.
    + by apply (inv_mutex _ _ _ _ Hinv j1 j2 t1 t2).
Qed.

(** While a thread is in the critical section, what the other threads are
    about to do does not depend on the files. *)
Lemma others_pc_ok s i t t' s' :
  set_inv c0 key es s → pool s !! i = Some t →
  (in_cs (t_pc t) ∨ (names s' = names (sh s) ∧ inodes s' = inodes (sh s))) →
  pc_ok c0 key s' t' →
  ∀ j tj, <[i := t']> (pool s) !! j = Some tj → pc_ok c0 key s' tj.
Proof.
  intros Hinv Hi Hcase Hself j tj Hj.
  destruct (pool_update_lookup _ _ _ _ _ _ Hi Hj) as [[-> ->]|[Hne Hj']]; [done|].
  pose proof (inv_pc _ _ _ _ Hinv j tj Hj') as Hok.
  destruct Hcase as [Hcs|[Hn Hino]].
  - apply (pc_ok_out (sh s)); [|done]. intros Hcj.
    apply Hne. by apply (inv_mutex _ _ _ _ Hinv j i tj t).
  - by apply (pc_ok_same_fs (sh s)).
Qed.

(** A step that leaves the final file as it is, and after which the same
    threads have renamed, keeps what the final file holds. *)
Lemma renamed_keep s i t t' s' :
  set_inv c0 key es s → pool s !! i = Some t →
  t_entry t' = t_entry t →
  (renamed (t_pc t') ↔ renamed (t_pc t)) →
  file_at s' path = file_at (sh s) path →
  (∃ j tj, <[i := t']> (pool s) !! j = Some tj ∧ renamed (t_pc tj)) →
  ∃ j tj, <[i := t']> (pool s) !! j = Some tj ∧ renamed (t_pc tj)
          ∧ file_at s' path = Some (File (json_Marshal (t_entry tj))).
Proof.
  intros Hinv Hi He Hren Hfile (j & tj & Hj & Hr).
  assert (∃ j tj, pool s !! j = Some tj ∧ renamed (t_pc tj)) as Hold.
  { destruct (pool_update_lookup _ _ _ _ _ _ Hi Hj) as [[-> ->]|[Hne Hj']].
    - exists i, t. split; [done|]. by apply Hren.
    - by exists j, tj. }
  destruct (inv_renamed _ _ _ _ Hinv Hold) as (j' & tj' & Hj' & Hr' & Hf).
  destruct (decide (j' = i)) as [->|Hne].
  - exists i, t'. rewrite (pool_update_lookup_eq _ _ _ _ Hi).
    simplify_eq. split; [done|]. split; [by apply Hren|].
    by rewrite Hfile, He.
  - exists j', tj'. rewrite list_lookup_insert_ne by done.
    by rewrite Hfile.
Qed.
End SameKey.

Section SameKeySteps.
Variable c0 : DiskCache.
Variable key : string.
Variable es : list Entry.

Let path : string := filePathForKey c0 key.
Let rp : npath := path_resolve path.
Let rt : npath := path_resolve (path +:+ ".tmp").

Lemma set_inv_step s i n s' :
  set_inv c0 key es s → pool_step c0 s i n = Some s' → set_inv c0 key es s'.
Proof.
  intros Hinv (t & sh' & t' & Hi & Hstep & ->)%pool_step_inv.
  destruct (thread_step_same _ _ _ _ _ _ Hstep) as [Hkey Hent].
  assert (t_key t = key) as Hk.
  { by apply (proj1 (Forall_lookup _ _) (inv_keys _ _ _ _ Hinv) i t). }
  pose proof (inv_pc _ _ _ _ Hinv i t Hi) as Hpc.
  pose proof (inv_fs _ _ _ _ Hinv) as [Htmp Hpath].
  pose proof (rt_ne_rp c0 key) as Hne. cbv zeta in Hne.
  assert (t_entry <$> <[i := t']> (pool s) = es) as Hentries.
  { rewrite (entries_update _ _ _ _ Hi Hent). apply (inv_entries _ _ _ _ Hinv). }
  assert (Forall (fun t => t_key t = key) (<[i := t']> (pool s))) as Hkeys.
  { apply keys_update; [apply (inv_keys _ _ _ _ Hinv)|congruence]. }
  unfold thread_step in Hstep. rewrite Hk in Hstep. clear Hk.
  fold path in Hstep. fold rp in Hstep. fold rt in Hstep.
  unfold pc_ok in Hpc. fold path in Hpc. fold rt in Hpc.
  destruct (t_pc t) as [| | |b|b fd off| |err|err] eqn:Epc.
  - (* PStart *)
    injection Hstep as <- <-.
    destruct (cs_stable c0 key es s i t (with_pc t PLock)
                (mkShared (names (sh s)) (inodes (sh s)) (held (sh s))
                          (created (sh s) ∪ {[key]})) Hinv Hi) as [Hh Hm];
      [done|by rewrite Epc|].
    constructor; cbn [sh pool]; try done.
    + eapply others_pc_ok; eauto. 
    + apply (renamed_keep c0 key es s i t); try done.
      rewrite Epc. unfold renamed. simpl. split; intros [?|?]; done.
  - (* PLock *)
    case_bool_decide as Hheld; [done|]. injection Hstep as <- <-.
    assert (∀ j tj, pool s !! j = Some tj → ¬ in_cs (t_pc tj)) as Hnocs.
    { intros j tj Hj Hc. apply Hheld. apply (inv_held _ _ _ _ Hinv). eauto. }
    constructor; cbn [sh pool held]; try done.
    + split; [|set_solver]. intros _. exists i, (with_pc t PMarshal).
      by rewrite (pool_update_lookup_eq _ _ _ _ Hi).
    + intros j1 j2 t1 t2 H1 H2 C1 C2.
      destruct (pool_update_lookup _ _ _ _ _ _ Hi H1) as [[-> ->]|[Hn1 H1']];
        destruct (pool_update_lookup _ _ _ _ _ _ Hi H2) as [[-> ->]|[Hn2 H2']];
        try done.
      * by destruct (Hnocs _ _ H2').
      * by destruct (Hnocs _ _ H1').
      * by destruct (Hnocs _ _ H1').
    + eapply others_pc_ok; eauto.
    + apply (renamed_keep c0 key es s i t); try done.
      rewrite Epc. unfold renamed. simpl. split; intros [?|?]; done.
  - (* PMarshal *)
    injection Hstep as <- <-.
    destruct (cs_stable c0 key es s i t (with_pc t (PCreate (json_Marshal (t_entry t))))
                (sh s) Hinv Hi) as [Hh Hm]; [done|by rewrite Epc|].
    constructor; cbn [sh pool]; try done.
    + apply (others_pc_ok c0 key es s i t _ _ Hinv Hi); [by right|done].
    + apply (renamed_keep c0 key es s i t); try done.
      rewrite Epc. unfold renamed. simpl. split; intros [?|?]; done.
  - (* PCreate *)
    assert (in_cs (t_pc t)) as Hcs by (by rewrite Epc).
    destruct (names (sh s) !! rt) as [fd|] eqn:En.
    + destruct (Htmp fd En) as [Hnp Hshare].
      assert (sh' = mkShared (names (sh s)) (<[fd := File ""]> (inodes (sh s)))
                             (held (sh s)) (created (sh s))
              ∧ t' = with_pc t (PWrite b fd 0)) as [-> ->].
      { destruct (inodes (sh s) !! fd) as [[d|]|]; try done; by injection Hstep as <- <-. }
      clear Hstep.
      destruct (cs_stable c0 key es s i t (with_pc t (PWrite b fd 0))
                  (mkShared (names (sh s)) (<[fd := File ""]> (inodes (sh s)))
                            (held (sh s)) (created (sh s))) Hinv Hi) as [Hh Hm];
        [done|by rewrite Epc|].
      assert (file_at (mkShared (names (sh s)) (<[fd := File ""]> (inodes (sh s)))
                                (held (sh s)) (created (sh s))) path
              = file_at (sh s) path) as Hfile.
      { unfold file_at. cbn [names inodes]. fold rp.
        destruct (names (sh s) !! rp) as [j|] eqn:Ej; [|done].
        apply lookup_insert_ne. intros ->. done. }
      constructor; cbn [sh pool]; try done.
      * split; cbn [names inodes]; fold path; fold rp; fold rt.
        -- intros fd' Hfd'. rewrite En in Hfd'. injection Hfd' as <-.
           split; [by rewrite lookup_insert_eq|done].
        -- intros j Hj. destruct (decide (fd = j)) as [->|Hnj].
           ++ by rewrite lookup_insert_eq.
           ++ rewrite lookup_insert_ne by done. by apply Hpath.
      * apply (others_pc_ok c0 key es s i t _ _ Hinv Hi); [by left|].
        unfold pc_ok. cbn [with_pc t_pc t_entry names inodes].
        fold path; fold rt. split; [done|]. split; [done|]. split; [lia|].
        by rewrite lookup_insert_eq.
      * apply (renamed_keep c0 key es s i t); try done.
        rewrite Epc. unfold renamed. simpl. split; intros [?|?]; done.
    + injection Hstep as <- <-.
      set (fd := fresh (dom (inodes (sh s)))).
      assert (inodes (sh s) !! fd = None) as Hfresh.
      { apply not_elem_of_dom. apply is_fresh. }
      set (sh1 := mkShared (<[rt := fd]> (names (sh s)))
                           (<[fd := File ""]> (inodes (sh s)))
                           (held (sh s)) (created (sh s))).
      destruct (cs_stable c0 key es s i t (with_pc t (PWrite b fd 0)) sh1 Hinv Hi)
        as [Hh Hm]; [done|by rewrite Epc|].
      assert (∀ j, names (sh s) !! rp = Some j → j ≠ fd) as Hjfd.
      { intros j Hj ->. apply Hpath in Hj as [? Hj]. congruence. }
      assert (file_at sh1 path = file_at (sh s) path) as Hfile.
      { unfold file_at. cbn [names inodes sh1]. fold rp.
        rewrite lookup_insert_ne by done.
        destruct (names (sh s) !! rp) as [j|] eqn:Ej; [|done].
        apply lookup_insert_ne. intros E. exact (Hjfd j eq_refl (eq_sym E)). }
      constructor; cbn [sh pool]; try done.
      * split; cbn [names inodes sh1]; fold path; fold rp; fold rt.
        -- intros fd' Hfd'. rewrite lookup_insert_eq in Hfd'. injection Hfd' as <-.
           split; [by rewrite lookup_insert_eq|].
           rewrite lookup_insert_ne by done. intros Hj. by apply (Hjfd fd).
        -- intros j Hj. rewrite lookup_insert_ne in Hj by done.
           rewrite lookup_insert_ne by (intros E; exact (Hjfd j Hj (eq_sym E))).
           by apply Hpath.
      * apply (others_pc_ok c0 key es s i t _ _ Hinv Hi); [by left|].
        unfold pc_ok. cbn [with_pc t_pc t_entry names inodes sh1].
        fold path; fold rt. split; [done|]. split; [by rewrite lookup_insert_eq|].
        split; [lia|]. by rewrite lookup_insert_eq.
      * apply (renamed_keep c0 key es s i t); try done.
        rewrite Epc. unfold renamed. simpl. split; intros [?|?]; done.
  - (* PWrite *)
    assert (in_cs (t_pc t)) as Hcs by (by rewrite Epc).
    destruct Hpc as (Hb & Hn & Hoff & Hino).
    destruct (Htmp fd Hn) as [Hnp Hshare].
    destruct (String.length b <=? off)%nat eqn:Elen.
    + injection Hstep as <- <-. apply Nat.leb_le in Elen.
      destruct (cs_stable c0 key es s i t (with_pc t PRename) (sh s) Hinv Hi)
        as [Hh Hm]; [done|by rewrite Epc|].
      constructor; cbn [sh pool]; try done.
      * apply (others_pc_ok c0 key es s i t _ _ Hinv Hi); [by left|].
        unfold pc_ok. cbn [with_pc t_pc t_entry]. fold path; fold rt.
        exists fd. split; [done|]. rewrite Hino. do 2 f_equal.
        rewrite take_ge by (rewrite bytes_of_length; lia).
        by rewrite str_of_bytes_of.
      * apply (renamed_keep c0 key es s i t); try done.
        rewrite Epc. unfold renamed. simpl. split; intros [?|?]; done.
    + rewrite Hino in Hstep. injection Hstep as <- <-. apply Nat.leb_gt in Elen.
      rewrite write_at_append by done.
      set (off' := (off + String.length (chunk_of b off n))%nat).
      set (sh1 := mkShared (names (sh s))
                    (<[fd := File (str_of (take off' (bytes_of b)))]> (inodes (sh s)))
                    (held (sh s)) (created (sh s))).
      destruct (cs_stable c0 key es s i t (with_pc t (PWrite b fd off')) sh1 Hinv Hi)
        as [Hh Hm]; [done|by rewrite Epc|].
      assert (file_at sh1 path = file_at (sh s) path) as Hfile.
      { unfold file_at. cbn [names inodes sh1]. fold rp.
        destruct (names (sh s) !! rp) as [j|] eqn:Ej; [|done].
        apply lookup_insert_ne. intros ->. done. }
      constructor; cbn [sh pool]; try done.
      * split; cbn [names inodes sh1]; fold path; fold rp; fold rt.
        -- intros fd' Hfd'. rewrite Hn in Hfd'. injection Hfd' as <-.
           split; [by rewrite lookup_insert_eq|done].
        -- intros j Hj. destruct (decide (fd = j)) as [->|Hnj].
           ++ by rewrite lookup_insert_eq.
           ++ rewrite lookup_insert_ne by done. by apply Hpath.
      * apply (others_pc_ok c0 key es s i t _ _ Hinv Hi); [by left|].
        unfold pc_ok. cbn [with_pc t_pc t_entry names inodes sh1].
        fold path; fold rt. split; [done|]. split; [done|]. split.
        -- unfold off'. rewrite chunk_of_length. lia.
        -- by rewrite lookup_insert_eq.
      * apply (renamed_keep c0 key es s i t); try done.
        rewrite Epc. unfold renamed. simpl. split; intros [?|?]; done.
  - (* PRename *)
    assert (in_cs (t_pc t)) as Hcs by (by rewrite Epc).
    destruct Hpc as (fd & Hn & Hino). rewrite Hn in Hstep.
    injection Hstep as <- <-.
    set (sh1 := mkShared (<[rp := fd]> (delete rt (names (sh s)))) (inodes (sh s))
                         (held (sh s)) (created (sh s))).
    destruct (cs_stable c0 key es s i t (with_pc t (PUnlock None)) sh1 Hinv Hi)
      as [Hh Hm]; [done|by rewrite Epc|].
    constructor; cbn [sh pool]; try done.
    + split; cbn [names inodes sh1]; fold path; fold rp; fold rt.
      * intros fd' Hfd'. rewrite lookup_insert_ne in Hfd' by done.
        by rewrite lookup_delete_eq in Hfd'.
      * intros j Hj. rewrite lookup_insert_eq in Hj. injection Hj as <-.
        by rewrite Hino.
    + apply (others_pc_ok c0 key es s i t _ _ Hinv Hi); [by left|done].
    + intros _. exists i, (with_pc t (PUnlock None)).
      rewrite (pool_update_lookup_eq _ _ _ _ Hi). split; [done|].
      split; [by left|]. unfold file_at. cbn [names inodes sh1]. fold path; fold rp.
      by rewrite lookup_insert_eq.
  - (* PUnlock *)
    assert (in_cs (t_pc t)) as Hcs by (by rewrite Epc).
    injection Hstep as <- <-.
    assert (∀ j tj, <[i := with_pc t (PDone err)]> (pool s) !! j = Some tj →
              ¬ in_cs (t_pc tj)) as Hnocs.
    { intros j tj Hj Hc.
      destruct (pool_update_lookup _ _ _ _ _ _ Hi Hj) as [[-> ->]|[Hnj Hj']]; [done|].
      apply Hnj. by apply (inv_mutex _ _ _ _ Hinv j i tj t). }
    constructor; cbn [sh pool held]; try done.
    + split; [set_solver|]. intros (j & tj & Hj & Hc). by destruct (Hnocs j tj).
    + intros j1 j2 t1 t2 H1 _ C1 _. by destruct (Hnocs j1 t1).
    + apply (others_pc_ok c0 key es s i t _ _ Hinv Hi); [by left|done].
    + apply (renamed_keep c0 key es s i t); try done.
      rewrite Epc, Hpc. unfold renamed. simpl. split; intros _; [by left|by right].
  - done.
Qed.
End SameKeySteps.

Section SameKeyRuns.
Variable c0 : DiskCache.
Variable key : string.
Variable es : list Entry.

Lemma set_inv_init sh0 :
  key ∉ held sh0 → fs_ok c0 key sh0 →
  set_inv c0 key es (mkCState sh0 (set_calls key es)).
Proof.
  intros Hheld Hfs.
  assert (∀ i t, set_calls key es !! i = Some t → t_key t = key ∧ t_pc t = PStart) as Hstart.
  { intros i t Hi. unfold set_calls in Hi. rewrite list_lookup_fmap in Hi.
    destruct (es !! i); simpl in Hi; by simplify_eq. }
  constructor; cbn [sh pool].
  - unfold set_calls. rewrite <- list_fmap_compose. apply list_fmap_id.
  - apply Forall_lookup. intros i t Hi. by apply Hstart in Hi as [? _].
  - split; [done|]. intros (i & t & Hi & Hc). apply Hstart in Hi as [_ Hp].
    by rewrite Hp in Hc.
  - intros i j ti tj Hi _ Hc _. apply Hstart in Hi as [_ Hp]. by rewrite Hp in Hc.
  - done.
  - intros i t Hi. apply Hstart in Hi as [_ Hp]. unfold pc_ok. by rewrite Hp.
  - intros (i & t & Hi & [Hr|Hr]); apply Hstart in Hi as [_ Hp]; congruence.
Qed.

Lemma set_inv_reachable s0 s :
  set_inv c0 key es s0 → reachable c0 s0 s → set_inv c0 key es s.
Proof.
  intros H0. induction 1 as [|s i n s' _ IH Hstep]; [done|].
  by eapply set_inv_step.
Qed.

(** When every call has returned, each has returned nil and the final file
    holds the entry of one of them, whole. *)
Lemma set_inv_final s :
  es ≠ [] → set_inv c0 key es s → Forall is_done (pool s) →
  Forall returned_nil (pool s)
  ∧ ∃ e, e ∈ es ∧ file_at (sh s) (filePathForKey c0 key) = Some (File (json_Marshal e)).
Proof.
  intros Hes Hinv Hdone.
  assert (Forall returned_nil (pool s)) as Hnil.
  { apply Forall_lookup. intros i t Hi.
    pose proof (inv_pc _ _ _ _ Hinv i t Hi) as Hpc.
    pose proof (proj1 (Forall_lookup _ _) Hdone i t Hi) as Hd.
    unfold pc_ok in Hpc. unfold is_done in Hd. unfold returned_nil.
    destruct (t_pc t); try done. by rewrite Hpc. }
  split; [done|].
  destruct (pool s) as [|t0 pl] eqn:Ep.
  { pose proof (inv_entries _ _ _ _ Hinv) as He. rewrite Ep in He. by destruct es. }
  destruct (inv_renamed _ _ _ _ Hinv) as (j & tj & Hj & Hr & Hf).
  { exists 0%nat, t0. rewrite Ep. split; [done|]. right.
    by apply Forall_cons in Hnil as [? _]. }
  exists (t_entry tj). split; [|done].
  rewrite <- (inv_entries _ _ _ _ Hinv).
  apply list_elem_of_fmap. exists tj. split; [done|].
  by apply list_elem_of_lookup_2 in Hj.
Qed.

(** No deadlock: as long as a call has not returned, some call can take a
    step. *)
Lemma set_inv_progress s :
  set_inv c0 key es s → ¬ Forall is_done (pool s) →
  ∃ i n s', pool_step c0 s i n = Some s'.
Proof.
  intros Hinv Hnd.
  assert (∀ i t, pool s !! i = Some t → is_Some (thread_step c0 (sh s) t 0) →
            ∃ i n s', pool_step c0 s i n = Some s') as Hgo.
  { intros i t Hi [[sh' t'] Hs]. exists i, 0%nat. unfold pool_step. rewrite Hi, Hs. eauto. }
  destruct (decide (key ∈ held (sh s))) as [Hheld|Hfree].
  - apply (inv_held _ _ _ _ Hinv) in Hheld as (i & t & Hi & Hc).
    apply (Hgo i t Hi). unfold thread_step.
    destruct (t_pc t); try done; repeat case_match; by eexists.
  - apply not_Forall_Exists in Hnd; [|intros t; unfold is_done; destruct (t_pc t); apply _].
    apply Exists_exists in Hnd as (t & Hin & Hnd).
    apply list_elem_of_lookup in Hin as [i Hi].
    assert (t_key t = key) as Hk.
    { by apply (proj1 (Forall_lookup _ _) (inv_keys _ _ _ _ Hinv) i t). }
    assert (¬ in_cs (t_pc t)) as Hnc.
    { intros Hc. apply Hfree. apply (inv_held _ _ _ _ Hinv). eauto. }
    apply (Hgo i t Hi). clear Hgo. unfold is_done in Hnd. simpl in Hnd, Hnc.
    unfold thread_step.
    destruct (t_pc t); try done; try (by eexists).
    rewrite Hk. rewrite bool_decide_eq_false_2 by done. by eexists.
Qed.
End SameKeyRuns.

Lemma list_sum_insert_lt (f : thread → nat) (pl : list thread) i t t' :
  pl !! i = Some t → (f t' < f t)%nat →
  (list_sum (f <$> <[i := t']> pl) < list_sum (f <$> pl))%nat.
Proof.
  revert i. induction pl as [|x pl IH]; intros i Hi Hlt; [done|].
  destruct i as [|i].
  - injection Hi as ->. change (f t' + list_sum (f <$> pl) < f t + list_sum (f <$> pl))%nat. lia.
  - specialize (IH i Hi Hlt).
    change (f x + list_sum (f <$> <[i:=t']> pl) < f x + list_sum (f <$> pl))%nat. lia.
Qed.

(** Every step brings the calls closer to their return: a run cannot go on
    for ever. *)
Lemma pool_step_decreases c0 s i n s' :
  pool_step c0 s i n = Some s' → (pool_steps_left s' < pool_steps_left s)%nat.
Proof.
  intros (t & sh' & t' & Hi & Hstep & ->)%pool_step_inv.
  unfold pool_steps_left. cbn [pool]. apply (list_sum_insert_lt _ _ _ t); [done|].
  pose proof (thread_step_same _ _ _ _ _ _ Hstep) as [_ He].
  pose proof (thread_step_order _ _ _ _ _ _ Hstep) as Hord.
  unfold thread_step in Hstep. unfold steps_left. rewrite He.
  destruct (t_pc t) as [| | |b|b fd off| |err|err] eqn:Epc; simpl in Hord.
  - rewrite Hord. lia.
  - rewrite Hord. lia.
  - injection Hstep as <- <-. simpl. lia.
  - destruct Hord as [[fd ->]|[err ->]]; lia.
  - destruct (String.length b <=? off)%nat eqn:Elen.
    + injection Hstep as <- <-. simpl. lia.
    + apply Nat.leb_gt in Elen. destruct Hord as [(off' & -> & Hlt)|Hr].
      * lia.
      * rewrite Hr. lia.
  - destruct Hord as [err ->]. lia.
  - rewrite Hord. lia.
  - done.
Qed.

(** The state that a schedule ends in is reachable. *)
Lemma run_schedule_reachable c0 sched : ∀ s0 s,
  run_schedule c0 s0 sched = Some s → reachable c0 s0 s.
Proof.
  assert (∀ s0 s1 s, reachable c0 s0 s1 → run_schedule c0 s1 sched = Some s →
                     reachable c0 s0 s) as Hgen.
  { induction sched as [|[i n] rest IH]; intros s0 s1 s Hr Hrun; simpl in Hrun.
    - by simplify_eq.
    - destruct (pool_step c0 s1 i n) as [s2|] eqn:Hstep; [|done].
      apply (IH s0 s2 s); [|done]. by eapply reach_step. }
  intros s0 s. apply Hgen. constructor.
Qed.

(** ** The request handler *)

(** *** Headers *)

Lemma Header_Add_fold (dst : Header) (k : string) (vv : list string) :
  vv ≠ [] →
  foldl (fun dst v => Header_Add dst k v) dst vv
  = <[CanonicalMIMEHeaderKey k :=
        default [] (dst !! CanonicalMIMEHeaderKey k) ++ vv]> dst.
Proof.
  revert dst. induction vv as [|v vv IH]; intros dst Hne; [done|].
  simpl. destruct vv as [|v' vv]; [done|].
  rewrite IH by done. unfold Header_Add at 1 2.
  rewrite lookup_insert_eq, insert_insert_eq. simpl.
  by rewrite <- app_assoc.
Qed.

(** [copyHeaders] from entries with distinct canonical names. *)
Lemma copyHeaders_lookup (src : list (string * list string)) :
  NoDup src.*1 →
  (∀ k vv, (k, vv) ∈ src → CanonicalMIMEHeaderKey k = k) →
  ∀ (dst : Header) k,
    copyHeaders dst src !! k
    = match (list_to_map src : Header) !! k with
      | Some (v :: vv) => Some (default [] (dst !! k) ++ v :: vv)
      | _ => dst !! k
      end.
Proof.
  induction src as [|[k0 vv0] src IH]; intros Hnd Hcan dst k; [done|].
  apply NoDup_cons in Hnd as [Hk0 Hnd].
  assert (CanonicalMIMEHeaderKey k0 = k0) as Hc0 by (apply (Hcan k0 vv0); left).
  change (copyHeaders dst ((k0, vv0) :: src))
    with (copyHeaders (foldl (fun dst v => Header_Add dst k0 v) dst vv0) src).
  rewrite IH; [|done|by intros k' vv' Hin; apply (Hcan k' vv'); right].
  change (list_to_map ((k0, vv0) :: src) : Header)
    with (<[k0 := vv0]> (list_to_map src : Header)).
  destruct (decide (k = k0)) as [->|Hne].
  - rewrite lookup_insert_eq.
    rewrite (not_elem_of_list_to_map_1 (M := gmap string) src k0) by done.
    destruct vv0 as [|v vv]; [done|].
    rewrite Header_Add_fold by done. by rewrite Hc0, lookup_insert_eq.
  - rewrite lookup_insert_ne by done.
    assert (foldl (fun dst v => Header_Add dst k0 v) dst vv0 !! k = dst !! k) as ->; [|done].
    destruct vv0 as [|v vv]; [done|].
    rewrite Header_Add_fold by done. rewrite Hc0. by apply lookup_insert_ne.
Qed.

(** Copying a header with canonical names into an empty one keeps every name
    that has a value, whatever the order of the iteration. *)
Lemma copyHeaders_from_map `{GoRuntime} (h : Header) (k : string) :
  canonical_keys h → copyHeaders ∅ (map_range h) !! k = copied (h !! k).
Proof.
  intros Hcan.
  pose proof (map_range_perm h) as Hperm.
  rewrite copyHeaders_lookup.
  - rewrite <- (list_to_map_flip h (map_range h)) by done.
    rewrite lookup_empty. unfold copied. by destruct (h !! k) as [[|v vv]|].
  - rewrite Hperm. apply NoDup_fst_map_to_list.
  - intros k' vv' Hin. apply Hcan. exists vv'.
    apply elem_of_map_to_list. by rewrite <- Hperm.
Qed.

Lemma canonical_keys_insert (h : Header) (k : string) (vv : list string) :
  CanonicalMIMEHeaderKey k = k → canonical_keys h → canonical_keys (<[k := vv]> h).
Proof.
  intros Hk Hcan k' [vv' Hl]. destruct (decide (k' = k)) as [->|Hne]; [done|].
  rewrite lookup_insert_ne in Hl by done. apply Hcan. by exists vv'.
Qed.

Lemma sort_Strings_Sorted (l : list string) : Sorted str_le (sort_Strings l).
Proof.
  apply Sorted_merge_sort. intros a b. apply String.leb_total.
Qed.

Lemma sort_Strings_Permutation (l : list string) : sort_Strings l ≡ₚ l.
Proof. apply merge_sort_Permutation. Qed.

Section HeaderProps.
Context `{GoStdlib}.

Lemma canonical_keys_filterHopByHop (h : Header) :
  canonical_keys h → canonical_keys (filterHopByHop h).
Proof.
  intros Hcan k [vv Hl]. rewrite filterHopByHop_lookup in Hl.
  case_bool_decide; [done|]. apply Hcan. by exists vv.
Qed.

Lemma canonical_keys_miss_header (h : Header) :
  canonical_keys h → canonical_keys (miss_header h).
Proof.
  intros Hcan. apply canonical_keys_insert; [by vm_compute|].
  by apply canonical_keys_filterHopByHop.
Qed.

Lemma miss_header_X_Cache (h : Header) : miss_header h !! "X-Cache" = Some ["MISS"].
Proof. apply lookup_insert_eq. Qed.


(** The sanitizer leaves a header without Connection and without hop-by-hop
    names as it is. *)
Lemma filterHopByHop_clean (h : Header) :
  (∀ k, k ∈ CanonicalMIMEHeaderKey <$> hopHeaders → h !! k = None) →
  filterHopByHop h = h.
Proof.
  intros Hclean. apply map_eq. intros k. rewrite filterHopByHop_lookup.
  case_bool_decide as Hk; [|done].
  rewrite fmap_app, elem_of_app in Hk. destruct Hk as [Hk|Hk].
  - symmetry. by apply Hclean.
  - unfold connection_tokens, Header_Get in Hk.
    rewrite (Hclean (CanonicalMIMEHeaderKey "Connection")) in Hk by (vm_compute; set_solver).
    simpl in Hk. set_solver.
Qed.
End HeaderProps.

(** *** The paths of the handler *)

Section HandlerPaths.
Context `{GoStdlib} `{GoRuntime} {St : Type} `{Cache St}.
Variable originBase : string.
Variable target : URL.
Variable origin : Request → round_trip.

Local Abbreviation handle := (handler originBase target origin).
Local Abbreviation serve := (ServeHTTP target origin).
Local Abbreviation direct := (director target).

Lemma Header_Get_copy (h : Header) (k : string) :
  canonical_keys h → Header_Get (copyHeaders ∅ (map_range h)) k = Header_Get h k.
Proof.
  intros Hcan. unfold Header_Get. rewrite copyHeaders_from_map by done.
  by destruct (h !! CanonicalMIMEHeaderKey k) as [[|v vv]|].
Qed.

Lemma connection_tokens_ext (h h' : Header) :
  Header_Get h "Connection" = Header_Get h' "Connection" →
  connection_tokens h = connection_tokens h'.
Proof. unfold connection_tokens. by intros ->. Qed.

(** The bypass: the base proxy, and no word to the cache. *)
Lemma handler_bypass (c : option St) (r : Request) :
  c = None ∨ cacheEligible r = false →
  handle c r
  = match origin (direct r) with
    | RTErr _ => mkOutcome bad_gateway c [EvOrigin (direct r)] ""
    | RTRes res =>
        mkOutcome
          (mkClientResponse (StatusCode res)
             (copyHeaders ∅ (map_range (filterHopByHop (ResHeader res))))
             (body_bytes (ResBody res)))
          c [EvOrigin (direct r)] ""
    end.
Proof.
  intros Hby.
  assert (handle c r = let '(resp, c', evs) := serve base_modifyResponse c r in
                        mkOutcome resp c' evs "") as ->.
  { unfold handler. destruct Hby as [->|Hne]; [done|].
    rewrite Hne. by destruct c. }
  unfold ServeHTTP, base_modifyResponse.
  by destruct (origin (direct r)).
Qed.

Lemma handler_hit (st : St) (r : Request) key ent err :
  cacheEligible r = true → BuildCacheKey originBase r = Ok key →
  cache_Get st key = (Some ent, true, err) →
  handle (Some st) r
  = mkOutcome
      (mkClientResponse (Status ent)
         (filterHopByHop
            (Header_Set (copyHeaders ∅ (map_range (EHeader ent))) "X-Cache" "HIT"))
         (Body ent))
      (Some st) [EvGet key] "HIT".
Proof.
  intros He Hk Hg. unfold handler. by rewrite He, Hk, Hg.
Qed.

Lemma handler_miss (st : St) (r : Request) key :
  cacheEligible r = true → BuildCacheKey originBase r = Ok key →
  not_hit (cache_Get st key) →
  handle (Some st) r
  = match origin (direct r) with
    | RTErr _ => mkOutcome bad_gateway (Some st) [EvGet key; EvOrigin (direct r)] "MISS"
    | RTRes res =>
        if resNoStore (miss_header (ResHeader res)) then
          mkOutcome
            (mkClientResponse (StatusCode res)
               (copyHeaders ∅ (map_range (miss_header (ResHeader res))))
               (body_bytes (ResBody res)))
            (Some st) [EvGet key; EvOrigin (direct r)] "MISS"
        else
          match ResBody res with
          | BodyErr _ =>
              mkOutcome bad_gateway (Some st) [EvGet key; EvOrigin (direct r)] "MISS"
          | BodyOk b =>
              let entry := miss_entry (StatusCode res) (kept_header (ResHeader res) b) b in
              mkOutcome
                (mkClientResponse (StatusCode res)
                   (copyHeaders ∅ (map_range (kept_header (ResHeader res) b))) b)
                (Some (cache_Set st key (Some entry)).1)
                [EvGet key; EvOrigin (direct r); EvSet key entry] "MISS"
          end
    end.
Proof.
  intros He Hk Hg.
  assert (handle (Some st) r
          = let '(resp, c', evs) := serve (miss_modifyResponse st key) (Some st) r in
            mkOutcome resp c' (EvGet key :: evs) "MISS") as ->.
  { unfold handler. rewrite He, Hk.
    by destruct (cache_Get st key) as [[[ent|] [|]] err]. }
  unfold ServeHTTP, miss_modifyResponse.
  destruct (origin (direct r)) as [e|res]; [done|].
  fold (miss_header (ResHeader res)).
  destruct (resNoStore (miss_header (ResHeader res))); [done|].
  destruct (ResBody res) as [b|b]; [|done].
  fold (kept_header (ResHeader res) b).
  by destruct (cache_Set st key _).
Qed.

(** The header of a response served from the cache, name by name. *)
Lemma hit_header_lookup (h : Header) (k : string) :
  canonical_keys h →
  filterHopByHop (Header_Set (copyHeaders ∅ (map_range h)) "X-Cache" "HIT") !! k
  = if bool_decide (hop_by_hop h k) then None
    else if bool_decide (k = "X-Cache") then Some ["HIT"]
    else copied (h !! k).
Proof.
  intros Hcan. rewrite filterHopByHop_lookup.
  rewrite (connection_tokens_ext _ h).
  - destruct (decide (hop_by_hop h k)) as [Hh|Hh].
    { by rewrite !bool_decide_eq_true_2 by done. }
    rewrite !(bool_decide_eq_false_2 (hop_by_hop h k)) by done.
    rewrite bool_decide_eq_false_2 by done.
    unfold Header_Set. change (CanonicalMIMEHeaderKey "X-Cache") with "X-Cache".
    case_bool_decide as Hk.
    + subst k. apply lookup_insert_eq.
    + rewrite lookup_insert_ne by done. by apply copyHeaders_from_map.
  - unfold Header_Get at 1, Header_Set.
    rewrite lookup_insert_ne by (by vm_compute).
    by apply (Header_Get_copy h "Connection").
Qed.

(** The header of a relayed response, name by name. *)
Lemma kept_header_lookup (h : Header) (b : string) (k : string) :
  kept_header h b !! k
  = if bool_decide (k = "Content-Length")
    then Some [strconv_FormatInt (Z.of_nat (String.length b))]
    else if bool_decide (k = "X-Cache") then Some ["MISS"]
    else filterHopByHop h !! k.
Proof.
  unfold kept_header, miss_header, Header_Set.
  change (CanonicalMIMEHeaderKey "X-Cache") with "X-Cache".
  change (CanonicalMIMEHeaderKey "Content-Length") with "Content-Length".
  case_bool_decide as E1; [subst; apply lookup_insert_eq|].
  rewrite lookup_insert_ne by done.
  case_bool_decide as E2; [subst; apply lookup_insert_eq|].
  by rewrite lookup_insert_ne.
Qed.

Lemma canonical_keys_kept_header (h : Header) (b : string) :
  canonical_keys h → canonical_keys (kept_header h b).
Proof.
  intros Hcan. apply canonical_keys_insert; [by vm_compute|].
  by apply canonical_keys_miss_header.
Qed.
End HandlerPaths.

(** *** Eligibility, the tag of the response, and what is stored *)

Section HandlerClaims.
Context `{GoStdlib} `{GoRuntime} {St : Type} `{Cache St}.
Variable originBase : string.
Variable target : URL.
Variable origin : Request → round_trip.

Local Abbreviation handle := (handler originBase target origin).
Local Abbreviation direct := (director target).

Lemma containsToken_spec (v token : string) :
  containsToken v token = true
  ↔ ∃ part, part ∈ strings_Split "," v
            ∧ strings_EqualFold (strings_TrimSpace part) token = true.
Proof.
  unfold containsToken. rewrite existsb_exists. split.
  - intros (x & Hin & Hx). exists x. split; [|done]. by apply list_elem_of_In.
  - intros (x & Hin & Hx). exists x. split; [|done]. by apply list_elem_of_In.
Qed.

Lemma Header_Get_empty (h : Header) (name : string) :
  Header_Get h name = ""
  ↔ ∀ v vv, h !! CanonicalMIMEHeaderKey name = Some (v :: vv) → v = "".
Proof.
  unfold Header_Get. destruct (h !! CanonicalMIMEHeaderKey name) as [[|v vv]|].
  - split; [by intros _ v vv ?|done].
  - split; [by intros -> v' vv' [= <- _]|]. intros Hv. by apply (Hv v vv).
  - split; [by intros _ v vv ?|done].
Qed.

Lemma cacheEligible_spec (r : Request) :
  cacheEligible r = true
  ↔ Method r = "GET"
    ∧ Header_Get (ReqHeader r) "Authorization" = ""
    ∧ containsToken (Header_Get (ReqHeader r) "Cache-Control") "no-store" = false.
Proof.
  unfold cacheEligible, reqNoStore.
  rewrite !andb_true_iff, negb_true_iff, !str_eqb_true. tauto.
Qed.

(** C4.  The test of eligibility as the handler has it, and the bypass.  A
    request is cache-eligible if and only if its method is
    exactly GET, [Header.Get] finds no Authorization value or an empty one
    (the first value of the name, when there is one, is the empty string),
    and the Cache-Control value that [Header.Get] returns (the first one)
    has no piece between commas that, trimmed, equals no-store under
    [strings.EqualFold].  A request that is not eligible goes to the origin
    through the base proxy: the cache is neither read nor written, and the
    only event is the round trip of the request that the director makes. *)
Theorem cacheEligible_and_bypass (c : option St) (r : Request) :
  (cacheEligible r = true
   ↔ Method r = "GET"
     ∧ (∀ v vv, ReqHeader r !! "Authorization" = Some (v :: vv) → v = "")
     ∧ ¬ ∃ part, part ∈ strings_Split "," (Header_Get (ReqHeader r) "Cache-Control")
                 ∧ strings_EqualFold (strings_TrimSpace part) "no-store" = true)
  ∧ (cacheEligible r = false →
     events (handle c r) = [EvOrigin (direct r)]
     ∧ store (handle c r) = c
     ∧ log_tag (handle c r) = ""
     ∧ ReqHeader (direct r) = filterHopByHop (ReqHeader (SingleHost_Director target r))
     ∧ ReqHost (direct r) = UHost target).
Proof.
  split.
  - rewrite cacheEligible_spec, (Header_Get_empty _ "Authorization").
    rewrite <- containsToken_spec, not_true_iff_false. done.
  - intros Hne. rewrite handler_bypass by by right.
    by destruct (origin (direct r)).
Qed.

Lemma BuildCacheKey_Ok (r : Request) base :
  url_Parse originBase = inl base → ∃ key, BuildCacheKey originBase r = Ok key.
Proof. intros Hb. unfold BuildCacheKey. rewrite Hb. by eexists. Qed.

Lemma copied_X_Cache (h : Header) tag :
  canonical_keys h → h !! "X-Cache" = Some [tag] →
  copyHeaders ∅ (map_range h) !! "X-Cache" = Some [tag].
Proof. intros Hcan Hx. by rewrite copyHeaders_from_map, Hx. Qed.

(** C3 (amended).  With a store configured: a cache-eligible request that
    is answered from the store gets X-Cache: HIT, and one that is not gets
    X-Cache: MISS when the origin answers and the response is relayed (its
    body read in full when it is to be stored); a request that is not
    eligible, GET or not, gets no tag from the proxy: its response has the
    X-Cache values of the origin response, if any; and a response 502 that
    the proxy makes up, on either path, has no X-Cache. *)
Theorem X_Cache_tag (st : St) (r : Request) :
  (∀ base, url_Parse originBase = inl base →
     ∃ key, BuildCacheKey originBase r = Ok key)
  ∧ (∀ key ent err,
       cacheEligible r = true → BuildCacheKey originBase r = Ok key →
       cache_Get st key = (Some ent, true, err) →
       canonical_keys (EHeader ent) → ¬ hop_by_hop (EHeader ent) "X-Cache" →
       CHeader (response (handle (Some st) r)) !! "X-Cache" = Some ["HIT"])
  ∧ (∀ key res,
       cacheEligible r = true → BuildCacheKey originBase r = Ok key →
       not_hit (cache_Get st key) →
       origin (direct r) = RTRes res → canonical_keys (ResHeader res) →
       resNoStore (miss_header (ResHeader res)) = true
       ∨ (∃ b, ResBody res = BodyOk b) →
       CHeader (response (handle (Some st) r)) !! "X-Cache" = Some ["MISS"])
  ∧ (∀ res,
       cacheEligible r = false →
       origin (direct r) = RTRes res → canonical_keys (ResHeader res) →
       CHeader (response (handle (Some st) r)) !! "X-Cache"
       = copied (filterHopByHop (ResHeader res) !! "X-Cache"))
  ∧ (∀ e,
       origin (direct r) = RTErr e →
       cacheEligible r = false
       ∨ (∃ key, BuildCacheKey originBase r = Ok key ∧ not_hit (cache_Get st key)) →
       response (handle (Some st) r) = bad_gateway
       ∧ CHeader (response (handle (Some st) r)) !! "X-Cache" = None).
Proof.
  split; [|split; [|split; [|split]]].
  - intros base. apply BuildCacheKey_Ok.
  - intros key ent err He Hk Hg Hcan Hnom.
    rewrite (handler_hit _ _ _ st r key ent err) by done. cbn [response CHeader].
    rewrite hit_header_lookup by done.
    rewrite (bool_decide_eq_false_2 (hop_by_hop _ _)) by done.
    by rewrite bool_decide_eq_true_2.
  - intros key res He Hk Hg Ho Hcan Hrelay.
    rewrite (handler_miss _ _ _ st r key) by done. rewrite Ho.
    destruct (resNoStore (miss_header (ResHeader res))) eqn:Hns.
    + cbn [response CHeader]. apply copied_X_Cache.
      * by apply canonical_keys_miss_header.
      * apply miss_header_X_Cache.
    + destruct Hrelay as [?|[b Hb]]; [done|]. rewrite Hb. cbn [response CHeader].
      apply copied_X_Cache.
      * by apply canonical_keys_kept_header.
      * by rewrite kept_header_lookup.
  - intros res He Ho Hcan. rewrite handler_bypass by by right. rewrite Ho.
    cbn [response CHeader]. rewrite copyHeaders_from_map; [done|].
    by apply canonical_keys_filterHopByHop.
  - intros e Ho [He|(key & Hk & Hg)].
    + rewrite handler_bypass by by right. by rewrite Ho.
    + destruct (cacheEligible r) eqn:He.
      * rewrite (handler_miss _ _ _ st r key) by done. by rewrite Ho.
      * rewrite handler_bypass by by right. by rewrite Ho.
Qed.




Lemma canonical_keys_CloneHeaders (h : Header) :
  canonical_keys h → canonical_keys (CloneHeaders h).
Proof.
  intros Hcan k [vv Hl]. unfold CloneHeaders in Hl. rewrite lookup_fmap in Hl.
  apply Hcan. destruct (h !! k) as [vv0|]; [by eexists|done].
Qed.

(** The header of a stored entry names no header to remove but the fixed
    ones, of which it has none. *)
Lemma hop_by_hop_stored (h : Header) (b : string) (k : string) :
  hop_by_hop (CloneHeaders (kept_header h b)) k
  ↔ k ∈ CanonicalMIMEHeaderKey <$> hopHeaders.
Proof.
  assert (connection_tokens (CloneHeaders (kept_header h b)) = []) as E.
  { unfold connection_tokens, Header_Get, CloneHeaders.
    rewrite lookup_fmap, kept_header_lookup.
    change (CanonicalMIMEHeaderKey "Connection") with "Connection".
    rewrite !bool_decide_eq_false_2 by done.
    rewrite filterHopByHop_lookup, bool_decide_eq_true_2; [done|].
    rewrite fmap_app, elem_of_app. left. by vm_compute; left. }
  unfold hop_by_hop. by rewrite E, app_nil_r.
Qed.

(** What the miss path stores, what a hit serves, and the two together for
    a store that gives back the entry that it was given. *)
Lemma miss_stores_sorted_header (st : St) (r : Request) key :
  cacheEligible r = true → BuildCacheKey originBase r = Ok key →
  (∀ res b,
     not_hit (cache_Get st key) →
     origin (direct r) = RTRes res → canonical_keys (ResHeader res) →
     ResBody res = BodyOk b → resNoStore (miss_header (ResHeader res)) = false →
     let o := handle (Some st) r in
     let entry := miss_entry (StatusCode res) (kept_header (ResHeader res) b) b in
     events o = [EvGet key; EvOrigin (direct r); EvSet key entry]
     ∧ store o = Some (cache_Set st key (Some entry)).1
     ∧ Status entry = StatusCode res ∧ Body entry = b
     ∧ EHeader entry !! "X-Cache" = Some ["MISS"]
     ∧ (∀ k vv, EHeader entry !! k = Some vv →
          Sorted str_le vv
          ∧ ∃ vv0, kept_header (ResHeader res) b !! k = Some vv0
                   ∧ vv = sort_Strings vv0 ∧ vv ≡ₚ vv0)
     ∧ (∀ k vv, ResHeader res !! k = Some vv → ¬ hop_by_hop (ResHeader res) k →
          k ≠ "X-Cache" → k ≠ "Content-Length" →
          EHeader entry !! k = Some (sort_Strings vv)
          ∧ CHeader (response o) !! k = copied (Some vv)))
  ∧ (∀ ent err,
       cache_Get st key = (Some ent, true, err) → canonical_keys (EHeader ent) →
       let o := handle (Some st) r in
       events o = [EvGet key]
       ∧ ∀ k, CHeader (response o) !! k
              = if bool_decide (hop_by_hop (EHeader ent) k) then None
                else if bool_decide (k = "X-Cache") then Some ["HIT"]
                else copied (EHeader ent !! k))
  ∧ (∀ res b,
       not_hit (cache_Get st key) →
       origin (direct r) = RTRes res → canonical_keys (ResHeader res) →
       ResBody res = BodyOk b → resNoStore (miss_header (ResHeader res)) = false →
       let entry := miss_entry (StatusCode res) (kept_header (ResHeader res) b) b in
       (∀ st', store (handle (Some st) r) = Some st' →
               cache_Get st' key = (Some entry, true, None)) →
       let o := handle (store (handle (Some st) r)) r in
       events o = [EvGet key]
       ∧ CStatus (response o) = StatusCode res
       ∧ CBody (response o) = b
       ∧ CHeader (response o) !! "X-Cache" = Some ["HIT"]
       ∧ ∀ k vv, ResHeader res !! k = Some vv → ¬ hop_by_hop (ResHeader res) k →
                 k ≠ "X-Cache" → k ≠ "Content-Length" →
                 CHeader (response o) !! k = copied (Some (sort_Strings vv))).
Proof.
  intros He Hk. split; [|split].
  - intros res b Hg Ho Hcan Hb Hns o entry.
    assert (o = mkOutcome
                  (mkClientResponse (StatusCode res)
                     (copyHeaders ∅ (map_range (kept_header (ResHeader res) b))) b)
                  (Some (cache_Set st key (Some entry)).1)
                  [EvGet key; EvOrigin (direct r); EvSet key entry] "MISS") as Eo.
    { unfold o. rewrite (handler_miss _ _ _ st r key) by done.
      by rewrite Ho, Hns, Hb. }
    assert (∀ k, EHeader entry !! k
                 = sort_Strings <$> kept_header (ResHeader res) b !! k) as Hl.
    { intros k. unfold entry, miss_entry, CloneHeaders. cbn [EHeader].
      apply lookup_fmap. }
    split; [by rewrite Eo|]. split; [by rewrite Eo|].
    split; [done|]. split; [done|]. split; [|split].
    + rewrite Hl, kept_header_lookup. by vm_compute.
    + intros k vv Hkv. rewrite Hl in Hkv.
      destruct (kept_header (ResHeader res) b !! k) as [vv0|]; [|done].
      injection Hkv as <-. split; [apply sort_Strings_Sorted|].
      exists vv0. split; [done|]. split; [done|]. apply sort_Strings_Permutation.
    + intros k vv Hkv Hhop Hx Hc.
      assert (kept_header (ResHeader res) b !! k = Some vv) as Hkept.
      { rewrite kept_header_lookup, !bool_decide_eq_false_2 by done.
        rewrite filterHopByHop_lookup.
        by rewrite (bool_decide_eq_false_2 _ Hhop). }
      split; [by rewrite Hl, Hkept|].
      rewrite Eo. cbn [response CHeader].
      rewrite copyHeaders_from_map by by apply canonical_keys_kept_header.
      by rewrite Hkept.
  - intros ent err Hg Hcan o. unfold o.
    rewrite (handler_hit _ _ _ st r key ent err) by done.
    split; [done|]. intros k. cbn [response CHeader].
    by apply hit_header_lookup.
  - intros res b Hg Ho Hcan Hb Hns entry Hkeep o.
    assert (store (handle (Some st) r) = Some (cache_Set st key (Some entry)).1) as Es.
    { rewrite (handler_miss _ _ _ st r key) by done. by rewrite Ho, Hns, Hb. }
    specialize (Hkeep _ Es). unfold o. rewrite Es.
    rewrite (handler_hit _ _ _ _ r key entry None) by done.
    cbn [events response CStatus CBody CHeader].
    assert (canonical_keys (EHeader entry)) as Hce.
    { apply canonical_keys_CloneHeaders. by apply canonical_keys_kept_header. }
    assert (∀ k, ¬ hop_by_hop (ResHeader res) k → ¬ hop_by_hop (EHeader entry) k) as Hhop.
    { intros k Hn Hh. apply Hn. apply hop_by_hop_stored in Hh.
      unfold hop_by_hop. rewrite fmap_app, elem_of_app. by left. }
    split; [done|]. split; [done|]. split; [done|]. split.
    + rewrite hit_header_lookup by done.
      rewrite (bool_decide_eq_false_2 (hop_by_hop _ _)).
      * by rewrite bool_decide_eq_true_2.
      * intros Hh. apply (proj1 (hop_by_hop_stored _ b _)) in Hh.
        revert Hh. compute_done.
    + intros k vv Hkv Hn Hx Hc. rewrite hit_header_lookup by done.
      rewrite (bool_decide_eq_false_2 _ (Hhop k Hn)).
      rewrite bool_decide_eq_false_2 by done.
      unfold entry, miss_entry, CloneHeaders. cbn [EHeader].
      rewrite lookup_fmap, kept_header_lookup, !bool_decide_eq_false_2 by done.
      rewrite filterHopByHop_lookup, (bool_decide_eq_false_2 _ Hn), Hkv. done.
Qed.
End HandlerClaims.

(** *** The handler on examples *)

Lemma canonical_keys_Forall (h : Header) :
  map_Forall (fun k _ => CanonicalMIMEHeaderKey k = k) h → canonical_keys h.
Proof. intros Hall k [vv Hk]. by apply (Hall k vv). Qed.

Lemma cacheEligible_and_bypass_witness :
  let origin := fun _ : Request =>
    RTRes (mkOriginResponse 201 {[ "Content-Type" := ["text/plain"] ]} (BodyOk "made")) in
  let st := mkDiskCache "cache" ∅ ∅ in
  let r := mkRequest "POST" (plain_URL "/items") "HTTP/1.1"
             {[ "Connection" := ["keep-alive"]; "Keep-Alive" := ["timeout=5"] ]}
             "a=1" "proxy" "10.0.0.1:5000" in
  let o := @handler hex_stdlib example_runtime DiskCache DiskCache_Cache
             "/api" (plain_URL "/api") origin (Some st) r in
  @cacheEligible hex_stdlib r = false
  ∧ events o = [EvOrigin (mkRequest "POST" (plain_URL "/items") "HTTP/1.1" ∅
                            "a=1" "" "10.0.0.1:5000")]
  ∧ store o = Some st.
Proof.
  intros origin st r o.
  assert (@cacheEligible hex_stdlib r = false) as He by (vm_compute; reflexivity).
  split; [exact He|].
  destruct (proj2 (@cacheEligible_and_bypass hex_stdlib example_runtime DiskCache
                     DiskCache_Cache "/api" (plain_URL "/api") origin (Some st) r) He)
    as (Hev & Hst & _).
  split; [|exact Hst].
  refine (eq_trans Hev _). vm_compute. reflexivity.
Defined.

(** C4 as stated fails: a request that carries an Authorization header whose
    first value is empty is eligible, and the cache is read for it. *)
Lemma cacheEligible_counterexample :
  let origin := fun _ : Request =>
    RTRes (mkOriginResponse 200 ∅ (BodyOk "secret")) in
  let st := mkDiskCache "cache" ∅ ∅ in
  let r := mkRequest "GET" (plain_URL "/items") "HTTP/1.1"
             {[ "Authorization" := [""; "Bearer secret"] ]}
             "" "proxy" "10.0.0.1:5000" in
  let o := @handler hex_stdlib example_runtime DiskCache DiskCache_Cache
             "/api" (plain_URL "/api") origin (Some st) r in
  has_header (ReqHeader r) "Authorization"
  ∧ @cacheEligible hex_stdlib r = true
  ∧ ∃ key e, events o = [EvGet key; EvOrigin (@director hex_stdlib example_runtime
                                                (plain_URL "/api") r);
                         EvSet key e].
Proof.
  intros origin st r o. split; [eexists; vm_compute; reflexivity|].
  split; [vm_compute; reflexivity|].
  eexists _, _. vm_compute. reflexivity.
Qed.

Lemma X_Cache_tag_witness :
  let origin := fun _ : Request =>
    RTRes (mkOriginResponse 200 {[ "Content-Type" := ["text/plain"] ]} (BodyOk "ok")) in
  let st := mkDiskCache "cache" ∅ ∅ in
  let r := mkRequest "GET" (plain_URL "/items") "HTTP/1.1" ∅ "" "proxy" "10.0.0.1:5000" in
  let o := @handler hex_stdlib example_runtime DiskCache DiskCache_Cache
             "/api" (plain_URL "/api") origin (Some st) r in
  CHeader (response o) !! "X-Cache" = Some ["MISS"].
Proof.
  intros origin st r o.
  refine (proj1 (proj2 (proj2 (@X_Cache_tag hex_stdlib example_runtime DiskCache
                                 DiskCache_Cache "/api" (plain_URL "/api") origin st r)))
            _ (mkOriginResponse 200 {[ "Content-Type" := ["text/plain"] ]} (BodyOk "ok"))
            _ _ _ _ _ _).
  - vm_compute. reflexivity.
  - vm_compute. reflexivity.
  - vm_compute. exact I.
  - reflexivity.
  - apply canonical_keys_Forall. compute_done.
  - right. by eexists.
Defined.

(** C3 as stated fails, both ways: a GET request with credentials, handled
    with a store configured, gets a response without X-Cache; and the
    response to a POST request has the X-Cache header that the origin sent. *)
Lemma X_Cache_tag_counterexample :
  let st := mkDiskCache "cache" ∅ ∅ in
  let origin1 := fun _ : Request =>
    RTRes (mkOriginResponse 200 {[ "Content-Type" := ["text/plain"] ]} (BodyOk "ok")) in
  let r1 := mkRequest "GET" (plain_URL "/items") "HTTP/1.1"
              {[ "Authorization" := ["Bearer secret"] ]} "" "proxy" "10.0.0.1:5000" in
  let o1 := @handler hex_stdlib example_runtime DiskCache DiskCache_Cache
              "/api" (plain_URL "/api") origin1 (Some st) r1 in
  let origin2 := fun _ : Request =>
    RTRes (mkOriginResponse 200 {[ "X-Cache" := ["HIT from cdn"] ]} (BodyOk "ok")) in
  let r2 := mkRequest "POST" (plain_URL "/items") "HTTP/1.1" ∅ "a=1" "proxy"
              "10.0.0.1:5000" in
  let o2 := @handler hex_stdlib example_runtime DiskCache DiskCache_Cache
              "/api" (plain_URL "/api") origin2 (Some st) r2 in
  Method r1 = "GET" ∧ CStatus (response o1) = 200%Z
  ∧ CHeader (response o1) !! "X-Cache" = None
  ∧ Method r2 ≠ "GET" ∧ CHeader (response o2) !! "X-Cache" = Some ["HIT from cdn"].
Proof.
  intros st origin1 r1 o1 origin2 r2 o2.
  split; [reflexivity|]. split; [vm_compute; reflexivity|].
  split; [vm_compute; reflexivity|]. split; [discriminate|].
  vm_compute. reflexivity.
Qed.




(** *** Stored headers and the disk store *)

Lemma utf8_valid_ascii (s : string) :
  Forall (fun c => (byte_val c <? 128)%N = true) (bytes_of s) → utf8_valid s.
Proof.
  intros Hf. unfold utf8_valid, coerce_str. rewrite coerce_utf8_ascii by done.
  apply str_of_bytes_of.
Qed.

Lemma utf8_valid_FormatInt (n : nat) : utf8_valid (strconv_FormatInt (Z.of_nat n)).
Proof.
  apply utf8_valid_ascii. rewrite FormatInt_shape.
  rewrite bool_decide_eq_false_2 by lia.
  change ("" +:+ ?x) with x.
  eapply Forall_impl; [apply uint_digits|].
  intros c Hc. unfold is_digit, in_range in Hc. apply andb_true_iff in Hc as [_ Hc].
  apply N.leb_le in Hc. apply N.ltb_lt. lia.
Qed.

Section StoredHeader.
Context `{GoStdlib}.

(** The header that the miss path stores is well-formed UTF-8 when the
    header of the origin response is. *)
Lemma header_utf8_valid_stored (h : Header) (b : string) :
  header_utf8_valid h → header_utf8_valid (CloneHeaders (kept_header h b)).
Proof.
  intros Hv k vs Hk. unfold CloneHeaders in Hk.
  rewrite lookup_fmap, kept_header_lookup in Hk.
  assert (∀ vs0, (utf8_valid k ∧ Forall utf8_valid vs0) →
                 utf8_valid k ∧ Forall utf8_valid (sort_Strings vs0)) as Hsort.
  { intros vs0 [? Hf]. split; [done|]. by rewrite sort_Strings_Permutation. }
  case_bool_decide as E1.
  { injection Hk as <-. subst k. apply Hsort. split; [vm_compute; reflexivity|].
    apply Forall_singleton, utf8_valid_FormatInt. }
  case_bool_decide as E2.
  { injection Hk as <-. subst k. apply Hsort. split; [vm_compute; reflexivity|].
    apply Forall_singleton. vm_compute. reflexivity. }
  rewrite filterHopByHop_lookup in Hk. case_bool_decide; [done|].
  destruct (h !! k) as [vs0|] eqn:Ek; [|done]. injection Hk as <-.
  apply Hsort. by apply (Hv k vs0).
Qed.
End StoredHeader.

(** The disk store gives back an entry whose header is well-formed UTF-8 as
    it was given. *)
Lemma DiskCache_keeps_entry (c : DiskCache) (key : string) (e : Entry) :
  (- 2 ^ 63 ≤ Status e < 2 ^ 63)%Z → header_utf8_valid (EHeader e) →
  files c !! path_resolve (filePathForKey c key +:+ ".tmp") ≠ Some NoPerm →
  Get (Set_ c key (Some e)).1 key = (Some e, true, None).
Proof.
  intros Hz Hv Htmp. rewrite Set_spec by done. cbn [fst].
  rewrite (Get_file _ _ (json_Marshal e)).
  - by rewrite json_Unmarshal_Marshal, coerce_entry_valid.
  - cbn [files]. apply lookup_insert_eq.
Qed.

(** C10 (amended).  When the miss path stores a response, the entry that it
    hands to [Set] has the status and the buffered body of the response and
    the header that [CloneHeaders] makes of the sanitized, tagged header: the
    values of every name sorted by [sort.Strings] (in increasing byte-wise
    order, a rearrangement of the values received), among them X-Cache with
    the value MISS; the client of the miss gets the values as the origin
    sent them.  A response served from the store has, for every name that
    the sanitizer keeps, the values of the entry that [Get] returns, in their
    order, but for X-Cache, which is HIT.  With the disk store, when the
    status is a Go int, the names and values of the response header are
    well-formed UTF-8 and the temporary file can be written, the same request
    sent again is served from the store, without a word to the origin, with
    the values of every header of the origin response in sorted order. *)
Theorem stored_header_values_sorted `{GoStdlib} `{GoRuntime}
    (originBase : string) (target : URL) (origin : Request → round_trip)
    (st : DiskCache) (r : Request) (key : string) :
  cacheEligible r = true → BuildCacheKey originBase r = Ok key →
  let handle := handler originBase target origin in
  (∀ res b,
     not_hit (Get st key) →
     origin (director target r) = RTRes res → canonical_keys (ResHeader res) →
     ResBody res = BodyOk b → resNoStore (miss_header (ResHeader res)) = false →
     let o := handle (Some st) r in
     let entry := miss_entry (StatusCode res) (kept_header (ResHeader res) b) b in
     events o = [EvGet key; EvOrigin (director target r); EvSet key entry]
     ∧ store o = Some (Set_ st key (Some entry)).1
     ∧ Status entry = StatusCode res ∧ Body entry = b
     ∧ EHeader entry !! "X-Cache" = Some ["MISS"]
     ∧ (∀ k vv, EHeader entry !! k = Some vv →
          Sorted str_le vv
          ∧ ∃ vv0, kept_header (ResHeader res) b !! k = Some vv0
                   ∧ vv = sort_Strings vv0 ∧ vv ≡ₚ vv0)
     ∧ (∀ k vv, ResHeader res !! k = Some vv → ¬ hop_by_hop (ResHeader res) k →
          k ≠ "X-Cache" → k ≠ "Content-Length" →
          EHeader entry !! k = Some (sort_Strings vv)
          ∧ CHeader (response o) !! k = copied (Some vv)))
  ∧ (∀ ent err,
       Get st key = (Some ent, true, err) → canonical_keys (EHeader ent) →
       let o := handle (Some st) r in
       events o = [EvGet key]
       ∧ ∀ k, CHeader (response o) !! k
              = if bool_decide (hop_by_hop (EHeader ent) k) then None
                else if bool_decide (k = "X-Cache") then Some ["HIT"]
                else copied (EHeader ent !! k))
  ∧ (∀ res b,
       not_hit (Get st key) →
       origin (director target r) = RTRes res → canonical_keys (ResHeader res) →
       ResBody res = BodyOk b → resNoStore (miss_header (ResHeader res)) = false →
       (- 2 ^ 63 ≤ StatusCode res < 2 ^ 63)%Z →
       header_utf8_valid (ResHeader res) →
       files st !! path_resolve (filePathForKey st key +:+ ".tmp") ≠ Some NoPerm →
       let o := handle (store (handle (Some st) r)) r in
       events o = [EvGet key]
       ∧ CStatus (response o) = StatusCode res
       ∧ CBody (response o) = b
       ∧ CHeader (response o) !! "X-Cache" = Some ["HIT"]
       ∧ ∀ k vv, ResHeader res !! k = Some vv → ¬ hop_by_hop (ResHeader res) k →
                 k ≠ "X-Cache" → k ≠ "Content-Length" →
                 CHeader (response o) !! k = copied (Some (sort_Strings vv))).
Proof.
  intros He Hk handle.
  destruct (miss_stores_sorted_header originBase target origin st r key He Hk)
    as (Hmiss & Hhit & Hagain).
  split; [exact Hmiss|]. split; [exact Hhit|].
  intros res b Hg Ho Hcan Hb Hns Hz Hv Htmp.
  apply (Hagain res b Hg Ho Hcan Hb Hns).
  intros st' Hst'.
  destruct (Hmiss res b Hg Ho Hcan Hb Hns) as (_ & Hstore & _).
  injection (eq_trans (eq_sym Hstore) Hst') as <-.
  apply DiskCache_keeps_entry; [done| |done].
  by apply header_utf8_valid_stored.
Qed.

Lemma stored_header_values_sorted_witness :
  let res := mkOriginResponse 200
               {[ "Set-Cookie" := ["b=2"; "a=1"]; "Content-Type" := ["text/plain"] ]}
               (BodyOk "ok") in
  let origin := fun _ : Request => RTRes res in
  let st := mkDiskCache "cache" ∅ ∅ in
  let r := mkRequest "GET" (plain_URL "/items") "HTTP/1.1" ∅ "" "proxy" "10.0.0.1:5000" in
  let o1 := @handler hex_stdlib example_runtime DiskCache DiskCache_Cache
              "/api" (plain_URL "/api") origin (Some st) r in
  let o2 := @handler hex_stdlib example_runtime DiskCache DiskCache_Cache
              "/api" (plain_URL "/api") origin (store o1) r in
  CHeader (response o1) !! "Set-Cookie" = Some ["b=2"; "a=1"]
  ∧ events o2 = [EvGet "4745540a2f6170692f6974656d730a"]
  ∧ CHeader (response o2) !! "X-Cache" = Some ["HIT"]
  ∧ CHeader (response o2) !! "Set-Cookie" = Some ["a=1"; "b=2"].
Proof.
  intros res origin st r o1 o2.
  destruct (@stored_header_values_sorted hex_stdlib example_runtime
              "/api" (plain_URL "/api") origin st r
              "4745540a2f6170692f6974656d730a")
    as (Hmiss & _ & Hagain).
  - vm_compute. reflexivity.
  - vm_compute. reflexivity.
  - destruct (Hmiss res "ok") as (_ & _ & _ & _ & _ & _ & Hval).
    + vm_compute. exact I.
    + reflexivity.
    + apply canonical_keys_Forall. compute_done.
    + reflexivity.
    + vm_compute. reflexivity.
    + destruct (Hagain res "ok") as (Hev & _ & _ & Hx & Hsorted).
      * vm_compute. exact I.
      * reflexivity.
      * apply canonical_keys_Forall. compute_done.
      * reflexivity.
      * vm_compute. reflexivity.
      * simpl. lia.
      * intros k vs Hk.
        assert (map_Forall (fun k vs => utf8_valid k ∧ Forall utf8_valid vs)
                           (ResHeader res)) as Hall by compute_done.
        by apply (Hall k vs).
      * vm_compute. discriminate.
      * split; [|split; [exact Hev|split; [exact Hx|]]].
        -- refine (eq_trans (proj2 (Hval "Set-Cookie" ["b=2"; "a=1"] _ _ _ _)) _);
             [vm_compute; reflexivity|compute_done|discriminate|discriminate|].
           reflexivity.
        -- refine (eq_trans (Hsorted "Set-Cookie" ["b=2"; "a=1"] _ _ _ _) _);
             [vm_compute; reflexivity|compute_done|discriminate|discriminate|].
           vm_compute. reflexivity.
Defined.

(** C10 as stated fails: values that are not well-formed UTF-8 are stored
    with U+FFFD in place of the ill-formed bytes, written after the sort, and
    are served in an order that is not sorted. *)
Lemma stored_header_values_counterexample :
  let e_acute := String (ascii_of_N 195) (String (ascii_of_N 169) "") in
  let lone := String (ascii_of_N 195) "" in
  let replacement :=
    String (ascii_of_N 239) (String (ascii_of_N 191) (String (ascii_of_N 189) "")) in
  let res := mkOriginResponse 200 {[ "X-Name" := [e_acute; lone] ]} (BodyOk "ok") in
  let origin := fun _ : Request => RTRes res in
  let st := mkDiskCache "cache" ∅ ∅ in
  let r := mkRequest "GET" (plain_URL "/items") "HTTP/1.1" ∅ "" "proxy" "10.0.0.1:5000" in
  let o1 := @handler hex_stdlib example_runtime DiskCache DiskCache_Cache
              "/api" (plain_URL "/api") origin (Some st) r in
  let o2 := @handler hex_stdlib example_runtime DiskCache DiskCache_Cache
              "/api" (plain_URL "/api") origin (store o1) r in
  (∃ key e, events o1 = [EvGet key;
                         EvOrigin (@director hex_stdlib example_runtime
                                     (plain_URL "/api") r);
                         EvSet key e]
            ∧ EHeader e !! "X-Name" = Some [lone; e_acute])
  ∧ log_tag o2 = "HIT"
  ∧ CHeader (response o2) !! "X-Name" = Some [replacement; e_acute]
  ∧ ¬ Sorted str_le [replacement; e_acute].
Proof.
  intros e_acute lone replacement res origin st r o1 o2. split.
  - eexists _, _. split; vm_compute; reflexivity.
  - split; [vm_compute; reflexivity|]. split; [vm_compute; reflexivity|].
    intros Hs. apply Sorted_inv in Hs as [_ Hs]. apply HdRel_inv in Hs.
    vm_compute in Hs. discriminate Hs.
Qed.

(** ** More on the disk store *)

Lemma tmp_path_resolve c key :
  dir c ≠ "" → plain_key key →
  path_resolve (filePathForKey c key +:+ ".tmp")
  = ((path_resolve (dir c)).1,
     (path_resolve (dir c)).2
       ++ [str_take 2 key; str_take 2 (str_drop 2 key); (key +:+ ".json") +:+ ".tmp"]).
Proof.
  intros Hd Hk. unfold filePathForKey. rewrite ShardPath_plain by done.
  pose proof (plain_key_comps key Hk) as Hc.
  set (r := (path_resolve (dir c)).1). set (cs := (path_resolve (dir c)).2).
  change [str_take 2 key; str_take 2 (str_drop 2 key); key]
    with ([str_take 2 key; str_take 2 (str_drop 2 key)] ++ [key]).
  rewrite app_assoc, !path_render_suffix, <- app_assoc.
  apply path_resolve_render.
  apply normal_comps_app_plain; [apply path_resolve_normal|].
  apply Forall_cons in Hc as [H1 Hc]. apply Forall_cons in Hc as [H2 Hc].
  apply (proj1 (Forall_singleton _ _)) in Hc.
  repeat apply Forall_cons_2; [done|done| |done].
  destruct Hc as (Hne & _ & _ & Hs). destruct Hk as (Hlen & _ & Hdot).
  repeat split.
  - by destruct key.
  - destruct key as [|a [|b key]]; try done.
  - destruct key as [|a [|b [|b' key]]]; try done.
  - unfold no_slash. rewrite !bytes_of_app.
    intros [[?|Hin]%elem_of_app|Hin]%elem_of_app; [done| |]; revert Hin; compute_done.
Qed.

(** The temporary file of a key is the entry file of no key. *)
Lemma tmp_path_no_entry c k1 k2 :
  dir c ≠ "" → plain_key k1 → plain_key k2 →
  path_resolve (filePathForKey c k1 +:+ ".tmp") ≠ path_resolve (filePathForKey c k2).
Proof.
  intros Hd H1 H2. rewrite tmp_path_resolve, filePathForKey_resolve by done.
  intros [= E]. apply app_inv_head in E. injection E as _ _ E.
  apply (f_equal (fun s => rev (bytes_of s))) in E.
  rewrite !bytes_of_app, !rev_app_distr in E. simpl in E. discriminate E.
Qed.

Lemma Get_same_files (c c' : DiskCache) (key : string) :
  dir c' = dir c →
  files c' !! path_resolve (filePathForKey c key)
  = files c !! path_resolve (filePathForKey c key) →
  Get c' key = Get c key.
Proof.
  intros Hd Hf. unfold Get, os_ReadFile.
  assert (filePathForKey c' key = filePathForKey c key) as ->.
  { unfold filePathForKey. by rewrite Hd. }
  by rewrite Hf.
Qed.

Lemma Delete_spec (c : DiskCache) (key : string) :
  Delete c key
  = (mkDiskCache (dir c) (delete (path_resolve (filePathForKey c key)) (files c))
                 (locks c ∪ {[key]}), None).
Proof.
  unfold Delete, lockFor, with_files, os_Remove, os_Remove_node. cbn [files dir locks].
  change (filePathForKey (mkDiskCache (dir c) (files c) (locks c ∪ {[key]})) key)
    with (filePathForKey c key).
  destruct (files c !! path_resolve (filePathForKey c key)) as [n|] eqn:E.
  - done.
  - simpl. by rewrite delete_id.
Qed.

(** [Delete] returns nil whether or not the key has an entry; afterwards
    [Get] for the key is absent, whatever the file held (a corrupt entry too);
    no other file is touched, so the entry of every other key is as before;
    and a second [Delete] changes nothing. *)
Theorem Delete_removes_entry (c : DiskCache) (key : string) :
  let c' := (Delete c key).1 in
  (Delete c key).2 = None
  ∧ Get c' key = (None, false, None)
  ∧ dir c' = dir c
  ∧ (∀ np, np ≠ path_resolve (filePathForKey c key) → files c' !! np = files c !! np)
  ∧ (∀ key', dir c ≠ "" → plain_key key → plain_key key' → key' ≠ key →
             Get c' key' = Get c key')
  ∧ Delete c' key = (c', None).
Proof.
  intros c'. unfold c'. rewrite Delete_spec. cbn [fst snd].
  split; [done|]. split.
  { apply Get_absent. cbn [files].
    change (filePathForKey (mkDiskCache _ _ _) key) with (filePathForKey c key).
    apply lookup_delete_eq. }
  split; [done|]. split.
  { intros np Hnp. cbn [files]. by apply lookup_delete_ne. }
  split.
  - intros key' Hd Hk Hk' Hne. apply Get_same_files; [done|]. cbn [files].
    apply lookup_delete_ne. intros E. apply Hne. symmetry.
    by apply (filePathForKey_inj c key key').
  - rewrite Delete_spec. cbn [dir files locks].
    change (filePathForKey (mkDiskCache _ _ _) key) with (filePathForKey c key).
    rewrite delete_delete_eq. f_equal. f_equal. set_solver.
Qed.

Lemma Delete_removes_entry_witness :
  let c := mkDiskCache "cache" ∅ ∅ in
  let c1 := (Set_ c "0a1b2c" (Some (mkEntry 200 ∅ "one"))).1 in
  let c2 := (Set_ c1 "0a1b2d" (Some (mkEntry 404 ∅ "two"))).1 in
  Get (Delete c2 "0a1b2c").1 "0a1b2d" = (Some (mkEntry 404 ∅ "two"), true, None).
Proof.
  intros c c1 c2.
  refine (eq_trans (proj1 (proj2 (proj2 (proj2 (proj2
            (Delete_removes_entry c2 "0a1b2c"))))) "0a1b2d" _ _ _ _) _).
  - vm_compute. discriminate.
  - compute_done.
  - compute_done.
  - discriminate.
  - vm_compute. reflexivity.
Defined.

(** [Set] for a key leaves the entry of every other key as it was, whether
    the write succeeds or fails. *)
Theorem Set_keeps_other_entries (c : DiskCache) (key key' : string) (e : option Entry) :
  dir c ≠ "" → plain_key key → plain_key key' → key' ≠ key →
  Get (Set_ c key e).1 key' = Get c key'.
Proof.
  intros Hd Hk Hk' Hne. destruct e as [e|]; [|done].
  assert (files c !! path_resolve (filePathForKey c key +:+ ".tmp") = Some NoPerm
          ∨ files c !! path_resolve (filePathForKey c key +:+ ".tmp") ≠ Some NoPerm)
    as [Hno|Hok].
  { destruct (files c !! _) as [[d|]|]; [by right|by left|by right]. }
  - unfold Set_, lockFor, os_WriteFile. cbn [files dir locks].
    change (filePathForKey (mkDiskCache (dir c) (files c) (locks c ∪ {[key]})) key)
      with (filePathForKey c key).
    rewrite Hno. by apply Get_same_files.
  - rewrite Set_spec by done. apply Get_same_files; [done|]. cbn [files fst].
    rewrite lookup_insert_ne.
    + apply lookup_delete_ne. by apply tmp_path_no_entry.
    + intros E. apply Hne. symmetry. by apply (filePathForKey_inj c key key').
Qed.

Lemma Set_keeps_other_entries_witness :
  let c := mkDiskCache "cache" ∅ ∅ in
  let c1 := (Set_ c "0a1b2c" (Some (mkEntry 200 ∅ "one"))).1 in
  Get (Set_ c1 "0a1b2d" (Some (mkEntry 404 ∅ "two"))).1 "0a1b2c"
  = (Some (mkEntry 200 ∅ "one"), true, None).
Proof.
  intros c c1.
  refine (eq_trans (Set_keeps_other_entries c1 "0a1b2d" "0a1b2c" _ _ _ _ _) _).
  - vm_compute. discriminate.
  - compute_done.
  - compute_done.
  - discriminate.
  - vm_compute. reflexivity.
Defined.

(** The errors of [Set]: a nil entry is refused before anything is touched;
    when the temporary file cannot be written the error is returned and no
    file is changed, so the entry that was there stays. *)
Theorem Set_errors_keep_entry (c : DiskCache) (key : string) (e : Entry) :
  Set_ c key None = (c, Some (mkError "nil entry"))
  ∧ (files c !! path_resolve (filePathForKey c key +:+ ".tmp") = Some NoPerm →
     (Set_ c key (Some e)).2 = Some err_permission
     ∧ files (Set_ c key (Some e)).1 = files c
     ∧ Get (Set_ c key (Some e)).1 key = Get c key).
Proof.
  split; [done|]. intros Hno.
  unfold Set_, lockFor, os_WriteFile. cbn [files dir locks].
  change (filePathForKey (mkDiskCache (dir c) (files c) (locks c ∪ {[key]})) key)
    with (filePathForKey c key).
  rewrite Hno. cbn [fst snd files]. split; [done|]. split; [done|].
  by apply Get_same_files.
Qed.

Lemma Set_errors_keep_entry_witness :
  let c := mkDiskCache "cache" ∅ ∅ in
  let c1 := (Set_ c "0a1b2c" (Some (mkEntry 200 ∅ "one"))).1 in
  let c2 := with_files c1
              (<[path_resolve (filePathForKey c1 "0a1b2c" +:+ ".tmp") := NoPerm]>
                 (files c1)) in
  (Set_ c2 "0a1b2c" (Some (mkEntry 500 ∅ "two"))).2 = Some err_permission
  ∧ Get (Set_ c2 "0a1b2c" (Some (mkEntry 500 ∅ "two"))).1 "0a1b2c"
    = (Some (mkEntry 200 ∅ "one"), true, None).
Proof.
  intros c c1 c2.
  destruct (proj2 (Set_errors_keep_entry c2 "0a1b2c" (mkEntry 500 ∅ "two")))
    as (He & _ & Hg).
  - vm_compute. reflexivity.
  - split; [exact He|]. refine (eq_trans Hg _). vm_compute. reflexivity.
Defined.


(** The file of a key (of at least four bytes, without slash or dot): in the
    directory named by the first two bytes of the key, inside the directory
    named by the next two, below the cache directory, under the name of the
    key with the extension .json; it is a file that [Clear] takes for an
    entry, and the temporary file of [Set] is next to it. *)
Theorem filePathForKey_layout (c : DiskCache) (key : string) :
  dir c ≠ "" → plain_key key →
  let np := path_resolve (filePathForKey c key) in
  np = ((path_resolve (dir c)).1,
        (path_resolve (dir c)).2
          ++ [str_take 2 key; str_take 2 (str_drop 2 key); key +:+ ".json"])
  ∧ below (path_resolve (dir c)) np
  ∧ filepath_Ext (path_render np) = ".json"
  ∧ path_resolve (filePathForKey c key +:+ ".tmp")
    = (np.1, (path_resolve (dir c)).2
               ++ [str_take 2 key; str_take 2 (str_drop 2 key);
                   (key +:+ ".json") +:+ ".tmp"]).
Proof.
  intros Hd Hk np. split; [by apply filePathForKey_resolve|].
  destruct (entry_file_is_entry_file c key Hd Hk) as [Hb He].
  split; [done|]. split; [done|].
  unfold np. rewrite filePathForKey_resolve by done. by apply tmp_path_resolve.
Qed.

Lemma filePathForKey_layout_witness :
  path_resolve (filePathForKey (mkDiskCache "/var/cache/" ∅ ∅) "0a1b2c")
  = (true, ["var"; "cache"; "0a"; "1b"; "0a1b2c.json"]).
Proof.
  refine (eq_trans (proj1 (filePathForKey_layout (mkDiskCache "/var/cache/" ∅ ∅)
                             "0a1b2c" _ _)) _).
  - discriminate.
  - compute_done.
  - vm_compute. reflexivity.
Defined.

(** Two keys have two files: entries do not collide on disk, and the
    temporary file of one key is the entry file of no other. *)
Theorem filePathForKey_injective (c : DiskCache) (k1 k2 : string) :
  dir c ≠ "" → plain_key k1 → plain_key k2 →
  (path_resolve (filePathForKey c k1) = path_resolve (filePathForKey c k2) ↔ k1 = k2)
  ∧ path_resolve (filePathForKey c k1 +:+ ".tmp") ≠ path_resolve (filePathForKey c k2).
Proof.
  intros Hd H1 H2. split; [split|].
  - by apply filePathForKey_inj.
  - by intros ->.
  - by apply tmp_path_no_entry.
Qed.

Lemma filePathForKey_injective_witness :
  path_resolve (filePathForKey (mkDiskCache "cache" ∅ ∅) "0a1b2c")
  ≠ path_resolve (filePathForKey (mkDiskCache "cache" ∅ ∅) "0a1b2d").
Proof.
  intros E.
  apply (proj1 (filePathForKey_injective (mkDiskCache "cache" ∅ ∅) "0a1b2c" "0a1b2d"
                  ltac:(discriminate) ltac:(compute_done) ltac:(compute_done))) in E.
  discriminate E.
Defined.

(** ** More on concurrent calls of Set *)

(** What a step does to the mutex of the key of the call: nothing, or the
    call locks a free mutex, or it unlocks the mutex that it holds. *)
Lemma thread_step_cs c0 s t n s' t' :
  thread_step c0 s t n = Some (s', t') →
  ((in_cs (t_pc t) ↔ in_cs (t_pc t')) ∧ held s' = held s)
  ∨ (¬ in_cs (t_pc t) ∧ in_cs (t_pc t') ∧ (t_key t ∉ held s)
     ∧ held s' = held s ∪ {[t_key t]})
  ∨ (in_cs (t_pc t) ∧ ¬ in_cs (t_pc t') ∧ held s' = held s ∖ {[t_key t]}).
Proof.
  unfold thread_step. intros Hstep.
  destruct (t_pc t) as [| | |b|b fd off| |err|err] eqn:Epc.
  - left. injection Hstep as <- <-. simpl. tauto.
  - case_bool_decide as Hheld; [done|]. right. left.
    injection Hstep as <- <-. simpl. tauto.
  - left. injection Hstep as <- <-. simpl. tauto.
  - left. repeat (case_match; simplify_eq); simpl; tauto.
  - left. repeat (case_match; simplify_eq); simpl; tauto.
  - left. repeat (case_match; simplify_eq); simpl; tauto.
  - right. right. injection Hstep as <- <-. simpl. tauto.
  - done.
Qed.

Lemma mutex_inv_step c0 s i n s' :
  mutex_inv s → pool_step c0 s i n = Some s' → mutex_inv s'.
Proof.
  intros [Hheld Huniq] (t & sh' & t' & Hi & Hstep & ->)%pool_step_inv.
  destruct (thread_step_same _ _ _ _ _ _ Hstep) as [Hkey _].
  pose proof (thread_step_cs _ _ _ _ _ _ Hstep) as Hcs.
  assert (∀ j tj, <[i := t']> (pool s) !! j = Some tj →
            (j = i ∧ tj = t') ∨ (j ≠ i ∧ pool s !! j = Some tj)) as Hnew.
  { intros j tj. by apply pool_update_lookup with (t := t). }
  assert (<[i := t']> (pool s) !! i = Some t') as Hi'
    by by apply pool_update_lookup_eq with (t := t).
  assert (∀ j tj, j ≠ i → pool s !! j = Some tj →
            <[i := t']> (pool s) !! j = Some tj) as Hold.
  { intros j tj Hne Hj. by rewrite list_lookup_insert_ne. }
  split; cbn [sh pool].
  - intros k. destruct Hcs as [[Hsame Hh]|[(Hout & Hin & Hfree & Hh)|(Hin & Hout & Hh)]];
      rewrite Hh.
    + rewrite Hheld. split.
      * intros (j & tj & Hj & Hk & Hc). destruct (decide (j = i)) as [->|Hne].
        -- exists i, t'. rewrite Hi in Hj. injection Hj as <-.
           split; [done|]. split; [congruence|]. by apply Hsame.
        -- exists j, tj. auto.
      * intros (j & tj & Hj & Hk & Hc). destruct (Hnew j tj Hj) as [[-> ->]|[Hne Hj']].
        -- exists i, t. split; [done|]. split; [congruence|]. by apply Hsame.
        -- exists j, tj. auto.
    + rewrite elem_of_union, elem_of_singleton, Hheld. split.
      * intros [(j & tj & Hj & Hk & Hc) | ->].
        -- destruct (decide (j = i)) as [->|Hne].
           ++ rewrite Hi in Hj. injection Hj as <-. done.
           ++ exists j, tj. auto.
        -- exists i, t'. auto.
      * intros (j & tj & Hj & Hk & Hc). destruct (Hnew j tj Hj) as [[-> ->]|[Hne Hj']].
        -- right. congruence.
        -- left. exists j, tj. auto.
    + rewrite elem_of_difference, elem_of_singleton, Hheld. split.
      * intros [(j & tj & Hj & Hk & Hc) Hne]. destruct (decide (j = i)) as [->|Hji].
        -- rewrite Hi in Hj. injection Hj as <-. done.
        -- exists j, tj. auto.
      * intros (j & tj & Hj & Hk & Hc). destruct (Hnew j tj Hj) as [[-> ->]|[Hne Hj']];
          [done|].
        split; [exists j, tj; auto|]. intros ->. apply Hne.
        by apply (Huniq j i tj t).
  - intros j1 j2 t1 t2 H1 H2 Hk C1 C2.
    destruct (Hnew j1 t1 H1) as [[-> ->]|[Hn1 H1']];
      destruct (Hnew j2 t2 H2) as [[-> ->]|[Hn2 H2']]; [done| | |].
    + destruct Hcs as [[Hsame Hh]|[(Hout & Hin & Hfree & Hh)|(Hin & Hout & Hh)]].
      * apply (Huniq i j2 t t2); try done; [congruence|by apply Hsame].
      * exfalso. apply Hfree. apply Hheld. exists j2, t2.
        split; [done|]. split; [congruence|done].
      * done.
    + destruct Hcs as [[Hsame Hh]|[(Hout & Hin & Hfree & Hh)|(Hin & Hout & Hh)]].
      * apply (Huniq j1 i t1 t); try done; [congruence|by apply Hsame].
      * exfalso. apply Hfree. apply Hheld. exists j1, t1.
        split; [done|]. split; [congruence|done].
      * done.
    + by apply (Huniq j1 j2 t1 t2).
Qed.

Lemma mutex_inv_init sh0 kes :
  held sh0 = ∅ → mutex_inv (mkCState sh0 (set_calls_of kes)).
Proof.
  intros Hh.
  assert (∀ i t, set_calls_of kes !! i = Some t → ¬ in_cs (t_pc t)) as Hstart.
  { intros i t Hi. unfold set_calls_of in Hi. rewrite list_lookup_fmap in Hi.
    destruct (kes !! i); simpl in Hi; [|done]. injection Hi as <-. simpl. tauto. }
  split; cbn [sh pool].
  - intros k. rewrite Hh. split; [set_solver|].
    intros (i & t & Hi & _ & Hc). by destruct (Hstart i t Hi).
  - intros i j ti tj Hi _ _ Hc. by destruct (Hstart i ti Hi).
Qed.

(** Mutual exclusion.  Calls of [Set], for any keys and entries, are started
    with every mutex free.  In every state that they reach, under every
    interleaving, two different calls for one key are never both between
    [Lock] and [Unlock], and the mutex of a key is locked exactly when some
    call for the key is there. *)
Theorem Set_mutual_exclusion c0 sh0 (kes : list (string * Entry)) (s : cstate) :
  held sh0 = ∅ →
  reachable c0 (mkCState sh0 (set_calls_of kes)) s →
  (∀ i j ti tj, pool s !! i = Some ti → pool s !! j = Some tj →
                t_key ti = t_key tj → in_cs (t_pc ti) → in_cs (t_pc tj) → i = j)
  ∧ (∀ k, k ∈ held (sh s)
          ↔ ∃ i t, pool s !! i = Some t ∧ t_key t = k ∧ in_cs (t_pc t)).
Proof.
  intros Hh Hreach.
  assert (mutex_inv s) as [H1 H2]; [|done].
  induction Hreach as [|s i n s' _ IH Hstep]; [by apply mutex_inv_init|].
  by eapply mutex_inv_step.
Qed.

Lemma Set_mutual_exclusion_witness :
  let c0 := mkDiskCache "cache" ∅ ∅ in
  let kes := [("0a1b2c", mkEntry 200 ∅ "a"); ("0a1b2c", mkEntry 404 ∅ "b");
              ("0a1b2d", mkEntry 200 ∅ "c")] in
  let s0 := mkCState (mkShared ∅ ∅ ∅ ∅) (set_calls_of kes) in
  ∃ s, run_schedule c0 s0 [(0, 0); (1, 0); (2, 0); (1, 0); (2, 0); (2, 0); (1, 0)]%nat
       = Some s
       ∧ t_pc <$> pool s = [PLock; PCreate (json_Marshal (mkEntry 404 ∅ "b"));
                            PCreate (json_Marshal (mkEntry 200 ∅ "c"))]
       ∧ (∀ k, k ∈ held (sh s)
               ↔ ∃ i t, pool s !! i = Some t ∧ t_key t = k ∧ in_cs (t_pc t)).
Proof.
  intros c0 kes s0. eexists. split; [vm_compute; reflexivity|].
  split; [vm_compute; reflexivity|].
  refine (proj2 (Set_mutual_exclusion c0 (mkShared ∅ ∅ ∅ ∅) kes _ _ _)).
  - reflexivity.
  - apply (run_schedule_reachable c0
             [(0, 0); (1, 0); (2, 0); (1, 0); (2, 0); (2, 0); (1, 0)]%nat).
    vm_compute. reflexivity.
Defined.

(** A step of a call for the key leaves the file of the key as it is, or puts
    the whole text of the entry of the call in its place. *)
Lemma final_whole_step c0 key es n0 s i n s' :
  set_inv c0 key es s → final_whole c0 key es n0 (sh s) →
  pool_step c0 s i n = Some s' → final_whole c0 key es n0 (sh s').
Proof.
  intros Hinv Hw (t & sh' & t' & Hi & Hstep & ->)%pool_step_inv. cbn [sh].
  assert (t_key t = key) as Hk.
  { by apply (proj1 (Forall_lookup _ _) (inv_keys _ _ _ _ Hinv) i t). }
  pose proof (inv_pc _ _ _ _ Hinv i t Hi) as Hpc.
  destruct (inv_fs _ _ _ _ Hinv) as [Hfs1 Hfs2].
  assert (t_entry t ∈ es) as He.
  { rewrite <- (inv_entries _ _ _ _ Hinv). apply list_elem_of_fmap.
    exists t. split; [done|]. by apply list_elem_of_lookup_2 in Hi. }
  pose proof (tmp_path_distinct (ShardPath (dir c0) key)) as Hrt.
  change (ShardPath (dir c0) key +:+ ".json") with (filePathForKey c0 key) in Hrt.
  assert (file_at sh' (filePathForKey c0 key) = file_at (sh s) (filePathForKey c0 key)
          ∨ file_at sh' (filePathForKey c0 key)
            = Some (File (json_Marshal (t_entry t)))) as [E|E].
  { unfold thread_step in Hstep. rewrite Hk in Hstep. unfold pc_ok in Hpc.
    unfold file_at.
    destruct (t_pc t) as [| | |b|b fd off| |err|err] eqn:Epc.
    - left. by injection Hstep as <- _.
    - case_bool_decide; [done|]. left. by injection Hstep as <- _.
    - left. by injection Hstep as <- _.
    - left.
      destruct (names (sh s) !! path_resolve (filePathForKey c0 key +:+ ".tmp"))
        as [fd|] eqn:Ert.
      + destruct (Hfs1 fd eq_refl) as [_ Hne].
        destruct (inodes (sh s) !! fd) as [[d|]|] eqn:Efd;
          injection Hstep as <- _; cbn [names inodes]; try done;
          (destruct (names (sh s) !! path_resolve (filePathForKey c0 key)) as [j|];
           [|done]; rewrite lookup_insert_ne; [done|congruence]).
      + injection Hstep as <- _. cbn [names inodes].
        rewrite lookup_insert_ne by done.
        destruct (names (sh s) !! path_resolve (filePathForKey c0 key)) as [j|] eqn:Erp;
          [|done].
        rewrite lookup_insert_ne; [done|]. intros Ej.
        apply (is_fresh (dom (inodes (sh s)))). rewrite Ej.
        apply elem_of_dom. by apply (Hfs2 j).
    - left. destruct (String.length b <=? off)%nat; injection Hstep as <- _; [done|].
      cbn [names inodes]. destruct Hpc as (_ & Hfd & _).
      destruct (Hfs1 fd Hfd) as [_ Hne].
      destruct (names (sh s) !! path_resolve (filePathForKey c0 key)) as [j|];
        [|done].
      rewrite lookup_insert_ne; [done|congruence].
    - destruct Hpc as (fd & Hfd & Hdata). rewrite Hfd in Hstep.
      injection Hstep as <- _. right. cbn [names inodes].
      by rewrite lookup_insert_eq.
    - left. by injection Hstep as <- _.
    - done. }
  - unfold final_whole. rewrite E. exact Hw.
  - right. by exists (t_entry t).
Qed.

(** No torn entry: while calls of [Set] for a key run, the file of the key
    holds what it held at the start or the whole text of the entry of one of
    the calls. *)
Lemma final_whole_reachable c0 key (es : list Entry) sh0 (s : cstate) :
  held sh0 = ∅ → fs_ok c0 key sh0 →
  reachable c0 (mkCState sh0 (set_calls key es)) s →
  set_inv c0 key es s
  ∧ final_whole c0 key es (file_at sh0 (filePathForKey c0 key)) (sh s).
Proof.
  intros Hh Hfs Hreach.
  induction Hreach as [|s i n s' _ [IH1 IH2] Hstep].
  - split; [|by left]. apply set_inv_init; [|done]. rewrite Hh. set_solver.
  - split; [by eapply set_inv_step|by eapply final_whole_step].
Qed.

(** ** More on the request handler *)

(** [copyHeaders] into an empty header does not depend on the order in which
    the source map is ranged over, when the names of the source are in
    canonical form (no two of them fall on one name): every name with values
    is copied with its values in their order, and a name without values is
    not copied. *)
Theorem copyHeaders_order_independent (h : Header) (l1 l2 : list (string * list string)) :
  canonical_keys h → l1 ≡ₚ map_to_list h → l2 ≡ₚ map_to_list h →
  copyHeaders ∅ l1 = copyHeaders ∅ l2
  ∧ ∀ k, copyHeaders ∅ l1 !! k = copied (h !! k).
Proof.
  intros Hcan H1 H2.
  assert (∀ l, l ≡ₚ map_to_list h → ∀ k, copyHeaders ∅ l !! k = copied (h !! k)) as Hl.
  { intros l Hperm k. rewrite copyHeaders_lookup.
    - rewrite <- (list_to_map_flip h l) by done.
      rewrite lookup_empty. unfold copied. by destruct (h !! k) as [[|v vv]|].
    - rewrite Hperm. apply NoDup_fst_map_to_list.
    - intros k' vv' Hin. apply Hcan. exists vv'.
      apply elem_of_map_to_list. by rewrite <- Hperm. }
  split; [|by apply Hl].
  apply map_eq. intros k. by rewrite !Hl.
Qed.

Lemma copyHeaders_order_independent_witness :
  let h : Header := {[ "Set-Cookie" := ["b=2"; "a=1"]; "Vary" := []; "Etag" := ["x"] ]} in
  copyHeaders ∅ (map_to_list h) = copyHeaders ∅ (reverse (map_to_list h))
  ∧ copyHeaders ∅ (map_to_list h) !! "Vary" = None
  ∧ copyHeaders ∅ (map_to_list h) !! "Set-Cookie" = Some ["b=2"; "a=1"].
Proof.
  intros h.
  destruct (copyHeaders_order_independent h (map_to_list h) (reverse (map_to_list h)))
    as [Heq Hl].
  - apply canonical_keys_Forall. compute_done.
  - reflexivity.
  - apply reverse_Permutation.
  - split; [exact Heq|]. split.
    + refine (eq_trans (Hl "Vary") _). vm_compute. reflexivity.
    + refine (eq_trans (Hl "Set-Cookie") _). vm_compute. reflexivity.
Defined.

Section HandlerMore.
Context `{GoStdlib} `{GoRuntime} {St : Type} `{Cache St}.
Variable originBase : string.
Variable target : URL.
Variable origin : Request → round_trip.

Local Abbreviation handle := (handler originBase target origin).
Local Abbreviation direct := (director target).

(** Without a store ([c == nil]) every request, eligible or not, goes
    through the base proxy: one round trip to the origin with the request
    that the director makes, no store afterwards either, no tag in the log;
    the response of the origin is relayed with its status and body and with
    every header that the sanitizer keeps, X-Cache included if the origin
    sent it; a transport error gives the response 502. *)
Theorem handler_without_store (r : Request) :
  let o := handle None r in
  events o = [EvOrigin (direct r)] ∧ store o = None ∧ log_tag o = ""
  ∧ (∀ res, origin (direct r) = RTRes res →
       CStatus (response o) = StatusCode res
       ∧ CBody (response o) = body_bytes (ResBody res)
       ∧ (canonical_keys (ResHeader res) →
          ∀ k, CHeader (response o) !! k
               = copied (filterHopByHop (ResHeader res) !! k)))
  ∧ (∀ e, origin (direct r) = RTErr e → response o = bad_gateway).
Proof.
  intros o. unfold o. rewrite handler_bypass by by left.
  destruct (origin (direct r)) as [e|res] eqn:Eo.
  - repeat (split; [done|]). done.
  - split; [done|]. split; [done|]. split; [done|]. split; [|done].
    intros res' [= <-]. split; [done|]. split; [done|].
    intros Hcan k. cbn [response CHeader]. apply copyHeaders_from_map.
    by apply canonical_keys_filterHopByHop.
Qed.

(** A hit is served from the store alone: the status and the body are
    those of the entry, the origin is not contacted (the outcome is the
    same whatever the origin would answer), and the store is not written. *)
Theorem hit_served_from_store (st : St) (r : Request) key ent err :
  cacheEligible r = true → BuildCacheKey originBase r = Ok key →
  cache_Get st key = (Some ent, true, err) →
  let o := handle (Some st) r in
  events o = [EvGet key] ∧ store o = Some st ∧ log_tag o = "HIT"
  ∧ CStatus (response o) = Status ent ∧ CBody (response o) = Body ent
  ∧ ∀ origin', handler originBase target origin' (Some st) r = o.
Proof.
  intros He Hk Hg o. unfold o.
  rewrite (handler_hit _ _ _ st r key ent err) by done.
  repeat (split; [done|]). intros origin'.
  by rewrite (handler_hit _ _ _ st r key ent err).
Qed.

(** Failures on the miss path.  When the round trip fails, or when the body
    of a response that is to be stored cannot be read in full, the client
    gets the response 502 of the proxy, with the body Bad Gateway, and
    nothing is stored.  A response that says no-store is not buffered: when
    its body breaks off, the part that was read is relayed with the status
    of the origin. *)
Theorem miss_failures (st : St) (r : Request) key :
  cacheEligible r = true → BuildCacheKey originBase r = Ok key →
  not_hit (cache_Get st key) →
  let o := handle (Some st) r in
  (∀ e, origin (direct r) = RTErr e →
        response o = bad_gateway ∧ store o = Some st
        ∧ events o = [EvGet key; EvOrigin (direct r)])
  ∧ (∀ res part, origin (direct r) = RTRes res → ResBody res = BodyErr part →
       resNoStore (miss_header (ResHeader res)) = false →
       response o = bad_gateway ∧ store o = Some st
       ∧ events o = [EvGet key; EvOrigin (direct r)])
  ∧ (∀ res part, origin (direct r) = RTRes res → ResBody res = BodyErr part →
       resNoStore (miss_header (ResHeader res)) = true →
       CStatus (response o) = StatusCode res ∧ CBody (response o) = part
       ∧ store o = Some st)
  ∧ CStatus bad_gateway = 502%Z ∧ CBody bad_gateway = "Bad Gateway" +:+ newline
  ∧ CHeader bad_gateway !! "Content-Type" = Some ["text/plain; charset=utf-8"].
Proof.
  intros He Hk Hg o. unfold o. rewrite (handler_miss _ _ _ st r key) by done.
  split; [|split; [|split]].
  - intros e ->. done.
  - intros res part -> Hb Hns. by rewrite Hns, Hb.
  - intros res part -> Hb Hns. by rewrite Hns, Hb.
  - split; [done|]. split; [done|]. vm_compute. reflexivity.
Qed.
End HandlerMore.

Lemma hit_served_from_store_witness :
  let st := (Set_ (mkDiskCache "cache" ∅ ∅) "4745540a2f6170692f6974656d730a"
               (Some (mkEntry 203 {[ "Etag" := ["x"] ]} "kept"))).1 in
  let r := mkRequest "GET" (plain_URL "/items") "HTTP/1.1" ∅ "" "proxy" "10.0.0.1:5000" in
  let down := fun _ : Request => RTErr (mkError "connection refused") in
  let o := @handler hex_stdlib example_runtime DiskCache DiskCache_Cache
             "/api" (plain_URL "/api") down (Some st) r in
  CStatus (response o) = 203%Z ∧ CBody (response o) = "kept"
  ∧ events o = [EvGet "4745540a2f6170692f6974656d730a"].
Proof.
  intros st r down o.
  destruct (@hit_served_from_store hex_stdlib example_runtime DiskCache DiskCache_Cache
              "/api" (plain_URL "/api") down st r "4745540a2f6170692f6974656d730a"
              (mkEntry 203 {[ "Etag" := ["x"] ]} "kept") None)
    as (Hev & _ & _ & Hs & Hb & _).
  - vm_compute. reflexivity.
  - vm_compute. reflexivity.
  - vm_compute. reflexivity.
  - split; [exact Hs|]. split; [exact Hb|exact Hev].
Defined.

Lemma miss_failures_witness :
  let st := mkDiskCache "cache" ∅ ∅ in
  let r := mkRequest "GET" (plain_URL "/items") "HTTP/1.1" ∅ "" "proxy" "10.0.0.1:5000" in
  let origin := fun _ : Request =>
    RTRes (mkOriginResponse 200 {[ "Etag" := ["x"] ]} (BodyErr "par")) in
  let o := @handler hex_stdlib example_runtime DiskCache DiskCache_Cache
             "/api" (plain_URL "/api") origin (Some st) r in
  response o = bad_gateway ∧ store o = Some st.
Proof.
  intros st r origin o.
  destruct (@miss_failures hex_stdlib example_runtime DiskCache DiskCache_Cache
              "/api" (plain_URL "/api") origin st r "4745540a2f6170692f6974656d730a")
    as (_ & Hbody & _).
  - vm_compute. reflexivity.
  - vm_compute. reflexivity.
  - vm_compute. exact I.
  - destruct (Hbody (mkOriginResponse 200 {[ "Etag" := ["x"] ]} (BodyErr "par")) "par")
      as (Hr & Hs & _).
    + reflexivity.
    + reflexivity.
    + vm_compute. reflexivity.
    + split; [exact Hr|exact Hs].
Defined.

(** ** The join of the origin path and the request path *)

Lemma str_last_slash (a : string) : str_last (a +:+ "/") = Some "/"%char.
Proof.
  induction a as [|c a IH]; [done|].
  rewrite str_app_cons. simpl. rewrite IH.
  by destruct (a +:+ "/") eqn:E; [destruct a|].
Qed.

(** [singleJoiningSlash] puts exactly one slash between the two paths,
    whether the first ends with a slash or not and whether the second
    starts with one or not. *)
Theorem singleJoiningSlash_one_slash (a b : string) :
  has_suffix_slash a = false → has_prefix_slash b = false →
  singleJoiningSlash a b = a +:+ "/" +:+ b
  ∧ singleJoiningSlash (a +:+ "/") b = a +:+ "/" +:+ b
  ∧ singleJoiningSlash a ("/" +:+ b) = a +:+ "/" +:+ b
  ∧ singleJoiningSlash (a +:+ "/") ("/" +:+ b) = a +:+ "/" +:+ b.
Proof.
  intros Ha Hb.
  assert (has_suffix_slash (a +:+ "/") = true) as Ha'.
  { unfold has_suffix_slash. by rewrite str_last_slash. }
  assert (has_prefix_slash ("/" +:+ b) = true) as Hb' by done.
  unfold singleJoiningSlash. rewrite Ha, Hb, Ha', Hb'. cbn [andb negb].
  split; [done|]. split; [by rewrite str_app_assoc|]. split; [done|].
  rewrite str_app_assoc. f_equal.
Qed.

Lemma singleJoiningSlash_one_slash_witness :
  singleJoiningSlash "/api/" "/items" = "/api/items"
  ∧ singleJoiningSlash "/api" "items" = "/api/items".
Proof.
  destruct (singleJoiningSlash_one_slash "/api" "items" eq_refl eq_refl)
    as (H1 & _ & _ & H4).
  split; [exact H4|exact H1].
Defined.

(** ** A call of Set that runs alone, and the function Set *)

Lemma fsys_lookup (s : shared) (p : npath) :
  fsys_of_shared s !! p = names s !! p ≫= (fun i => inodes s !! i).
Proof. apply lookup_omap. Qed.

Lemma fsys_lookup_Some (s : shared) (p : npath) (n : node) :
  fsys_of_shared s !! p = Some n →
  ∃ i, names s !! p = Some i ∧ inodes s !! i = Some n.
Proof.
  rewrite fsys_lookup. destruct (names s !! p) as [i|]; [|done]. simpl. eauto.
Qed.

(** The shared state made of a file system shows it, without hard links. *)
Lemma names_of_fsys (fs : fsys) (p : npath) (i : nat) :
  names (shared_of_fsys fs) !! p = Some i ↔ (map_to_list fs).*1 !! i = Some p.
Proof.
  unfold shared_of_fsys. cbn [names]. set (l := map_to_list fs).
  assert (NoDup l.*1) as Hnd by apply NoDup_fst_map_to_list.
  assert ((zip l.*1 (seq 0 (length l))).*1 = l.*1) as Hfst.
  { apply fst_zip. rewrite length_seq, length_fmap. lia. }
  rewrite <- elem_of_list_to_map by (by rewrite Hfst).
  rewrite list_elem_of_lookup. split.
  - intros [j Hj]. apply lookup_zip_with_Some in Hj as (x & y & [= <- <-] & Hx & Hy).
    apply lookup_seq in Hy as [-> _]. done.
  - intros Hi. exists i. apply lookup_zip_with_Some. exists p, i.
    split; [done|]. split; [done|]. apply lookup_seq. split; [done|].
    apply lookup_lt_Some in Hi. by rewrite length_fmap in Hi.
Qed.

Lemma inodes_of_fsys (fs : fsys) (i : nat) :
  inodes (shared_of_fsys fs) !! i = (map_to_list fs).*2 !! i.
Proof.
  unfold shared_of_fsys. cbn [inodes]. set (l := map_to_list fs).
  assert ((zip (seq 0 (length l)) l.*2).*1 = seq 0 (length l)) as Hfst.
  { apply fst_zip. rewrite length_seq, length_fmap. lia. }
  destruct (l.*2 !! i) as [nd|] eqn:Ei.
  - apply elem_of_list_to_map; [rewrite Hfst; apply NoDup_seq|].
    apply list_elem_of_lookup. exists i. apply lookup_zip_with_Some. exists i, nd.
    split; [done|]. split; [|done]. apply lookup_seq. split; [done|].
    apply lookup_lt_Some in Ei. by rewrite length_fmap in Ei.
  - apply not_elem_of_list_to_map. rewrite Hfst, list_elem_of_lookup.
    intros [j Hj]. apply lookup_seq in Hj as [-> Hlt].
    apply lookup_ge_None in Ei. rewrite length_fmap in Ei. simpl in *. lia.
Qed.

Lemma shared_of_fsys_wf (fs : fsys) : wf_shared (shared_of_fsys fs).
Proof.
  split.
  - intros p i Hp. apply names_of_fsys in Hp. rewrite inodes_of_fsys.
    apply lookup_lt_is_Some_2. apply lookup_lt_Some in Hp.
    rewrite length_fmap in Hp. by rewrite length_fmap.
  - intros p q i Hp Hq. apply names_of_fsys in Hp, Hq. congruence.
Qed.

Lemma fsys_of_shared_of_fsys (fs : fsys) : fsys_of_shared (shared_of_fsys fs) = fs.
Proof.
  apply map_eq. intros p. rewrite fsys_lookup.
  destruct (fs !! p) as [nd|] eqn:Ep.
  - apply elem_of_map_to_list, list_elem_of_lookup in Ep as [i Hi].
    assert (names (shared_of_fsys fs) !! p = Some i) as ->.
    { apply names_of_fsys. by rewrite list_lookup_fmap, Hi. }
    cbn [mbind option_bind]. by rewrite inodes_of_fsys, list_lookup_fmap, Hi.
  - destruct (names (shared_of_fsys fs) !! p) as [i|] eqn:En; [|done].
    apply names_of_fsys in En. rewrite list_lookup_fmap in En.
    destruct (map_to_list fs !! i) as [[p' nd]|] eqn:Ei; [|done].
    simpl in En. injection En as ->.
    apply list_elem_of_lookup_2, elem_of_map_to_list in Ei. congruence.
Qed.

(** The same names and inodes show the same files. *)
Lemma fsys_same (s s' : shared) :
  wf_shared s → names s' = names s → inodes s' = inodes s →
  wf_shared s' ∧ fsys_of_shared s' = fsys_of_shared s.
Proof.
  intros Hwf Hn Hi. unfold wf_shared, fsys_of_shared. by rewrite Hn, Hi.
Qed.

(** Writing the inode of a name. *)
Lemma fsys_write (s s' : shared) (p : npath) (i : nat) (n : node) :
  wf_shared s → names s !! p = Some i →
  names s' = names s → inodes s' = <[i := n]> (inodes s) →
  wf_shared s' ∧ fsys_of_shared s' = <[p := n]> (fsys_of_shared s).
Proof.
  intros [Hex Hinj] Hp Hn Hi. split.
  - split.
    + intros q j Hq. rewrite Hn in Hq. rewrite Hi.
      destruct (decide (j = i)) as [->|Hne]; [by rewrite lookup_insert_eq|].
      rewrite lookup_insert_ne by done. by apply (Hex q).
    + intros q q' j. rewrite Hn. apply Hinj.
  - apply map_eq. intros q. rewrite fsys_lookup, Hn, Hi.
    destruct (decide (q = p)) as [->|Hne].
    + rewrite lookup_insert_eq, Hp. simpl. by rewrite lookup_insert_eq.
    + rewrite lookup_insert_ne by done. rewrite fsys_lookup.
      destruct (names s !! q) as [j|] eqn:Hq; [|done]. simpl.
      rewrite lookup_insert_ne; [done|]. intros <-. apply Hne.
      by apply (Hinj q p i).
Qed.

(** A new name with a new inode. *)
Lemma fsys_create (s s' : shared) (p : npath) (i : nat) (n : node) :
  wf_shared s → names s !! p = None → inodes s !! i = None →
  names s' = <[p := i]> (names s) → inodes s' = <[i := n]> (inodes s) →
  wf_shared s' ∧ fsys_of_shared s' = <[p := n]> (fsys_of_shared s).
Proof.
  intros [Hex Hinj] Hp Hfresh Hn Hi.
  assert (∀ q j, names s !! q = Some j → j ≠ i) as Hold.
  { intros q j Hq ->. destruct (Hex q i Hq) as [? E]. by rewrite Hfresh in E. }
  split.
  - split.
    + intros q j Hq. rewrite Hn in Hq. rewrite Hi.
      destruct (decide (j = i)) as [->|Hne]; [by rewrite lookup_insert_eq|].
      rewrite lookup_insert_ne by done.
      destruct (decide (q = p)) as [->|Hqp].
      * rewrite lookup_insert_eq in Hq. by injection Hq as <-.
      * rewrite lookup_insert_ne in Hq by done. by apply (Hex q).
    + intros q q' j. rewrite Hn. intros H1 H2.
      destruct (decide (q = p)) as [->|Hqp]; destruct (decide (q' = p)) as [->|Hqp'];
        [done| | |].
      * rewrite lookup_insert_eq in H1. injection H1 as <-.
        rewrite lookup_insert_ne in H2 by done. by destruct (Hold q' i H2).
      * rewrite lookup_insert_eq in H2. injection H2 as <-.
        rewrite lookup_insert_ne in H1 by done. by destruct (Hold q i H1).
      * rewrite lookup_insert_ne in H1, H2 by done. by apply (Hinj q q' j).
  - apply map_eq. intros q. rewrite fsys_lookup, Hn, Hi.
    destruct (decide (q = p)) as [->|Hne].
    + rewrite !lookup_insert_eq. simpl. by rewrite lookup_insert_eq.
    + rewrite !lookup_insert_ne by done. rewrite fsys_lookup.
      destruct (names s !! q) as [j|] eqn:Hq; [|done]. simpl.
      rewrite lookup_insert_ne; [done|]. intros <-. by destruct (Hold q i Hq).
Qed.

(** A name put in the place of another. *)
Lemma fsys_rename (s s' : shared) (p q : npath) (i : nat) (n : node) :
  wf_shared s → names s !! p = Some i → inodes s !! i = Some n → p ≠ q →
  names s' = <[q := i]> (delete p (names s)) → inodes s' = inodes s →
  wf_shared s' ∧ fsys_of_shared s' = <[q := n]> (delete p (fsys_of_shared s)).
Proof.
  intros [Hex Hinj] Hp Hin Hpq Hn Hi.
  assert (∀ x j, x ≠ q → names s' !! x = Some j →
                 x ≠ p ∧ names s !! x = Some j) as Hold.
  { intros x j Hx. rewrite Hn, lookup_insert_ne by done.
    destruct (decide (x = p)) as [->|Hxp]; [by rewrite lookup_delete_eq|].
    by rewrite lookup_delete_ne. }
  assert (names s' !! q = Some i) as Hq by (by rewrite Hn, lookup_insert_eq).
  split.
  - split.
    + intros x j Hx. rewrite Hi. destruct (decide (x = q)) as [->|Hxq].
      * rewrite Hq in Hx. injection Hx as <-. by exists n.
      * destruct (Hold x j Hxq Hx) as [_ Hx']. by apply (Hex x).
    + intros x y j H1 H2.
      destruct (decide (x = q)) as [->|Hxq]; destruct (decide (y = q)) as [->|Hyq];
        [done| | |].
      * rewrite Hq in H1. injection H1 as <-.
        destruct (Hold y i Hyq H2) as [Hyp Hy]. by destruct Hyp; apply (Hinj y p i).
      * rewrite Hq in H2. injection H2 as <-.
        destruct (Hold x i Hxq H1) as [Hxp Hx]. by destruct Hxp; apply (Hinj x p i).
      * destruct (Hold x j Hxq H1) as [_ Hx]. destruct (Hold y j Hyq H2) as [_ Hy].
        by apply (Hinj x y j).
  - apply map_eq. intros x. rewrite fsys_lookup, Hi.
    destruct (decide (x = q)) as [->|Hxq].
    + rewrite Hq, lookup_insert_eq. done.
    + rewrite Hn, !lookup_insert_ne by done.
      destruct (decide (x = p)) as [->|Hxp]; [by rewrite !lookup_delete_eq|].
      rewrite !lookup_delete_ne by done. by rewrite fsys_lookup.
Qed.

Lemma written_all (b : string) (off : nat) :
  (String.length b ≤ off)%nat → written b off = b.
Proof.
  intros Hlen. unfold written. rewrite take_ge; [apply str_of_bytes_of|].
  by rewrite bytes_of_length.
Qed.

(** Every step of the call keeps the account of the files. *)
Lemma alone_inv_step c0 key e F0 s i n s' :
  alone_inv c0 key e F0 s → pool_step c0 s i n = Some s' → alone_inv c0 key e F0 s'.
Proof.
  intros (Hwf & p & Hpool & Hp) (t & sh' & t' & Hi & Hstep & ->)%pool_step_inv.
  rewrite Hpool in Hi. destruct i as [|i]; [|done]. injection Hi as <-.
  pose proof (tmp_path_distinct (ShardPath (dir c0) key)) as Hrt.
  change (ShardPath (dir c0) key +:+ ".json") with (filePathForKey c0 key) in Hrt.
  unfold alone_inv. cbn [sh pool]. rewrite Hpool. cbn [insert list_insert].
  unfold thread_step in Hstep. cbn [t_key t_entry t_pc] in Hstep.
  assert (∀ sh1 p1, wf_shared sh1 → alone_at c0 key e F0 sh1 p1 →
            sh' = sh1 → t' = mkThread key e p1 →
            wf_shared sh' ∧ ∃ p, [t'] = [mkThread key e p] ∧ alone_at c0 key e F0 sh' p)
    as Hgoal.
  { intros sh1 p1 Hwf1 Hat -> ->. split; [done|]. by exists p1. }
  unfold alone_at in Hp.
  destruct p as [| | |b'|b' fd off| |err|err]; cbn zeta in Hp.
  - injection Hstep as <- <-.
    destruct (fsys_same (sh s) (mkShared (names (sh s)) (inodes (sh s)) (held (sh s))
                (created (sh s) ∪ {[key]})) Hwf eq_refl eq_refl) as [Hwf' Ef].
    eapply (Hgoal _ PLock); [exact Hwf'| |reflexivity|reflexivity].
    unfold alone_at. by rewrite Ef.
  - case_bool_decide; [done|]. injection Hstep as <- <-.
    destruct (fsys_same (sh s) (mkShared (names (sh s)) (inodes (sh s))
                (held (sh s) ∪ {[key]}) (created (sh s))) Hwf eq_refl eq_refl)
      as [Hwf' Ef].
    eapply (Hgoal _ PMarshal); [exact Hwf'| |reflexivity|reflexivity].
    unfold alone_at.
    by rewrite Ef.
  - injection Hstep as <- <-.
    eapply (Hgoal _ (PCreate (json_Marshal e))); [exact Hwf| |reflexivity|reflexivity].
    unfold alone_at. by split.
  - destruct Hp as [-> HF].
    destruct (names (sh s) !! path_resolve (filePathForKey c0 key +:+ ".tmp"))
      as [fd|] eqn:Ert.
    + assert (F0 !! path_resolve (filePathForKey c0 key +:+ ".tmp")
              = inodes (sh s) !! fd) as EF.
      { by rewrite <- HF, fsys_lookup, Ert. }
      destruct (proj1 Hwf _ _ Ert) as [nd End]. rewrite End in Hstep, EF.
      destruct nd as [d|].
      * injection Hstep as <- <-.
        destruct (fsys_write (sh s) (mkShared (names (sh s))
                    (<[fd := File ""]> (inodes (sh s))) (held (sh s)) (created (sh s)))
                    _ fd (File "") Hwf Ert eq_refl eq_refl) as [Hwf' Ef].
        eapply (Hgoal _ (PWrite (json_Marshal e) fd 0)); [exact Hwf'| |reflexivity|reflexivity].
    unfold alone_at.
        split; [done|]. split; [done|]. split; [lia|]. split; [by rewrite EF|].
        by rewrite Ef, HF.
      * injection Hstep as <- <-.
        eapply (Hgoal _ (PUnlock (Some err_permission))); [exact Hwf| |reflexivity|reflexivity].
    unfold alone_at. right. by rewrite EF.
    + injection Hstep as <- <-.
      assert (F0 !! path_resolve (filePathForKey c0 key +:+ ".tmp") = None) as EF.
      { by rewrite <- HF, fsys_lookup, Ert. }
      destruct (fsys_create (sh s)
                  (mkShared (<[path_resolve (filePathForKey c0 key +:+ ".tmp")
                               := fresh (dom (inodes (sh s)))]> (names (sh s)))
                     (<[fresh (dom (inodes (sh s))) := File ""]> (inodes (sh s)))
                     (held (sh s)) (created (sh s)))
                  _ (fresh (dom (inodes (sh s)))) (File "") Hwf Ert) as [Hwf' Ef];
        [|done|done|].
      { apply not_elem_of_dom, is_fresh. }
      eapply (Hgoal _ (PWrite (json_Marshal e) (fresh (dom (inodes (sh s)))) 0)); [exact Hwf'| |reflexivity|reflexivity].
      unfold alone_at.
      split; [done|]. split; [by cbn; rewrite lookup_insert_eq|].
      split; [lia|]. split; [by rewrite EF|]. by rewrite Ef, HF.
  - destruct Hp as (-> & Hfd & Hoff & HnoP & HF).
    destruct (String.length (json_Marshal e) <=? off)%nat eqn:Elen.
    + injection Hstep as <- <-. apply Nat.leb_le in Elen.
      eapply (Hgoal _ PRename); [exact Hwf| |reflexivity|reflexivity].
    unfold alone_at. split; [done|].
      by rewrite HF, written_all.
    + apply Nat.leb_gt in Elen.
      assert (inodes (sh s) !! fd = Some (File (written (json_Marshal e) off))) as Eold.
      { pose proof (fsys_lookup (sh s) (path_resolve (filePathForKey c0 key +:+ ".tmp")))
          as El.
        rewrite HF, lookup_insert_eq, Hfd in El. by simpl in El. }
      rewrite Eold in Hstep. unfold written in Hstep.
      rewrite write_at_append in Hstep by done. injection Hstep as <- <-.
      destruct (fsys_write (sh s)
                  (mkShared (names (sh s))
                     (<[fd := File (written (json_Marshal e)
                                      (off + String.length
                                               (chunk_of (json_Marshal e) off n)))]>
                        (inodes (sh s))) (held (sh s)) (created (sh s)))
                  _ fd _ Hwf Hfd eq_refl eq_refl) as [Hwf' Ef].
      eapply (Hgoal _ (PWrite (json_Marshal e) fd
                (off + String.length (chunk_of (json_Marshal e) off n)))); [exact Hwf'| |reflexivity|reflexivity].
      unfold alone_at.
      split; [done|]. split; [done|].
      split; [rewrite chunk_of_length; lia|]. split; [done|].
      by rewrite Ef, HF, insert_insert_eq.
  - destruct Hp as [HnoP HF].
    destruct (fsys_lookup_Some (sh s) (path_resolve (filePathForKey c0 key +:+ ".tmp"))
                (File (json_Marshal e))) as (fd & Hfd & Hin).
    { by rewrite HF, lookup_insert_eq. }
    rewrite Hfd in Hstep. injection Hstep as <- <-.
    destruct (fsys_rename (sh s)
                (mkShared (<[path_resolve (filePathForKey c0 key) := fd]>
                             (delete (path_resolve (filePathForKey c0 key +:+ ".tmp"))
                                     (names (sh s))))
                   (inodes (sh s)) (held (sh s)) (created (sh s)))
                _ _ fd _ Hwf Hfd Hin Hrt eq_refl eq_refl) as [Hwf' Ef].
    eapply (Hgoal _ (PUnlock None)); [exact Hwf'| |reflexivity|reflexivity].
    unfold alone_at. left. split; [done|]. split; [done|].
    by rewrite Ef, HF, delete_insert_eq.
  - injection Hstep as <- <-.
    destruct (fsys_same (sh s) (mkShared (names (sh s)) (inodes (sh s))
                (held (sh s) ∖ {[key]}) (created (sh s))) Hwf eq_refl eq_refl)
      as [Hwf' Ef].
    eapply (Hgoal _ (PDone err)); [exact Hwf'| |reflexivity|reflexivity].
    unfold alone_at.
    by rewrite Ef.
  - done.
Qed.

Lemma alone_inv_reachable c0 key e F0 s0 s :
  alone_inv c0 key e F0 s0 → reachable c0 s0 s → alone_inv c0 key e F0 s.
Proof.
  intros H0. induction 1 as [|s i n s' _ IH Hstep]; [done|].
  by eapply alone_inv_step.
Qed.

(** A call of [Set] that runs alone, from a state without hard links, and
    returns, returns what the function [Set_] returns on the files that the
    state showed, and leaves the files that [Set_] leaves. *)
Lemma Set_alone c0 key e sh1 s1 err L :
  wf_shared sh1 → reachable c0 (mkCState sh1 (set_calls key [e])) s1 →
  t_pc <$> pool s1 = [PDone err] →
  Set_ (mkDiskCache (dir c0) (fsys_of_shared sh1) L) key (Some e)
  = (mkDiskCache (dir c0) (fsys_of_shared (sh s1)) (L ∪ {[key]}), err).
Proof.
  intros Hwf Hreach Hdone.
  assert (alone_inv c0 key e (fsys_of_shared sh1) s1) as (_ & p & Hpool & Hp).
  { eapply alone_inv_reachable; [|done]. split; [done|]. by exists PStart. }
  rewrite Hpool in Hdone. injection Hdone as ->. unfold alone_at in Hp.
  destruct Hp as [(-> & HnoP & HF)|(-> & HnoP & HF)].
  - rewrite Set_spec by done. by rewrite HF.
  - unfold Set_, lockFor, os_WriteFile, filePathForKey in *.
    cbn [files dir locks] in *. by rewrite HnoP, HF.
Qed.

(** C1.  Concurrent calls of [Set] for one key, started with the mutex free
    and a temporary file that can be written, under every interleaving.
    When all have returned, all have returned nil and the file of the key
    holds the JSON text of the entry of one of the calls, whole; until then
    some call can take a step, and every step brings the calls closer to
    their return.  The algorithm, in every state reached: the mutex of the
    key is locked exactly while a call is between its lock and its unlock,
    there is at most one such call, and a call at its lock takes no step
    while the mutex is locked; a call that is writing has the first bytes of
    the text of its entry, as many as it has written, in the temporary file,
    and a call about to rename has the whole text there; the final file is
    changed by the rename only: it holds what it held at the start or the
    whole text of the entry of one of the calls, and once a call has renamed,
    the whole text of the entry of such a call.  A call is never kept waiting
    by calls for other keys; it takes its steps in the order lock, marshal,
    create and write the temporary file, rename, unlock; the temporary file
    is in the directory of the final path.  A call that runs alone, from a
    state without hard links, such as the state made of a file system,
    returns what the function [Set_] returns and leaves the files that it
    leaves. *)
Theorem Set_concurrent_calls (c0 : DiskCache) (key : string) (es : list Entry)
    (sh0 : shared) (s : cstate) :
  es ≠ [] → held sh0 = ∅ → fs_ok c0 key sh0 →
  reachable c0 (mkCState sh0 (set_calls key es)) s →
  let path := filePathForKey c0 key in
  let tmp := path +:+ ".tmp" in
  (Forall is_done (pool s) →
     Forall returned_nil (pool s)
     ∧ ∃ e, e ∈ es ∧ file_at (sh s) path = Some (File (json_Marshal e)))
  ∧ (¬ Forall is_done (pool s) → ∃ i n s', pool_step c0 s i n = Some s')
  ∧ (∀ i n s', pool_step c0 s i n = Some s' →
               (pool_steps_left s' < pool_steps_left s)%nat)
  ∧ (key ∈ held (sh s) ↔ ∃ i t, pool s !! i = Some t ∧ in_cs (t_pc t))
  ∧ (∀ i j ti tj, pool s !! i = Some ti → pool s !! j = Some tj →
                  in_cs (t_pc ti) → in_cs (t_pc tj) → i = j)
  ∧ (∀ t n, t_pc t = PLock → t_key t ∈ held (sh s) →
            thread_step c0 (sh s) t n = None)
  ∧ (∀ i t b fd off,
       pool s !! i = Some t → t_pc t = PWrite b fd off →
       b = json_Marshal (t_entry t) ∧ (off ≤ String.length b)%nat
       ∧ file_at (sh s) tmp = Some (File (written b off)))
  ∧ (∀ i t, pool s !! i = Some t → t_pc t = PRename →
            file_at (sh s) tmp = Some (File (json_Marshal (t_entry t))))
  ∧ (file_at (sh s) path = file_at sh0 path
     ∨ ∃ e, e ∈ es ∧ file_at (sh s) path = Some (File (json_Marshal e)))
  ∧ ((∃ i t, pool s !! i = Some t ∧ renamed (t_pc t)) →
     ∃ i t, pool s !! i = Some t ∧ renamed (t_pc t)
            ∧ file_at (sh s) path = Some (File (json_Marshal (t_entry t))))
  ∧ (∀ s1 s2 i t n,
       held (sh s1) = ∅ → reachable c0 s1 s2 →
       pool s2 !! i = Some t → ¬ is_done t →
       (∀ j tj, pool s2 !! j = Some tj → j ≠ i → t_key tj ≠ t_key t) →
       is_Some (thread_step c0 (sh s2) t n))
  ∧ (∀ sh1 t n sh2 t',
       thread_step c0 sh1 t n = Some (sh2, t') → pc_next (t_pc t) (t_pc t'))
  ∧ filepath_Dir tmp = filepath_Dir path
  ∧ (∀ e sh1 s1 err L,
       wf_shared sh1 → reachable c0 (mkCState sh1 (set_calls key [e])) s1 →
       t_pc <$> pool s1 = [PDone err] →
       Set_ (mkDiskCache (dir c0) (fsys_of_shared sh1) L) key (Some e)
       = (mkDiskCache (dir c0) (fsys_of_shared (sh s1)) (L ∪ {[key]}), err))
  ∧ (∀ e fs s1 err L,
       reachable c0 (mkCState (shared_of_fsys fs) (set_calls key [e])) s1 →
       t_pc <$> pool s1 = [PDone err] →
       Set_ (mkDiskCache (dir c0) fs L) key (Some e)
       = (mkDiskCache (dir c0) (fsys_of_shared (sh s1)) (L ∪ {[key]}), err)).
Proof.
  intros Hes Hheld Hfs Hreach path tmp.
  destruct (final_whole_reachable c0 key es sh0 s Hheld Hfs Hreach) as [Hinv Hwhole].
  split; [|split; [|split; [|split; [|split; [|split; [|split; [|split; [|split; [|split; [|split; [|split; [|split; [|split]]]]]]]]]]]]].
  - intros Hdone. by apply (set_inv_final c0 key es).
  - by apply (set_inv_progress c0 key es).
  - intros i n s'. apply pool_step_decreases.
  - apply (inv_held _ _ _ _ Hinv).
  - apply (inv_mutex _ _ _ _ Hinv).
  - intros t n Hpc Hk. unfold thread_step. rewrite Hpc.
    by rewrite bool_decide_eq_true_2.
  - intros i t b fd off Hi Hpc.
    pose proof (inv_pc _ _ _ _ Hinv i t Hi) as Hok. unfold pc_ok in Hok.
    rewrite Hpc in Hok. destruct Hok as (Hb & Hfd & Hoff & Hin).
    split; [done|]. split; [done|]. unfold file_at, tmp, path. by rewrite Hfd.
  - intros i t Hi Hpc.
    pose proof (inv_pc _ _ _ _ Hinv i t Hi) as Hok. unfold pc_ok in Hok.
    rewrite Hpc in Hok. destruct Hok as (fd & Hfd & Hin).
    unfold file_at, tmp, path. by rewrite Hfd.
  - exact Hwhole.
  - apply (inv_renamed _ _ _ _ Hinv).
  - intros s1 s2 i t n. apply Set_not_blocked.
  - intros sh1 t n sh2 t'. apply thread_step_order.
  - apply filepath_Dir_tmp.
  - intros e sh1 s1 err L. apply Set_alone.
  - intros e fs s1 err L Hr Hd.
    rewrite <- (fsys_of_shared_of_fsys fs) at 1.
    apply Set_alone; [apply shared_of_fsys_wf|done|done].
Qed.

Lemma Set_concurrent_calls_witness :
  let c0 := mkDiskCache "cache" ∅ ∅ in
  let e1 := mkEntry 200 {[ "Content-Type" := ["text/plain"] ]} "first" in
  let e2 := mkEntry 404 ∅ "second" in
  let s0 := mkCState (mkShared ∅ ∅ ∅ ∅) (set_calls "0a1b2c" [e1; e2]) in
  let sched := [(1, 0); (1, 0); (1, 0); (0, 0); (1, 0); (1, 6); (1, 99); (1, 0); (1, 0);
                (1, 0); (0, 0); (0, 0); (0, 0); (0, 99); (0, 0); (0, 0); (0, 0)]%nat in
  let s := default s0 (run_schedule c0 s0 sched) in
  Forall returned_nil (pool s)
  ∧ ∃ e, e ∈ [e1; e2]
         ∧ file_at (sh s) (filePathForKey c0 "0a1b2c") = Some (File (json_Marshal e)).
Proof.
  intros c0 e1 e2 s0 sched s.
  refine (proj1 (Set_concurrent_calls c0 "0a1b2c" [e1; e2] (mkShared ∅ ∅ ∅ ∅) s
                   _ _ _ _) _).
  - discriminate.
  - reflexivity.
  - split; intros fd; vm_compute; discriminate.
  - apply (run_schedule_reachable c0 sched). vm_compute. reflexivity.
  - vm_compute. repeat constructor.
Defined.
